(* ===== verification/_CoqProject ===== *)
-Q . S2P
Prelude.v
Timetable.v
Simd128.v
Simd128Neon.v
Simd128Sse.v
Simd128Agree.v
AlignedAllocator.v
ReachedIndex.v
ReachedIndexScan.v
Fixtures.v
ReachedIndexProps.v
ReachedIndexInv.v
ReachedIndexRun.v
Simd16.v
Simd16Neon.v
Simd16Avx.v
Simd16Props.v
Simd16Print.v
