(* ===== verification/Prelude.v ===== *)
(** * DynamicTREX SIMD core: a verification development

    The program is the vectorised pruning substrate of a trip-based transit
    router.  It has three parts, all header-only C++:

    - [ProfileReachedIndexSIMD] (src/unnamed/part_000, lines 27-196): per trip
      a 16-byte label vector, one byte per search round, holding the lowest
      stop position known reachable.  [clear] resets it, [alreadyReached]
      reads it, [update] lowers it with one 128-bit minimum per trip and
      walks on through the later trips of the route until a trip is already
      as good.  The 128-bit operations come from one of two backends chosen
      by the preprocessor: ARM NEON or x86 SSE2.
    - [SIMD16u] (src/unnamed/part_000, lines 197-408): a value type of 16
      unsigned 16-bit lanes, again with a NEON and an AVX2 backend.
    - [aligned_allocator] (src/ExternalLibs/aligned_allocator.h): the
      allocator that gives the label vectors their 16-byte alignment.

    The index calls the 128-bit helpers and reads the timetable; its label
    vectors are [std::vector]s over the allocator.  [SIMD16u] stands alone.

    ** Files, in dependency order

    - [Prelude] (this file): the result type for assertion failures,
      out-of-bounds accesses and allocation errors, with its bind notation
      in [result_scope]; fixed-width integers as [Z] with explicit wrap
      ([wrap], [in_range], [signed]); little-endian byte splitting; lane
      vectors as [list Z] with a length and range predicate ([lanes_ok]);
      the hint databases [simd] and [simd_rw] and the tactics [lanes_ext],
      [solve_u] and [by_compute].
    - [Timetable]: the boundary to the timetable ([Data]): trip count, stop
      counts, route ranges, and the well-formedness the index relies on.
      This code is not in the repository; it is modelled from the
      specification's section 6.
    - [Simd128]: the interface the reachability index is written against,
      as the type class [Simd128] (the carrier, the byte view of the union
      [ReachedElement], [simd_set1_u8], [simd_max_u8], [simd_min_u8],
      [makeMask]) with its laws [Simd128Laws], and the bytes of the filter
      that every theorem about [update] uses.
    - [Simd128Neon], [Simd128Sse]: the two backends of lines 47-106 as the
      instances [neon_backend] and [sse_backend], with the proofs
      [neon_laws] and [sse_laws] that each satisfies the interface.  The
      SSE2 side keeps [__m128i] as two signed 64-bit halves and [MAX_MASKS]
      as the 32 literals of the source.
    - [Simd128Agree]: [makeMask] of the two backends side by side: the same
      bytes for rounds 1 to 16, different outcomes outside.
    - [AlignedAllocator]: [aligned_allocator]: [max_size], the size
      arithmetic of [allocate] in 64-bit [size_t], [allocate] on both
      platforms and [deallocate].  The platform allocator
      ([std::aligned_alloc]/[free], [_mm_malloc]/[_mm_free]) is the
      interface [PlatformHeap] with laws [PlatformHeapLaws]; a bump
      allocator ([bump_heap]) implements it.  Theorems: a successful
      [allocate] returns a fresh aligned block, each error branch, the
      exactness of the size computation when nothing wraps and a concrete
      input where it wraps, and that [deallocate] undoes [allocate].
    - [ReachedIndex]: [ProfileReachedIndexSIMD] over an arbitrary backend:
      the state record (the reference to the timetable and the two label
      vectors), the constructor [construct], [clear], [alreadyReached],
      [update] (its loop as the fuelled function [update_loop] and as the
      step relation [update_step]), [getPosition], the mutable accessor
      [operator()] as a read and a write, [getMask]; the reference
      [update_all] that relaxes the whole remainder of the route; the
      representation predicates [index_wf], [rounds_monotone],
      [route_monotone] and [index_inv].
    - [ReachedIndexScan]: the loop of [update] analysed once: what
      [update_loop] returns, its agreement with [update_step], and the
      postcondition [update_post] with the lemmas every later file uses.
    - [Fixtures]: the concrete timetables and index states of the
      witnesses.
    - [ReachedIndexProps]: the behaviour of each member function on every
      branch: when [update] succeeds, what it does to every position, what
      it leaves alone, what [alreadyReached] answers, how [clear] and the
      constructor initialise, each failing assertion, and that the scan
      ends within its fuel.
    - [ReachedIndexInv]: preservation of the invariant by [update],
      propagation of an update to the later rounds, and the equivalence of
      [update] with [update_all] under the invariant.
    - [ReachedIndexRun]: sequences of calls ([op], [exec], [run]) and the
      states the checked interface can reach ([reachable]): they satisfy
      the invariant, positions never increase and answers are never
      withdrawn; the specification's scenario for every lawful backend;
      two inputs on which a write through [operator()] breaks propagation
      and early exit.
    - [Simd16]: what the two definitions of [SIMD16u] share: the meaning of
      each operation on one lane, the interface [Simd16] with one field per
      member function and its laws [Simd16Laws].
    - [Simd16Neon], [Simd16Avx]: the two definitions of [SIMD16u] with the
      intrinsics they call, as the instances [neon16] and [avx16] with the
      proofs [neon16_laws] and [avx16_laws].
    - [Simd16Props]: theorems against the interface (round trip through
      memory, [minmask]/[maxmask], [blend], wrap-around arithmetic, lane
      access modulo 16); an expression language over the member functions
      whose evaluation on a lawful backend refines a reference semantics
      on lane lists, hence agreement of the two backends; and concrete
      inputs outside the contract on which they differ.
    - [Simd16Print]: [printSIMD] (lines 403-409), written once for both
      backends: the stream [std::cout] as the string of characters written,
      the two inserters it uses, the loop over the sixteen lanes; the
      format of the text as a closed form, and a reader of the bracketed
      list with the theorem that it returns the lanes printed.

    ** Modelling choices

    - Integers: a [uint8_t], [uint16_t] or [size_t] is a [Z] together with
      the range fact [in_range w]; every operation of the source that can
      leave the range (the narrowing in [std::fill], 16-bit addition, the
      [size_t] product and rounding of the allocator) has its [wrap]
      written out.  Arguments are taken as the callee sees them: a caller
      passing a wider value is converted before the call and that
      conversion is outside the model.
    - Undefined behaviour: an index outside an array and a failed [assert]
      are values [Err OutOfBounds] and [Err AssertionFailure] of [result];
      the safety theorems state when neither occurs.  [assert] is modelled
      as evaluated, as in a build without [NDEBUG]; with [NDEBUG] the
      source has undefined behaviour where the model reports the failed
      assertion.  [std::length_error]
      and [std::bad_alloc] are [Err LengthError] and [Err BadAlloc].
    - The two backends are mutually exclusive in the source (one
      preprocessor branch is compiled).  Both are modelled; where the same
      source name is defined twice the model adds the suffixes [_neon],
      [_sse] and [_avx].
    - Vendor intrinsics ([vminq_u8], [_mm_min_epu8], [vshlq_u16],
      [_mm256_blendv_epi8], ...) are library code the sources only call;
      they are modelled from the vendors' instruction descriptions and
      marked as such in the manifest.  The AVX2 shifts receive the
      non-constant [int] of the source as an unsigned count, so every
      count outside 0 to 15 clears the lanes.
    - Interfaces: the AVX2 [SIMD16u] names its masked extrema [max] and
      [min], returns their mask as a bare [__m256i] and takes such a
      register in [blend]; the instance [avx16] wraps and unwraps it so
      that both definitions implement [Simd16].
    - [std::size_t] is 64 bits wide ([SIZE_BITS]); the 32-bit ARM target
      is outside the model.  The laws of [PlatformHeap] are assumptions
      about the platform's allocator, not code of the repository; the
      bump allocator of the witnesses answers a request for zero bytes
      with a block.
    - Reference definitions ([mask_bytes], [filter_bytes], [relax_bytes],
      [relax_range], [default_template], [requested], [show_elements],
      [show_lanes]) are closed forms of what a piece of code computes, not
      translations of it; each is proved equal to the translation
      ([makeMask_neon_mask_bytes], [makeMask_sse_spec], [to_bytes_filter],
      [update_loop_run], [defaultLabels_construct], [printSIMD_loop_run]).
    - Member functions that mutate the receiver return the new receiver.
      References into the label storage are a read and a write.
    - Loops: the scan of [update] runs with fuel [S (length (labels s))],
      one more than the number of labels.  On a well-formed index it
      visits at most the trips from [trip] to the end of the route and
      then evaluates its condition once more, so the fuel is never what
      stops it: [update_loop_run] gives the result for every fuel above
      that distance, [update_loop_sound] and [update_loop_complete] relate
      it to the step relation, and [update_terminates] states the bound.
      The loop of the NEON [makeMask] runs at most 16 times and has fuel
      16 ([makeMask_loop_fuel], [makeMask_neon_unfold]).  The loop of
      [printSIMD] evaluates its condition seventeen times and has fuel 17
      ([printSIMD_loop_run]); a [uint16_t] has at most five decimal digits,
      the fuel of [put_digits] ([read_put_digits]).
    - Output: [std::cout] is taken in its default state (decimal base,
      right alignment, fill character space); the inserters for a C string
      and for an unsigned short are modelled from the C++ standard.

    ** Not modelled

    The allocator's [address], [construct], [destroy] and [rebind]
    (placement new and type plumbing); the
    allocation of the two label vectors inside the constructor of the
    index, which [construct] takes as given with indeterminate content;
    the timetable classes themselves, of which only the boundary appears. *)

From Stdlib Require Export ZArith Lia.
From stdpp Require Export base tactics option list numbers sorting.

Local Open Scope Z_scope.

(** ** Results: assertion failures, out-of-bounds accesses, allocation errors *)

Inductive error : Type :=
| AssertionFailure
| OutOfBounds
| LengthError
| BadAlloc.

Inductive result (A : Type) : Type :=
| Ok (a : A)
| Err (e : error).

Arguments Ok {A} a.
Arguments Err {A} e.

#[export] Instance error_eq_dec : EqDecision error.
Proof. solve_decision. Defined.

#[export] Instance result_eq_dec `{EqDecision A} : EqDecision (result A).
Proof. solve_decision. Defined.

#[export] Instance result_ret : MRet result := @Ok.

(** Sequencing: the first failure ends the computation. *)
Definition rbind {A B} (m : result A) (f : A → result B) : result B :=
  match m with
  | Ok a => f a
  | Err e => Err e
  end.

#[export] Instance result_bind : MBind result := λ A B f m, rbind m f.

#[export] Instance result_fmap : FMap result := λ A B f m,
  match m with
  | Ok a => Ok (f a)
  | Err e => Err e
  end.

(** [assert(c)] of <cassert>: nothing when [c] holds, a failure otherwise. *)
Definition assert (c : bool) : result unit :=
  if c then Ok tt else Err AssertionFailure.

(** [v[i]] on a [std::vector] or array with an unsigned index: the element,
    or [OutOfBounds] where C++ leaves the behaviour undefined. *)
Definition at_index {A} (l : list A) (i : nat) : result A :=
  match l !! i with
  | Some x => Ok x
  | None => Err OutOfBounds
  end.

(** The same with a signed index, which may also be negative. *)
Definition index {A} (l : list A) (i : Z) : result A :=
  if decide (0 ≤ i) then at_index l (Z.to_nat i) else Err OutOfBounds.

Definition is_ok {A} (r : result A) : Prop := ∃ a, r = Ok a.

(** The computation succeeds with a value satisfying [P]. *)
Definition ok_with {A} (P : A → Prop) (r : result A) : Prop :=
  match r with
  | Ok a => P a
  | Err _ => False
  end.

#[export] Instance ok_with_dec {A} (P : A → Prop) `{!∀ a, Decision (P a)} r :
  Decision (ok_with P r).
Proof. destruct r; simpl; apply _. Defined.

Declare Scope result_scope.
Delimit Scope result_scope with result.
Notation "'do' x <- m ; k" := (rbind m (λ x, k))
  (at level 10, x name, m at level 100, k at level 200,
   format "'[v' 'do'  x  <-  m ; '/' k ']'") : result_scope.
Notation "'check' c ; k" := (rbind (assert c) (λ _ : unit, k))
  (at level 10, c at level 100, k at level 200,
   format "'[v' 'check'  c ; '/' k ']'") : result_scope.

(** ** Fixed-width integers *)

(** The value a [w]-bit unsigned object takes when [z] is stored in it. *)
Definition wrap (w z : Z) : Z := z mod 2 ^ w.

(** [z] is a value of a [w]-bit unsigned type. *)
Definition in_range (w z : Z) : Prop := 0 ≤ z < 2 ^ w.

(** The value of the [w]-bit pattern [z] read as a signed integer. *)
Definition signed (w z : Z) : Z :=
  let u := wrap w z in
  if decide (u < 2 ^ (w - 1)) then u else u - 2 ^ w.

#[export] Instance in_range_dec w z : Decision (in_range w z).
Proof. unfold in_range. apply _. Defined.

(** ** Little-endian bytes of an integer *)

Fixpoint le_split (n : nat) (z : Z) : list Z :=
  match n with
  | O => []
  | S n => wrap 8 z :: le_split n (z ≫ 8)
  end.

Fixpoint le_combine (bs : list Z) : Z :=
  match bs with
  | [] => 0
  | b :: bs => b + 2 ^ 8 * le_combine bs
  end.

(** ** Lane vectors *)

(** [n] lanes, each a [w]-bit unsigned value. *)
Definition lanes_ok (n : nat) (w : Z) (l : list Z) : Prop :=
  length l = n ∧ Forall (in_range w) l.

#[export] Instance lanes_ok_dec n w l : Decision (lanes_ok n w l).
Proof. unfold lanes_ok. apply _. Defined.

(** Lane values that never increase with the lane index. *)
Definition descending (l : list Z) : Prop := StronglySorted (λ x y, y ≤ x) l.

(** [l'] is lane by lane at most [l]. *)
Definition lanes_le (l' l : list Z) : Prop := Forall2 (λ y x, y ≤ x) l' l.

#[export] Instance descending_dec l : Decision (descending l).
Proof. unfold descending. apply _. Defined.

#[export] Instance lanes_le_dec l' l : Decision (lanes_le l' l).
Proof. unfold lanes_le. apply _. Defined.

(** All-ones and all-zeros lane masks of width [w]. *)
Definition ones (w : Z) : Z := 2 ^ w - 1.

Definition is_mask (w x : Z) : Prop := x = 0 ∨ x = ones w.

#[export] Instance is_mask_dec w x : Decision (is_mask w x).
Proof. unfold is_mask. apply _. Defined.

(** ** Automation *)

Create HintDb simd discriminated.
Create Rewrite HintDb simd_rw.

(** Range side conditions: unfold the range predicates, expose powers of
    two as numerals and hand over to [lia]. *)
Ltac solve_u :=
  unfold in_range, wrap, ones in *;
  repeat match goal with
         | |- context [2 ^ ?n] =>
             let v := eval vm_compute in (2 ^ n) in
             progress change (2 ^ n) with v
         | H : context [2 ^ ?n] |- _ =>
             let v := eval vm_compute in (2 ^ n) in
             progress change (2 ^ n) with v in H
         end;
  try (Z.div_mod_to_equations; lia).

(** A decidable closed proposition, by evaluation. *)
Ltac by_compute :=
  match goal with
  | |- ?P => apply (bool_decide_eq_true_1 P); vm_compute; reflexivity
  end.

(** Equality of two lists of the known length [n], lane by lane: leaves the
    two length goals and the goal [x = y] for lane [i]. *)
Ltac lanes_ext n i :=
  let x := fresh "x" in
  let y := fresh "y" in
  let Hi := fresh "Hi" in
  let Hx := fresh "Hx" in
  let Hy := fresh "Hy" in
  apply (list_eq_same_length _ _ n); [ | | intros i x y Hi Hx Hy].

(** ** Results *)

Lemma bind_Ok {A B} (m : result A) (f : A → result B) b :
  rbind m f = Ok b ↔ ∃ a, m = Ok a ∧ f a = Ok b.
Proof. destruct m; simpl; naive_solver. Qed.

Lemma bind_Err {A B} (m : result A) (f : A → result B) e :
  rbind m f = Err e ↔ m = Err e ∨ ∃ a, m = Ok a ∧ f a = Err e.
Proof. destruct m; simpl; naive_solver. Qed.

Lemma bind_eq_Ok {A B} (m : result A) (f : A → result B) a :
  m = Ok a → rbind m f = f a.
Proof. by intros ->. Qed.

Lemma bind_eq_Err {A B} (m : result A) (f : A → result B) e :
  m = Err e → rbind m f = Err e.
Proof. by intros ->. Qed.

Lemma ok_with_iff {A} (P : A → Prop) r : ok_with P r ↔ ∃ a, r = Ok a ∧ P a.
Proof. destruct r; simpl; naive_solver. Qed.

Lemma assert_Ok c : assert c = Ok tt ↔ c = true.
Proof. destruct c; simpl; naive_solver. Qed.

Lemma assert_true c : c = true → assert c = Ok tt.
Proof. apply assert_Ok. Qed.

Lemma assert_false c : c = false → assert c = Err AssertionFailure.
Proof. by intros ->. Qed.

(** A chain of assertions passes when all conditions hold and otherwise
    fails as an assertion. *)
Lemma check_unfold {A} c (k : result A) :
  rbind (assert c) (λ _, k) = if c then k else Err AssertionFailure.
Proof. by destruct c. Qed.

Lemma check3_unfold {A} c1 c2 c3 (k : result A) :
  rbind (assert c1) (λ _, rbind (assert c2) (λ _, rbind (assert c3) (λ _, k))) =
  if c1 && c2 && c3 then k else Err AssertionFailure.
Proof. by destruct c1, c2, c3. Qed.

Lemma at_index_Ok {A} (l : list A) i x : at_index l i = Ok x ↔ l !! i = Some x.
Proof. unfold at_index. destruct (l !! i); naive_solver. Qed.

Lemma at_index_lookup {A} (l : list A) i x : l !! i = Some x → at_index l i = Ok x.
Proof. apply at_index_Ok. Qed.

Lemma at_index_Err {A} (l : list A) i e :
  at_index l i = Err e ↔ e = OutOfBounds ∧ (length l ≤ i)%nat.
Proof.
  unfold at_index. destruct (l !! i) eqn:Hi.
  - apply lookup_lt_Some in Hi. naive_solver lia.
  - apply lookup_ge_None in Hi. naive_solver.
Qed.

Lemma at_index_is_ok {A} (l : list A) i : is_ok (at_index l i) ↔ (i < length l)%nat.
Proof.
  unfold is_ok. setoid_rewrite at_index_Ok. rewrite <- lookup_lt_is_Some. done.
Qed.

Lemma index_Ok {A} (l : list A) i x :
  index l i = Ok x ↔ 0 ≤ i ∧ l !! Z.to_nat i = Some x.
Proof. unfold index. case_decide; rewrite ?at_index_Ok; naive_solver. Qed.

Lemma index_lookup {A} (l : list A) (i : nat) x :
  l !! i = Some x → index l (Z.of_nat i) = Ok x.
Proof. intros. apply index_Ok. rewrite Nat2Z.id. split; [lia|done]. Qed.

Lemma index_is_ok {A} (l : list A) i :
  is_ok (index l i) ↔ 0 ≤ i < Z.of_nat (length l).
Proof.
  unfold index. case_decide.
  - rewrite at_index_is_ok. lia.
  - unfold is_ok. naive_solver lia.
Qed.

Lemma index_Err {A} (l : list A) i e :
  index l i = Err e ↔ e = OutOfBounds ∧ ¬ (0 ≤ i < Z.of_nat (length l)).
Proof.
  unfold index. case_decide; [rewrite at_index_Err|]; naive_solver lia.
Qed.

#[export] Hint Rewrite @bind_Ok @assert_Ok @at_index_Ok @index_Ok : simd_rw.
#[export] Hint Resolve assert_true at_index_lookup index_lookup : simd.

(** ** Lane vectors *)

Lemma lanes_ok_length n w l : lanes_ok n w l → length l = n.
Proof. by intros []. Qed.

Lemma lanes_ok_lookup n w l (i : nat) x :
  lanes_ok n w l → l !! i = Some x → in_range w x ∧ (i < n)%nat.
Proof.
  intros [Hlen Hall] Hx. split; [by eapply Forall_lookup_1|].
  apply lookup_lt_Some in Hx. lia.
Qed.

Lemma lanes_ok_lookup_range n w l (i : nat) x :
  lanes_ok n w l → l !! i = Some x → in_range w x.
Proof. intros [_ Hall] Hx. exact (Forall_lookup_1 _ _ _ _ Hall Hx). Qed.

Lemma lanes_ok_lookup_lt n w l (i : nat) :
  lanes_ok n w l → (i < n)%nat → ∃ x, l !! i = Some x ∧ in_range w x.
Proof.
  intros Hl Hi. destruct (lookup_lt_is_Some_2 l i) as [x Hx].
  { by rewrite (lanes_ok_length _ _ _ Hl). }
  exists x. split; [done|]. by eapply lanes_ok_lookup.
Qed.

Lemma lanes_ok_replicate n w x : in_range w x → lanes_ok n w (replicate n x).
Proof. split; [apply length_replicate|by apply Forall_replicate]. Qed.

Lemma lanes_ok_zip_with (f : Z → Z → Z) n w a b :
  (∀ x y, in_range w x → in_range w y → in_range w (f x y)) →
  lanes_ok n w a → lanes_ok n w b → lanes_ok n w (zip_with f a b).
Proof.
  intros Hf [Ha Ha'] [Hb Hb']. split.
  - rewrite length_zip_with. lia.
  - apply Forall_lookup. intros i z.
    rewrite lookup_zip_with_Some. intros (x & y & -> & Hx & Hy).
    apply Hf; [exact (Forall_lookup_1 _ _ _ _ Ha' Hx)|exact (Forall_lookup_1 _ _ _ _ Hb' Hy)].
Qed.

Lemma lanes_ok_insert n w l (i : nat) x :
  lanes_ok n w l → in_range w x → lanes_ok n w (<[i:=x]> l).
Proof.
  intros [Hlen Hall] Hx. split; [by rewrite length_insert|by apply Forall_insert].
Qed.

Lemma lanes_ok_fmap (f : Z → Z) n w w' l :
  (∀ x, in_range w x → in_range w' (f x)) →
  lanes_ok n w l → lanes_ok n w' (f <$> l).
Proof.
  intros Hf [Hlen Hall]. split; [by rewrite length_fmap|].
  apply Forall_fmap, Forall_lookup. intros i x Hx.
  apply Hf. exact (Forall_lookup_1 _ _ _ _ Hall Hx).
Qed.

(** *** Order between lanes and between vectors *)

Lemma descending_lookup l :
  descending l ↔
  ∀ (i j : nat) x y, (i < j)%nat → l !! i = Some x → l !! j = Some y → y ≤ x.
Proof.
  unfold descending. induction l as [|a l IH].
  { split; [intros _ i j x y _ Hx; by rewrite lookup_nil in Hx|constructor]. }
  rewrite StronglySorted_cons, IH, Forall_lookup. split.
  - intros [Ha Hl] [|i] [|j] x y Hij Hx Hy; simplify_eq/=; [lia|eauto|lia|].
    apply (Hl i j); (done || lia).
  - intros H. split.
    + intros j y Hy. apply (H 0%nat (S j)); (done || lia).
    + intros i j x y Hij Hx Hy. apply (H (S i) (S j)); (done || lia).
Qed.

Lemma descending_lookup_le l (i j : nat) x y :
  descending l → (i ≤ j)%nat → l !! i = Some x → l !! j = Some y → y ≤ x.
Proof.
  intros Hl Hij Hx Hy. destruct (decide (i = j)) as [->|]; [by simplify_eq|].
  eapply (proj1 (descending_lookup l) Hl i j); (done || lia).
Qed.

Lemma lanes_le_lookup l' l :
  lanes_le l' l ↔
  length l' = length l ∧ ∀ (i : nat) y x, l' !! i = Some y → l !! i = Some x → y ≤ x.
Proof.
  unfold lanes_le. rewrite Forall2_same_length_lookup. done.
Qed.

Lemma lanes_le_refl l : lanes_le l l.
Proof. apply Forall2_same_length_lookup. split; [done|]. intros; simplify_eq. lia. Qed.

Lemma lanes_le_trans l1 l2 l3 : lanes_le l1 l2 → lanes_le l2 l3 → lanes_le l1 l3.
Proof.
  unfold lanes_le. intros H12. revert l3.
  induction H12; inversion 1; simplify_eq; constructor; [lia|auto].
Qed.

Lemma in_range_min w x y : in_range w x → in_range w y → in_range w (x `min` y).
Proof. unfold in_range. lia. Qed.

Lemma in_range_max w x y : in_range w x → in_range w y → in_range w (x `max` y).
Proof. unfold in_range. lia. Qed.

Lemma wrap_in_range w z : 0 ≤ w → in_range w (wrap w z).
Proof. intros. apply Z.mod_pos_bound. by apply Z.pow_pos_nonneg. Qed.

Lemma wrap_small w z : in_range w z → wrap w z = z.
Proof. intros. by apply Z.mod_small. Qed.

#[export] Hint Resolve in_range_min in_range_max wrap_in_range
  lanes_ok_replicate lanes_ok_zip_with lanes_ok_insert : simd.
#[export] Hint Extern 2 (_ ≤ _) => lia : simd.
#[export] Hint Extern 2 (_ < _) => lia : simd.

(** ** Wrap-around, bytes and signed values *)

Lemma pow2_pos w : 0 ≤ w → 0 < 2 ^ w.
Proof. intros. by apply Z.pow_pos_nonneg. Qed.

Lemma wrap_wrap_le w v z : 0 ≤ v ≤ w → wrap v (wrap w z) = wrap v z.
Proof.
  intros Hvw. unfold wrap.
  replace (2 ^ w) with (2 ^ v * 2 ^ (w - v)) by (rewrite <- Z.pow_add_r by lia; f_equal; lia).
  pose proof (pow2_pos v). pose proof (pow2_pos (w - v)).
  rewrite Z.rem_mul_r by lia.
  rewrite (Z.mul_comm (2 ^ v)), Z.mod_add by lia. apply Z.mod_mod. lia.
Qed.

Lemma wrap_shiftr w v z : 0 ≤ v ≤ w → wrap w z ≫ v = wrap (w - v) (z ≫ v).
Proof.
  intros Hvw. unfold wrap. rewrite !Z.shiftr_div_pow2 by lia.
  replace (2 ^ w) with (2 ^ v * 2 ^ (w - v)) by (rewrite <- Z.pow_add_r by lia; f_equal; lia).
  pose proof (pow2_pos v). pose proof (pow2_pos (w - v)).
  rewrite Z.rem_mul_r by lia.
  rewrite (Z.mul_comm (2 ^ v)), Z.div_add by lia.
  rewrite (Z.div_small (z mod 2 ^ v)) by (apply Z.mod_pos_bound; lia). lia.
Qed.

Lemma length_le_split n z : length (le_split n z) = n.
Proof. revert z. induction n; intros; simpl; [done|]. by rewrite IHn. Qed.

Lemma le_split_ok n z : lanes_ok n 8 (le_split n z).
Proof.
  split; [apply length_le_split|]. revert z.
  induction n; intros; simpl; constructor; [by apply wrap_in_range|done].
Qed.

Lemma le_split_wrap n w z :
  8 * Z.of_nat n ≤ w → le_split n (wrap w z) = le_split n z.
Proof.
  revert w z. induction n as [|n IH]; intros w z Hw; simpl; [done|].
  rewrite wrap_wrap_le, wrap_shiftr by lia. f_equal. apply IH. lia.
Qed.

Lemma le_combine_split n z : le_combine (le_split n z) = wrap (8 * Z.of_nat n) z.
Proof.
  revert z. induction n as [|n IH]; intros z; simpl.
  { unfold wrap. by rewrite Z.mod_1_r. }
  rewrite IH. unfold wrap. rewrite Z.shiftr_div_pow2 by lia.
  replace (2 ^ (8 * Z.of_nat (S n))) with (2 ^ 8 * 2 ^ (8 * Z.of_nat n))
    by (rewrite <- Z.pow_add_r by lia; f_equal; lia).
  pose proof (pow2_pos 8). pose proof (pow2_pos (8 * Z.of_nat n)).
  rewrite Z.rem_mul_r by lia. done.
Qed.

Lemma le_split_combine bs :
  Forall (in_range 8) bs → le_split (length bs) (le_combine bs) = bs.
Proof.
  induction 1 as [|b bs Hb Hbs IH]; simpl; [done|].
  assert (wrap 8 (b + 2 ^ 8 * le_combine bs) = b) as ->.
  { unfold wrap. rewrite (Z.mul_comm (2 ^ 8)), Z.mod_add by lia. by apply Z.mod_small. }
  f_equal. rewrite Z.shiftr_div_pow2 by lia.
  rewrite (Z.mul_comm (2 ^ 8)), Z.div_add by lia.
  rewrite Z.div_small by done. done.
Qed.

Lemma le_combine_range bs :
  Forall (in_range 8) bs → in_range (8 * Z.of_nat (length bs)) (le_combine bs).
Proof.
  intros Hbs. rewrite <- (le_split_combine bs Hbs) at 2.
  rewrite le_combine_split. apply wrap_in_range. lia.
Qed.

Lemma signed_wrap w z : 0 < w → wrap w (signed w z) = wrap w z.
Proof.
  intros Hw. unfold signed. case_decide; [apply wrap_wrap_le; lia|].
  unfold wrap. pose proof (pow2_pos w).
  rewrite <- (Z.mod_add _ 1) by lia. rewrite Z.mul_1_l, Z.sub_add.
  apply Z.mod_mod. lia.
Qed.

Lemma signed_range w z : 0 < w → - 2 ^ (w - 1) ≤ signed w z < 2 ^ (w - 1).
Proof.
  intros Hw. unfold signed.
  assert (2 ^ w = 2 * 2 ^ (w - 1)) as Hpow.
  { rewrite <- Z.pow_succ_r by lia. f_equal. lia. }
  pose proof (wrap_in_range w z ltac:(lia)) as Hr. unfold in_range in Hr.
  case_decide; lia.
Qed.

Lemma signed_small w z : 0 < w → - 2 ^ (w - 1) ≤ z < 2 ^ (w - 1) → signed w z = z.
Proof.
  intros Hw Hz. unfold signed, wrap.
  assert (2 ^ w = 2 * 2 ^ (w - 1)) as Hpow.
  { rewrite <- Z.pow_succ_r by lia. f_equal. lia. }
  destruct (decide (0 ≤ z)).
  - rewrite Z.mod_small by lia. case_decide; lia.
  - rewrite <- (Z.mod_add _ 1) by lia. rewrite Z.mod_small by lia. case_decide; lia.
Qed.

#[export] Hint Resolve le_split_ok : simd.
#[export] Hint Rewrite length_le_split le_combine_split : simd_rw.

(** ** Finite case analysis *)

(** A decidable property of an integer interval holds when evaluation says
    so: the way the constant tables are checked entry by entry. *)
Lemma forall_range (P : Z → Prop) `{!∀ z, Decision (P z)} (lo hi : Z) :
  bool_decide (Forall P (seqZ lo (hi - lo))) = true → ∀ z, lo ≤ z < hi → P z.
Proof.
  intros HP%bool_decide_eq_true z Hz.
  apply (Forall_lookup_1 _ _ (Z.to_nat (z - lo)) z HP).
  rewrite lookup_seqZ_lt by lia. f_equal. lia.
Qed.
