(* ===== verification/Timetable.v ===== *)
(** * The timetable boundary

    [ProfileReachedIndexSIMD] holds a reference to a [TripBased::Data] and
    reads five things from it: [numberOfTrips()], [numberOfStopsInTrip(t)],
    [isTrip(t)] and the vectors [routeOfTrip] and [firstTripOfRoute].  The
    class itself is outside the repository; this file models that boundary
    from section 6 of the specification, together with the properties of a
    timetable the index relies on (section 3: the trips of a route occupy
    the contiguous ascending id range between two entries of
    [firstTripOfRoute] and share one stop sequence).

    Trip and route ids are indices, hence [nat]; stop counts are [Z]
    because the index narrows them to a byte. *)

From S2P Require Import Prelude.

Local Open Scope Z_scope.

Record Data : Type := {
  (** [std::vector<RouteId> routeOfTrip], indexed by trip *)
  routeOfTrip : list nat;
  (** [std::vector<TripId> firstTripOfRoute], indexed by route, with one
      sentinel entry past the last route *)
  firstTripOfRoute : list nat;
  (** the stop count of each trip *)
  stopsOfTrip : list Z;
}.

Definition numberOfTrips (d : Data) : nat := length (routeOfTrip d).

Definition isTrip (d : Data) (trip : nat) : bool :=
  bool_decide (trip < numberOfTrips d)%nat.

Definition numberOfStopsInTrip (d : Data) (trip : nat) : Z :=
  default 0 (stopsOfTrip d !! trip).

(** The id range [[first, last)] of the route of [trip]. *)
Definition route_range (d : Data) (trip : nat) : option (nat * nat) :=
  r ← routeOfTrip d !! trip;
  first ← firstTripOfRoute d !! r;
  last ← firstTripOfRoute d !! S r;
  Some (first, last).

(** [trip] lies in the range of its route, the range lies inside the trip
    ids, and every trip of the range has the route and stop count of [trip]. *)
Definition trip_wf (d : Data) (trip : nat) : Prop :=
  match route_range d trip with
  | Some (first, last) =>
      (first ≤ trip < last)%nat ∧ (last ≤ numberOfTrips d)%nat ∧
      Forall (λ t, routeOfTrip d !! t = routeOfTrip d !! trip ∧
                   numberOfStopsInTrip d t = numberOfStopsInTrip d trip)
             (seq first (last - first))
  | None => False
  end.

Definition Data_wf (d : Data) : Prop :=
  length (stopsOfTrip d) = numberOfTrips d ∧
  Forall (trip_wf d) (seq 0 (numberOfTrips d)).

(** Every stop count is a position a label byte can hold. *)
Definition stops_fit (d : Data) : Prop := Forall (in_range 8) (stopsOfTrip d).

#[export] Instance trip_wf_dec d trip : Decision (trip_wf d trip).
Proof. unfold trip_wf. destruct (route_range d trip) as [[??]|]; apply _. Defined.

#[export] Instance Data_wf_dec d : Decision (Data_wf d).
Proof. unfold Data_wf. apply _. Defined.

#[export] Instance stops_fit_dec d : Decision (stops_fit d).
Proof. unfold stops_fit. apply _. Defined.

(** ** Consequences of well-formedness *)

Section timetable.
Context (d : Data) (Hwf : Data_wf d).

Lemma isTrip_true trip : isTrip d trip = true ↔ (trip < numberOfTrips d)%nat.
Proof. unfold isTrip. apply bool_decide_eq_true. Qed.

Lemma trip_wf_of_isTrip trip : isTrip d trip = true → trip_wf d trip.
Proof.
  rewrite isTrip_true. intros Ht. destruct Hwf as [_ Hall].
  rewrite Forall_lookup in Hall. apply (Hall trip). by apply lookup_seq_lt.
Qed.

(** The three vector reads of the loop bound of [update] succeed and give
    the end of the route of [trip]. *)
Lemma route_range_of_isTrip trip :
  isTrip d trip = true →
  ∃ r first last,
    routeOfTrip d !! trip = Some r ∧
    firstTripOfRoute d !! r = Some first ∧
    firstTripOfRoute d !! S r = Some last ∧
    route_range d trip = Some (first, last) ∧
    (first ≤ trip < last)%nat ∧ (last ≤ numberOfTrips d)%nat.
Proof.
  intros Ht%trip_wf_of_isTrip. unfold trip_wf in Ht.
  destruct (route_range d trip) as [[first last]|] eqn:Hrr; [|done].
  exists (default 0%nat (routeOfTrip d !! trip)), first, last.
  unfold route_range in Hrr.
  destruct (routeOfTrip d !! trip) as [r|] eqn:Hr; simpl in *; [|done].
  destruct (firstTripOfRoute d !! r) as [a|] eqn:Hf; simpl in *; [|done].
  destruct (firstTripOfRoute d !! S r) as [b|] eqn:Hl; simpl in *; [|done].
  destruct Ht as (? & ? & _). by simplify_eq.
Qed.

(** Trips in the range of one route have its route id and stop count. *)
Lemma route_range_uniform trip first last t :
  route_range d trip = Some (first, last) →
  (trip < numberOfTrips d)%nat → (first ≤ t < last)%nat →
  routeOfTrip d !! t = routeOfTrip d !! trip ∧
  numberOfStopsInTrip d t = numberOfStopsInTrip d trip.
Proof.
  intros Hr Ht Hin. assert (Hw : trip_wf d trip).
  { apply trip_wf_of_isTrip. by apply isTrip_true. }
  unfold trip_wf in Hw. rewrite Hr in Hw. destruct Hw as (_ & _ & Hall).
  rewrite Forall_lookup in Hall. apply (Hall (t - first)%nat).
  rewrite lookup_seq_lt by lia. f_equal. lia.
Qed.

Lemma route_range_same trip first last t :
  route_range d trip = Some (first, last) →
  (trip < numberOfTrips d)%nat → (first ≤ t < last)%nat →
  route_range d t = Some (first, last).
Proof.
  intros Hr Ht Hin. destruct (route_range_uniform _ _ _ t Hr Ht Hin) as [Heq _].
  unfold route_range in *. by rewrite Heq.
Qed.

End timetable.
