(* ===== verification/Simd128.v ===== *)
(** * The 128-bit vector interface of the reachability index

    [ProfileReachedIndexSIMD] uses four operations on a 128-bit register
    ([simd_set1_u8], [simd_max_u8], [simd_min_u8], [makeMask]) and, through
    the union [ReachedElement], the 16 bytes of the register as an array.
    The class [Simd128] is that signature and [Simd128Laws] what the index
    needs of it; [Simd128Neon] and [Simd128Sse] provide the instances.

    This file also derives, from the laws alone, the bytes of the filter
    that [update] builds and of a label after the filter is applied. *)

From S2P Require Import Prelude.

Local Open Scope Z_scope.

(** The bytes the comment on [makeMask] promises: [0xFF] in bytes
    [0 .. round-2], [0x00] in the rest. *)
Definition mask_bytes (round : Z) : list Z :=
  replicate (Z.to_nat (round - 1)) 255 ++ replicate (Z.to_nat (17 - round)) 0.

(** The bytes of [FILTER]: untouched rounds carry [0xFF], the round of the
    update and every later one carry the position. *)
Definition filter_bytes (position round : Z) : list Z :=
  replicate (Z.to_nat (round - 1)) 255 ++
  replicate (Z.to_nat (17 - round)) position.

(** The bytes of a label after [simd_min_u8] with the filter. *)
Definition relax_bytes (position round : Z) (l : list Z) : list Z :=
  zip_with Z.min l (filter_bytes position round).

Class Simd128 : Type := {
  simd128_t : Type;
  (** the to_bytes a register of this type can hold *)
  simd128_ok : simd128_t → Prop;
  (** the register read through the other member of a union with
      [u_int8_t[16]], as [ReachedElement::values] does *)
  to_bytes : simd128_t → list Z;
  (** the register after those 16 bytes were written *)
  of_bytes : list Z → simd128_t;
  simd_set1_u8 : Z → simd128_t;
  simd_max_u8 : simd128_t → simd128_t → simd128_t;
  simd_min_u8 : simd128_t → simd128_t → simd128_t;
  makeMask : Z → result simd128_t;
  simd128_eq_dec :: EqDecision simd128_t;
  simd128_ok_dec :: ∀ v, Decision (simd128_ok v);
}.

Class Simd128Laws (B : Simd128) : Prop := {
  to_bytes_ok v : simd128_ok v → lanes_ok 16 8 (to_bytes v);
  of_bytes_ok l : lanes_ok 16 8 l → simd128_ok (of_bytes l);
  to_bytes_of_bytes l : lanes_ok 16 8 l → to_bytes (of_bytes l) = l;
  of_bytes_to_bytes v : simd128_ok v → of_bytes (to_bytes v) = v;
  simd_set1_u8_ok x : in_range 8 x → simd128_ok (simd_set1_u8 x);
  to_bytes_set1 x : in_range 8 x → to_bytes (simd_set1_u8 x) = replicate 16 x;
  simd_max_u8_ok a b :
    simd128_ok a → simd128_ok b → simd128_ok (simd_max_u8 a b);
  to_bytes_max a b :
    simd128_ok a → simd128_ok b →
    to_bytes (simd_max_u8 a b) = zip_with Z.max (to_bytes a) (to_bytes b);
  simd_min_u8_ok a b :
    simd128_ok a → simd128_ok b → simd128_ok (simd_min_u8 a b);
  to_bytes_min a b :
    simd128_ok a → simd128_ok b →
    to_bytes (simd_min_u8 a b) = zip_with Z.min (to_bytes a) (to_bytes b);
  makeMask_spec round :
    1 ≤ round ≤ 16 →
    ∃ m, makeMask round = Ok m ∧ simd128_ok m ∧ to_bytes m = mask_bytes round;
}.

(** ** The specification lists *)

Lemma mask_bytes_length round :
  1 ≤ round ≤ 16 → length (mask_bytes round) = 16%nat.
Proof. intros. unfold mask_bytes. rewrite length_app, !length_replicate. lia. Qed.

Lemma mask_bytes_ok round : 1 ≤ round ≤ 16 → lanes_ok 16 8 (mask_bytes round).
Proof.
  split; [by apply mask_bytes_length|].
  apply Forall_app; split; apply Forall_replicate; solve_u.
Qed.

Lemma filter_bytes_length position round :
  1 ≤ round ≤ 16 → length (filter_bytes position round) = 16%nat.
Proof. intros. unfold filter_bytes. rewrite length_app, !length_replicate. lia. Qed.

Lemma filter_bytes_lookup position round (i : nat) :
  1 ≤ round ≤ 16 → (i < 16)%nat →
  filter_bytes position round !! i =
  Some (if decide (Z.of_nat i < round - 1) then 255 else position).
Proof.
  intros Hr Hi. unfold filter_bytes. case_decide.
  - rewrite lookup_app_l by (rewrite length_replicate; lia).
    apply lookup_replicate_2. lia.
  - rewrite lookup_app_r by (rewrite length_replicate; lia).
    apply lookup_replicate_2. rewrite length_replicate. lia.
Qed.

Lemma filter_bytes_max position round :
  1 ≤ round ≤ 16 → in_range 8 position →
  zip_with Z.max (replicate 16 position) (mask_bytes round) =
  filter_bytes position round.
Proof.
  intros Hr Hp. unfold mask_bytes, filter_bytes.
  replace 16%nat with (Z.to_nat (round - 1) + Z.to_nat (17 - round))%nat by lia.
  rewrite replicate_add, zip_with_app by (by rewrite !length_replicate).
  rewrite !zip_with_replicate. do 2 f_equal; solve_u.
Qed.

Lemma filter_bytes_ok position round :
  1 ≤ round ≤ 16 → in_range 8 position →
  lanes_ok 16 8 (filter_bytes position round).
Proof.
  split; [by apply filter_bytes_length|].
  apply Forall_app; split; apply Forall_replicate; solve_u.
Qed.

Lemma relax_bytes_length position round l :
  1 ≤ round ≤ 16 → length l = 16%nat →
  length (relax_bytes position round l) = 16%nat.
Proof.
  intros. unfold relax_bytes.
  rewrite length_zip_with, filter_bytes_length by done. lia.
Qed.

(** Lane [i] of a relaxed label: rounds before [round] keep their byte,
    the others take the minimum with the position. *)
Lemma relax_bytes_lookup position round l (i : nat) x :
  1 ≤ round ≤ 16 → lanes_ok 16 8 l → l !! i = Some x →
  relax_bytes position round l !! i =
  Some (if decide (Z.of_nat i < round - 1) then x else x `min` position).
Proof.
  intros Hr [Hlen Hl] Hx. pose proof (lookup_lt_Some _ _ _ Hx).
  unfold relax_bytes. rewrite lookup_zip_with, Hx. simpl.
  rewrite filter_bytes_lookup by lia. simpl. f_equal.
  case_decide; [|done].
  rewrite Forall_lookup in Hl. specialize (Hl _ _ Hx). solve_u.
Qed.

Lemma relax_bytes_ok position round l :
  1 ≤ round ≤ 16 → in_range 8 position → lanes_ok 16 8 l →
  lanes_ok 16 8 (relax_bytes position round l).
Proof.
  intros Hr Hp Hl. split; [apply relax_bytes_length; [done|apply Hl]|].
  apply Forall_lookup. intros i y Hy.
  destruct (l !! i) as [x|] eqn:Hx.
  - rewrite (relax_bytes_lookup _ _ _ _ x) in Hy by done.
    destruct Hl as [_ Hl]. rewrite Forall_lookup in Hl. specialize (Hl _ _ Hx).
    simplify_eq. case_decide; solve_u.
  - unfold relax_bytes in Hy. rewrite lookup_zip_with, Hx in Hy. done.
Qed.

Lemma relax_bytes_lookup_inv position round l (i : nat) v :
  1 ≤ round ≤ 16 → lanes_ok 16 8 l →
  relax_bytes position round l !! i = Some v →
  ∃ x, l !! i = Some x ∧
       v = if decide (Z.of_nat i < round - 1) then x else x `min` position.
Proof.
  intros Hr Hl Hv. destruct (l !! i) as [x|] eqn:Hx.
  - rewrite (relax_bytes_lookup _ _ _ _ x) in Hv by done. exists x. by simplify_eq.
  - unfold relax_bytes in Hv. by rewrite lookup_zip_with, Hx in Hv.
Qed.

(** *** The filter and the order on positions *)

Section relax_order.
Context (position round : Z) (Hround : 1 ≤ round ≤ 16).
Implicit Types (l : list Z).

Local Abbreviation relax := (relax_bytes position round).

(** The filter only lowers. *)
Lemma relax_bytes_le l : lanes_ok 16 8 l → lanes_le (relax l) l.
Proof.
  intros Hl. apply lanes_le_lookup.
  split; [rewrite relax_bytes_length; [by destruct Hl|done|by destruct Hl]|].
  intros i y x (x' & Hx' & ->)%relax_bytes_lookup_inv Hx; [|done..].
  simplify_eq. case_decide; lia.
Qed.

(** It is monotone in the label. *)
Lemma relax_bytes_mono l' l :
  lanes_ok 16 8 l' → lanes_ok 16 8 l → lanes_le l' l → lanes_le (relax l') (relax l).
Proof.
  intros Hl' Hl [_ Hle]%lanes_le_lookup. apply lanes_le_lookup.
  split; [rewrite !relax_bytes_length; [done|done|by destruct Hl|done|by destruct Hl']|].
  intros i y x (y' & Hy' & ->)%relax_bytes_lookup_inv
    (x' & Hx' & ->)%relax_bytes_lookup_inv; [|done..].
  specialize (Hle _ _ _ Hy' Hx'). case_decide; lia.
Qed.

(** It keeps the positions falling with the round. *)
Lemma relax_bytes_descending l :
  lanes_ok 16 8 l → descending l → descending (relax l).
Proof.
  intros Hl Hd. apply descending_lookup.
  intros i j x y Hij (x' & Hx' & ->)%relax_bytes_lookup_inv
    (y' & Hy' & ->)%relax_bytes_lookup_inv; [|done..].
  pose proof (descending_lookup_le l i j _ _ Hd ltac:(lia) Hx' Hy').
  do 2 case_decide; lia.
Qed.

(** A label that is already as good at [round], and falling, is below
    every relaxed label it was below ... *)
Lemma relax_bytes_above l' l q :
  lanes_ok 16 8 l → descending l' → lanes_le l' l →
  l' !! Z.to_nat (round - 1) = Some q → q ≤ position →
  lanes_le l' (relax l).
Proof.
  intros Hl Hd [Hlen Hle]%lanes_le_lookup Hq Hqp. apply lanes_le_lookup.
  split; [rewrite relax_bytes_length by (done || apply Hl); destruct Hl; congruence|].
  intros i y x Hy (x' & Hx' & ->)%relax_bytes_lookup_inv; [|done..].
  specialize (Hle _ _ _ Hy Hx'). case_decide; [done|].
  pose proof (descending_lookup_le l' (Z.to_nat (round - 1)) i _ _ Hd ltac:(lia) Hq Hy).
  lia.
Qed.

(** ... and the filter does not change it. *)
Lemma relax_bytes_id l q :
  lanes_ok 16 8 l → descending l →
  l !! Z.to_nat (round - 1) = Some q → q ≤ position →
  relax l = l.
Proof.
  intros Hl Hd Hq Hqp. lanes_ext 16%nat i.
  - by destruct Hl.
  - apply relax_bytes_length; [done|by destruct Hl].
  - apply relax_bytes_lookup_inv in Hx as (x' & Hx' & ->); [|done..].
    simplify_eq. case_decide; [done|].
    pose proof (descending_lookup_le l (Z.to_nat (round - 1)) i _ _ Hd ltac:(lia) Hq Hx').
    lia.
Qed.

End relax_order.

(** ** Consequences of the laws *)

Section laws.
Context {B : Simd128} {BL : Simd128Laws B}.

Lemma to_bytes_length v : simd128_ok v → length (to_bytes v) = 16%nat.
Proof. intros Hv. by destruct (to_bytes_ok v Hv). Qed.

Lemma to_bytes_lookup_range v (i : nat) x :
  simd128_ok v → to_bytes v !! i = Some x → in_range 8 x ∧ (i < 16)%nat.
Proof.
  intros Hv Hx. destruct (to_bytes_ok v Hv) as [Hlen Hall]. split.
  - by eapply Forall_lookup_1.
  - apply lookup_lt_Some in Hx. lia.
Qed.

Lemma to_bytes_inj v w :
  simd128_ok v → simd128_ok w → to_bytes v = to_bytes w → v = w.
Proof.
  intros Hv Hw Heq. rewrite <- (of_bytes_to_bytes v), <- (of_bytes_to_bytes w) by done.
  by rewrite Heq.
Qed.

(** The filter of [update]: the broadcast position under the mask. *)
Lemma to_bytes_filter position round m :
  1 ≤ round ≤ 16 → in_range 8 position →
  makeMask round = Ok m →
  simd128_ok (simd_max_u8 (simd_set1_u8 position) m) ∧
  to_bytes (simd_max_u8 (simd_set1_u8 position) m) = filter_bytes position round.
Proof.
  intros Hr Hp Hm. destruct (makeMask_spec round Hr) as (m' & Hm' & Hok & Hv).
  assert (m' = m) as -> by congruence.
  pose proof (simd_set1_u8_ok position Hp). split.
  - by apply simd_max_u8_ok.
  - rewrite to_bytes_max, to_bytes_set1, Hv by done. by apply filter_bytes_max.
Qed.

(** One iteration's store: the label under the filter. *)
Lemma to_bytes_relax position round m v :
  1 ≤ round ≤ 16 → in_range 8 position →
  makeMask round = Ok m → simd128_ok v →
  simd128_ok (simd_min_u8 v (simd_max_u8 (simd_set1_u8 position) m)) ∧
  to_bytes (simd_min_u8 v (simd_max_u8 (simd_set1_u8 position) m)) =
  relax_bytes position round (to_bytes v).
Proof.
  intros Hr Hp Hm Hv. destruct (to_bytes_filter position round m) as [Hok Hf]; [done..|].
  split; [by apply simd_min_u8_ok|]. by rewrite to_bytes_min, Hf.
Qed.

End laws.
