(* ===== verification/Simd128Neon.v ===== *)
(** * The ARM NEON backend of the reachability index

    Lines 47-61 of src/unnamed/part_000: [simd128_t] is [uint8x16_t], the
    three wrappers call [vdupq_n_u8], [vmaxq_u8] and [vminq_u8], and
    [makeMask] fills a zeroed 16-byte buffer in a loop and loads it.

    A [uint8x16_t] is the list of its 16 byte lanes, lane 0 first, which is
    also the order of the bytes in memory. *)

From S2P Require Import Prelude Simd128.

Local Open Scope Z_scope.

(** ** The intrinsics, from the instruction descriptions *)

Definition uint8x16_t : Type := list Z.

(** [DUP Vd.16B, rn]: every lane receives the scalar. *)
Definition vdupq_n_u8 (val : Z) : uint8x16_t := replicate 16 val.

(** [UMAX Vd.16B, Vn.16B, Vm.16B]: lane-wise unsigned maximum. *)
Definition vmaxq_u8 (a b : uint8x16_t) : uint8x16_t := zip_with Z.max a b.

(** [UMIN Vd.16B, Vn.16B, Vm.16B]: lane-wise unsigned minimum. *)
Definition vminq_u8 (a b : uint8x16_t) : uint8x16_t := zip_with Z.min a b.

(** [LD1 {Vt.16B}, [ptr]]: the 16 bytes at [ptr]. *)
Definition vld1q_u8 (buf : list Z) : uint8x16_t := take 16 buf.

(** ** The source's definitions *)

Definition simd128_neon : Type := uint8x16_t.

Definition simd_set1_u8_neon (val : Z) : simd128_neon := vdupq_n_u8 val.

Definition simd_max_u8_neon (a b : simd128_neon) : simd128_neon := vmaxq_u8 a b.

Definition simd_min_u8_neon (a b : simd128_neon) : simd128_neon := vminq_u8 a b.

(** The [for] of [makeMask]: [i] runs while [i < round - 1 && i < 16] and
    the body stores [0xFF] at [buf[i]]. *)
Fixpoint makeMask_loop (fuel : nat) (round i : Z) (buf : list Z) : list Z :=
  match fuel with
  | O => buf
  | S fuel =>
      if bool_decide (i < round - 1) && bool_decide (i < 16)
      then makeMask_loop fuel round (i + 1) (<[Z.to_nat i := 0xFF]> buf)
      else buf
  end.

Definition makeMask_neon (round : Z) : simd128_neon :=
  let buf := replicate 16 0 in
  vld1q_u8 (makeMask_loop 16 round 0 buf).

(** The union [ReachedElement] on this backend: register lanes and array
    elements coincide. *)
Definition to_bytes_neon (v : simd128_neon) : list Z := v.

Definition of_bytes_neon (l : list Z) : simd128_neon := l.

#[export] Instance neon_backend : Simd128 := {|
  simd128_t := simd128_neon;
  simd128_ok := lanes_ok 16 8;
  to_bytes := to_bytes_neon;
  of_bytes := of_bytes_neon;
  simd_set1_u8 := simd_set1_u8_neon;
  simd_max_u8 := simd_max_u8_neon;
  simd_min_u8 := simd_min_u8_neon;
  makeMask := λ round, Ok (makeMask_neon round);
  simd128_eq_dec := _;
  simd128_ok_dec := _;
|}.

(** ** The loop of [makeMask] *)

(** The number of bytes the loop sets, for any [round]. *)
Definition mask_count (round : Z) : nat := Z.to_nat (Z.min (round - 1) 16).

Lemma makeMask_loop_length fuel round i buf :
  length (makeMask_loop fuel round i buf) = length buf.
Proof.
  revert i buf. induction fuel as [|fuel IH]; intros i buf; simpl; [done|].
  case_match; [|done]. by rewrite IH, length_insert.
Qed.

(** What the loop leaves in [buf] when started at [i] with enough fuel to
    reach 16: bytes [i .. min (round-1) 16 - 1] are [0xFF], the others are
    as they were. *)
Lemma makeMask_loop_lookup fuel round i buf (j : nat) :
  0 ≤ i → (16 ≤ Z.of_nat fuel + i) → length buf = 16%nat →
  makeMask_loop fuel round i buf !! j =
  if decide (i ≤ Z.of_nat j < Z.min (round - 1) 16) then Some 255 else buf !! j.
Proof.
  revert i buf. induction fuel as [|fuel IH]; intros i buf Hi Hfuel Hlen; simpl.
  { case_decide; [lia|done]. }
  destruct (bool_decide (i < round - 1) && bool_decide (i < 16)) eqn:Hc.
  - apply andb_prop in Hc as [?%bool_decide_eq_true ?%bool_decide_eq_true].
    rewrite IH by (rewrite ?length_insert; lia).
    destruct (decide (Z.to_nat i = j)) as [<-|Hne].
    + rewrite decide_False by lia. rewrite list_lookup_insert_eq by lia.
      by rewrite decide_True by lia.
    + rewrite list_lookup_insert_ne by done.
      clear IH. do 2 destruct (decide _); (done || (exfalso; lia)).
  - apply andb_false_iff in Hc as [?%bool_decide_eq_false|?%bool_decide_eq_false];
      destruct (decide _); (done || (exfalso; lia)).
Qed.

(** The loop needs no more than 16 iterations: more fuel changes nothing. *)
Lemma makeMask_loop_fuel fuel round buf :
  (16 ≤ fuel)%nat → length buf = 16%nat →
  makeMask_loop fuel round 0 buf = makeMask_loop 16 round 0 buf.
Proof.
  intros Hf Hlen. lanes_ext 16%nat j; [by rewrite makeMask_loop_length..|].
  rewrite makeMask_loop_lookup in Hx by lia.
  rewrite makeMask_loop_lookup in Hy by lia. congruence.
Qed.

(** For every [round], the NEON [makeMask] returns [0xFF] in the first
    [min (round - 1) 16] bytes (none when [round] is 0 or 1) and [0x00] in
    the remaining ones; in particular the 16 iterations of fuel are enough. *)
Theorem makeMask_neon_unfold round :
  makeMask_neon round =
  replicate (mask_count round) 255 ++ replicate (16 - mask_count round) 0.
Proof.
  unfold makeMask_neon, vld1q_u8, mask_count.
  rewrite take_ge by (rewrite makeMask_loop_length, length_replicate; lia).
  lanes_ext 16%nat j.
  - rewrite length_app, !length_replicate. lia.
  - by rewrite makeMask_loop_length, length_replicate.
  - rewrite makeMask_loop_lookup in Hx by (rewrite ?length_replicate; lia).
    case_decide.
    + rewrite lookup_app_l in Hy by (rewrite length_replicate; lia).
      apply lookup_replicate in Hy. naive_solver.
    + rewrite lookup_app_r in Hy by (rewrite length_replicate; lia).
      apply lookup_replicate in Hx, Hy. naive_solver.
Qed.

Lemma makeMask_neon_mask_bytes round :
  1 ≤ round ≤ 16 → makeMask_neon round = mask_bytes round.
Proof.
  intros Hr. rewrite makeMask_neon_unfold. unfold mask_bytes, mask_count.
  f_equal; f_equal; lia.
Qed.

Lemma makeMask_neon_ok round : lanes_ok 16 8 (makeMask_neon round).
Proof.
  rewrite makeMask_neon_unfold. unfold mask_count. split.
  - rewrite length_app, !length_replicate. lia.
  - apply Forall_app; split; apply Forall_replicate; solve_u.
Qed.

(** ** The backend satisfies the interface *)

#[export] Instance neon_laws : Simd128Laws neon_backend.
Proof.
  split; simpl; unfold to_bytes_neon, of_bytes_neon, simd_set1_u8_neon,
    simd_max_u8_neon, simd_min_u8_neon, vdupq_n_u8, vmaxq_u8, vminq_u8;
    try done; auto with simd.
  intros round Hr. exists (makeMask_neon round).
  split_and!; [done|apply makeMask_neon_ok|by apply makeMask_neon_mask_bytes].
Qed.
