(* ===== verification/Simd128Sse.v ===== *)
(** * The x86 SSE2 backend of the reachability index

    Lines 63-104 of src/unnamed/part_000: [simd128_t] is [__m128i], the
    three wrappers call [_mm_set1_epi8], [_mm_max_epu8] and [_mm_min_epu8],
    and [makeMask] reads the constant table [MAX_MASKS].

    An [__m128i] is a vector of two [long long]; that is how the braces of
    [MAX_MASKS] initialise it, two literals per element, low half first.
    The model keeps both halves as signed 64-bit integers and obtains the
    byte view of the union [ReachedElement] by little-endian splitting. *)

From S2P Require Import Prelude Simd128.

Local Open Scope Z_scope.

(** ** The register type and the union's byte view *)

Record m128i : Type := M128i { q0 : Z; q1 : Z }.

Definition int64_ok (z : Z) : Prop := - 2 ^ 63 ≤ z < 2 ^ 63.

Definition m128i_ok (v : m128i) : Prop := int64_ok (q0 v) ∧ int64_ok (q1 v).

#[export] Instance m128i_eq_dec : EqDecision m128i.
Proof. solve_decision. Defined.

#[export] Instance m128i_ok_dec v : Decision (m128i_ok v).
Proof. unfold m128i_ok, int64_ok. apply _. Defined.

Definition to_bytes_sse (v : m128i) : list Z :=
  le_split 8 (q0 v) ++ le_split 8 (q1 v).

Definition of_bytes_sse (l : list Z) : m128i :=
  M128i (signed 64 (le_combine (take 8 l))) (signed 64 (le_combine (drop 8 l))).

(** ** The intrinsics, from the instruction descriptions *)

(** [_mm_set1_epi8(a)]: the low 8 bits of [a] in each of the 16 bytes. *)
Definition _mm_set1_epi8 (a : Z) : m128i :=
  of_bytes_sse (replicate 16 (wrap 8 a)).

(** [PMAXUB]: byte-wise unsigned maximum. *)
Definition _mm_max_epu8 (a b : m128i) : m128i :=
  of_bytes_sse (zip_with Z.max (to_bytes_sse a) (to_bytes_sse b)).

(** [PMINUB]: byte-wise unsigned minimum. *)
Definition _mm_min_epu8 (a b : m128i) : m128i :=
  of_bytes_sse (zip_with Z.min (to_bytes_sse a) (to_bytes_sse b)).

(** ** The source's definitions *)

Definition simd128_sse : Type := m128i.

(** [static_cast<char>(val)] reinterprets the byte as signed. *)
Definition simd_set1_u8_sse (val : Z) : simd128_sse :=
  _mm_set1_epi8 (signed 8 val).

Definition simd_max_u8_sse (a b : simd128_sse) : simd128_sse := _mm_max_epu8 a b.

Definition simd_min_u8_sse (a b : simd128_sse) : simd128_sse := _mm_min_epu8 a b.

(** The table, literal for literal. *)
Definition MAX_MASKS : list m128i := [
  M128i 0x0000000000000000 0x0000000000000000;
  M128i 0x00000000000000FF 0x0000000000000000;
  M128i 0x000000000000FFFF 0x0000000000000000;
  M128i 0x0000000000FFFFFF 0x0000000000000000;
  M128i 0x00000000FFFFFFFF 0x0000000000000000;
  M128i 0x000000FFFFFFFFFF 0x0000000000000000;
  M128i 0x0000FFFFFFFFFFFF 0x0000000000000000;
  M128i 0x00FFFFFFFFFFFFFF 0x0000000000000000;
  M128i (-1) 0x0000000000000000;
  M128i (-1) 0x00000000000000FF;
  M128i (-1) 0x000000000000FFFF;
  M128i (-1) 0x0000000000FFFFFF;
  M128i (-1) 0x00000000FFFFFFFF;
  M128i (-1) 0x000000FFFFFFFFFF;
  M128i (-1) 0x0000FFFFFFFFFFFF;
  M128i (-1) 0x00FFFFFFFFFFFFFF
].

(** [MAX_MASKS[round - 1]]: outside the table the read is undefined. *)
Definition makeMask_sse (round : Z) : result simd128_sse :=
  index MAX_MASKS (round - 1).

#[export] Instance sse_backend : Simd128 := {|
  simd128_t := simd128_sse;
  simd128_ok := m128i_ok;
  to_bytes := to_bytes_sse;
  of_bytes := of_bytes_sse;
  simd_set1_u8 := simd_set1_u8_sse;
  simd_max_u8 := simd_max_u8_sse;
  simd_min_u8 := simd_min_u8_sse;
  makeMask := makeMask_sse;
  simd128_eq_dec := _;
  simd128_ok_dec := _;
|}.

(** ** The byte view *)

Lemma m128i_eq v w : q0 v = q0 w → q1 v = q1 w → v = w.
Proof. destruct v, w; simpl; congruence. Qed.

Lemma to_bytes_sse_ok v : lanes_ok 16 8 (to_bytes_sse v).
Proof.
  unfold to_bytes_sse. destruct (le_split_ok 8 (q0 v)), (le_split_ok 8 (q1 v)).
  split; [rewrite length_app; lia|by apply Forall_app].
Qed.

Lemma of_bytes_sse_ok l : m128i_ok (of_bytes_sse l).
Proof. split; simpl; apply (signed_range 64); lia. Qed.

Lemma le_split_signed64 z : le_split 8 (signed 64 z) = le_split 8 z.
Proof.
  rewrite <- (le_split_wrap 8 64 (signed 64 z)), signed_wrap by lia.
  apply le_split_wrap. lia.
Qed.

Lemma to_bytes_of_bytes_sse l : lanes_ok 16 8 l → to_bytes_sse (of_bytes_sse l) = l.
Proof.
  intros [Hlen Hl]. unfold to_bytes_sse, of_bytes_sse. cbn [q0 q1].
  rewrite !le_split_signed64.
  rewrite <- (take_drop 8 l) in Hl. apply Forall_app in Hl as [Ht Hd].
  rewrite <- (take_drop 8 l) at 3. f_equal.
  - rewrite <- (le_split_combine (take 8 l)) at 2 by done.
    f_equal. rewrite length_take. lia.
  - rewrite <- (le_split_combine (drop 8 l)) at 2 by done.
    f_equal. rewrite length_drop. lia.
Qed.

Lemma signed64_combine_split z :
  int64_ok z → signed 64 (le_combine (le_split 8 z)) = z.
Proof.
  intros Hz. rewrite le_combine_split. change (8 * Z.of_nat 8) with 64.
  unfold signed at 1. rewrite wrap_wrap_le by lia.
  fold (signed 64 z). apply signed_small; [lia|done].
Qed.

Lemma of_bytes_to_bytes_sse v : m128i_ok v → of_bytes_sse (to_bytes_sse v) = v.
Proof.
  intros [H0 H1]. unfold of_bytes_sse, to_bytes_sse.
  rewrite take_app_length' by (by rewrite length_le_split).
  rewrite drop_app_length' by (by rewrite length_le_split).
  apply m128i_eq; simpl; by apply signed64_combine_split.
Qed.

(** ** The table *)

(** Entry [round - 1] of the table holds the bytes the comment on the NEON
    [makeMask] describes: the two backends agree on rounds 1 to 16. *)
Lemma makeMask_sse_spec round :
  1 ≤ round ≤ 16 →
  ∃ m, makeMask_sse round = Ok m ∧ m128i_ok m ∧ to_bytes_sse m = mask_bytes round.
Proof.
  intros Hr. apply ok_with_iff.
  pose (P := λ r, ok_with (λ m, m128i_ok m ∧ to_bytes_sse m = mask_bytes r)
                    (makeMask_sse r)).
  apply (forall_range P 1 17); [vm_compute; reflexivity|lia].
Qed.

(** ** The operations, byte by byte *)

Lemma to_bytes_set1_sse x :
  in_range 8 x → to_bytes_sse (simd_set1_u8_sse x) = replicate 16 x.
Proof.
  intros Hx. unfold simd_set1_u8_sse, _mm_set1_epi8.
  rewrite to_bytes_of_bytes_sse by auto with simd.
  by rewrite signed_wrap, wrap_small by (lia || done).
Qed.

Lemma to_bytes_max_sse a b :
  to_bytes_sse (simd_max_u8_sse a b) = zip_with Z.max (to_bytes_sse a) (to_bytes_sse b).
Proof. apply to_bytes_of_bytes_sse. auto using to_bytes_sse_ok with simd. Qed.

Lemma to_bytes_min_sse a b :
  to_bytes_sse (simd_min_u8_sse a b) = zip_with Z.min (to_bytes_sse a) (to_bytes_sse b).
Proof. apply to_bytes_of_bytes_sse. auto using to_bytes_sse_ok with simd. Qed.

(** ** The backend satisfies the interface *)

#[export] Instance sse_laws : Simd128Laws sse_backend.
Proof.
  split; intros.
  - apply to_bytes_sse_ok.
  - apply of_bytes_sse_ok.
  - by apply to_bytes_of_bytes_sse.
  - by apply of_bytes_to_bytes_sse.
  - apply of_bytes_sse_ok.
  - by apply to_bytes_set1_sse.
  - apply of_bytes_sse_ok.
  - apply to_bytes_max_sse.
  - apply of_bytes_sse_ok.
  - apply to_bytes_min_sse.
  - by apply makeMask_sse_spec.
Qed.
