(* ===== verification/Simd128Agree.v ===== *)
(** * The two backends of the 128-bit helpers, side by side

    Only one of the two backends is compiled into a build.  Inside the
    contract of the index (rounds 1 to 16 for [makeMask]) they compute the
    same bytes; this file states that for [makeMask], where the two
    definitions share nothing (a loop on ARM, a table on x86), and shows
    where they part: the loop is defined for every byte, the table only
    for the rounds it has an entry for. *)

From S2P Require Import Prelude Simd128 Simd128Neon Simd128Sse.

Local Open Scope Z_scope.
Local Open Scope result_scope.

(** The bytes of the mask a backend builds for [round], or its failure. *)
Definition mask_of (B : Simd128) (round : Z) : result (list Z) :=
  do m <- @makeMask B round; Ok (to_bytes m).

(** C27: the table of the x86 path and the loop of the ARM path build the
    same sixteen bytes for every round from 1 to 16; for round 0 and for
    the rounds from 17 to 255 the loop still returns a mask (empty and full
    respectively) while the table is read outside its sixteen entries. *)
Theorem makeMask_backends round :
  in_range 8 round →
  mask_of neon_backend round = Ok (mask_bytes ((round `max` 1) `min` 17)) ∧
  mask_of sse_backend round =
  if decide (1 ≤ round ≤ 16) then Ok (mask_bytes round) else Err OutOfBounds.
Proof.
  intros Hr.
  pose (P := λ r, mask_of neon_backend r = Ok (mask_bytes ((r `max` 1) `min` 17)) ∧
                  mask_of sse_backend r =
                  if decide (1 ≤ r ≤ 16) then Ok (mask_bytes r) else Err OutOfBounds).
  apply (forall_range P 0 256); [vm_compute; reflexivity|done].
Qed.

Lemma makeMask_backends_witness :
  mask_of neon_backend 16 = Ok (mask_bytes ((16 `max` 1) `min` 17)) ∧
  mask_of sse_backend 16 =
  if decide (1 ≤ 16 ≤ 16) then Ok (mask_bytes 16) else Err OutOfBounds.
Proof. apply makeMask_backends. by_compute. Defined.
