(* ===== verification/AlignedAllocator.v ===== *)
(** * aligned_allocator

    src/ExternalLibs/aligned_allocator.h: the allocator behind the two
    label vectors of the index.  [allocate] checks the element count
    against [max_size], computes the byte size and its round-up to a
    multiple of the alignment in [std::size_t] arithmetic, and asks the
    platform for memory: [std::aligned_alloc] with the rounded size on ARM,
    [_mm_malloc] with the unrounded size elsewhere.  [deallocate] hands the
    pointer to the matching release function.

    [std::size_t] is taken 64 bits wide ([SIZE_BITS]), as on x86-64 and
    aarch64; the 32-bit [__arm__] target that the ARM branch also covers
    is outside the model, and the theorems on the size arithmetic are
    statements about a 64-bit [size_t].  Sizes and addresses are [Z] with
    the wrap-around written out.  The platform allocator is not part of the
    repository: it appears as the interface [PlatformHeap], whose laws say
    what a successful request returns, and the theorems about [allocate]
    and [deallocate] are proved against that interface: the laws are
    assumptions about the platform, not code of the repository.  A bump
    allocator implements it for the concrete instances; it answers a
    request for zero bytes with a block, which [std::aligned_alloc] may or
    may not do. *)

From S2P Require Import Prelude.

Local Open Scope Z_scope.
Local Open Scope result_scope.

(** ** The platform *)

Inductive platform : Type := ARM | X86.

#[export] Instance platform_eq_dec : EqDecision platform.
Proof. solve_decision. Defined.

(** The width of [std::size_t]. *)
Definition SIZE_BITS : Z := 64.

Definition NULL : Z := 0.

(** The heap of the platform: live blocks as (address, size), a request
    for an aligned block, and the release of a block by its address. *)
Class PlatformHeap : Type := {
  heap : Type;
  heap_ok : heap → Prop;
  live : heap → list (Z * Z);
  (** [std::aligned_alloc(alignment, size)] *)
  aligned_alloc : heap → Z → Z → Z * heap;
  (** [_mm_malloc(size, align)] *)
  _mm_malloc : heap → Z → Z → Z * heap;
  (** [std::free(p)] *)
  free : heap → Z → result heap;
  (** [_mm_free(p)] *)
  _mm_free : heap → Z → result heap;
  heap_ok_dec :: ∀ h, Decision (heap_ok h);
}.

(** What a request promises: a null result leaves the heap alone; any
    other result is a fresh, aligned block of the requested size inside the
    address space. *)
Definition alloc_contract `{PlatformHeap} (f : heap → Z → Z → Z * heap) : Prop :=
  ∀ h alignment size p h',
    heap_ok h → 0 < alignment → 0 ≤ size → f h alignment size = (p, h') →
    if decide (p = NULL) then h' = h
    else (alignment | p) ∧ 0 < p ∧ p + size ≤ 2 ^ SIZE_BITS ∧
         (p ∉ (live h).*1) ∧ live h' = (p, size) :: live h ∧ heap_ok h'.

(** What a release promises: null is accepted and ignored, the address of
    a live block removes that block and no other. *)
Definition free_contract `{PlatformHeap} (f : heap → Z → result heap) : Prop :=
  ∀ h p, heap_ok h →
    (p = NULL → f h p = Ok h) ∧
    (p ≠ NULL → p ∈ (live h).*1 →
     ∃ h', f h p = Ok h' ∧ heap_ok h' ∧
           live h' = filter (λ b, b.1 ≠ p) (live h)).

Class PlatformHeapLaws (H : PlatformHeap) : Prop := {
  aligned_alloc_contract : alloc_contract aligned_alloc;
  _mm_malloc_contract : alloc_contract (λ h alignment size, _mm_malloc h size alignment);
  free_free_contract : free_contract free;
  _mm_free_contract : free_contract _mm_free;
}.

(** ** The allocator *)

Section aligned_allocator.
Context `{H : PlatformHeap}.
(** The template parameters: [sizeof(T)] and [Alignment]. *)
Context (sizeof_T Alignment : Z).

Definition max_size : Z :=
  wrap SIZE_BITS (0 - 1) / sizeof_T.

Definition operator_eq : bool := true.

Definition operator_ne : bool := negb operator_eq.

(** [n * sizeof(T)] in [std::size_t]. *)
Definition total (n : Z) : Z := wrap SIZE_BITS (n * sizeof_T).

(** [(total + Alignment - 1) & ~(Alignment - 1)] in [std::size_t]. *)
Definition aligned_total (n : Z) : Z :=
  Z.land (wrap SIZE_BITS (wrap SIZE_BITS (total n + Alignment) - 1))
         (wrap SIZE_BITS (Z.lnot (wrap SIZE_BITS (Alignment - 1)))).

(** The request to the platform, by the branch of the [#if]. *)
Definition platform_request (pf : platform) (h : heap) (n : Z) : Z * heap :=
  match pf with
  | ARM => aligned_alloc h Alignment (aligned_total n)
  | X86 => _mm_malloc h (total n) Alignment
  end.

Definition allocate (pf : platform) (h : heap) (n : Z) : result (Z * heap) :=
  if decide (n = 0) then Ok (NULL, h)
  else if decide (max_size < n) then Err LengthError
  else
    let '(pv, h') := platform_request pf h n in
    if decide (pv = NULL) then Err BadAlloc else Ok (pv, h').

Definition deallocate (pf : platform) (h : heap) (p n : Z) : result heap :=
  match pf with
  | ARM => free h p
  | X86 => _mm_free h p
  end.

(** The allocation with a hint ignores the hint. *)
Definition allocate_hint (pf : platform) (h : heap) (n hint : Z) :
  result (Z * heap) :=
  allocate pf h n.

(** The number of bytes [allocate] asks the platform for. *)
Definition requested (pf : platform) (n : Z) : Z :=
  match pf with ARM => aligned_total n | X86 => total n end.

End aligned_allocator.

(** An alignment the allocator is instantiated with: a power of two that a
    [std::size_t] holds. *)
Definition alignment_ok (a : Z) : Prop :=
  0 < a < 2 ^ SIZE_BITS ∧ a = 2 ^ Z.log2 a.

#[export] Instance alignment_ok_dec a : Decision (alignment_ok a).
Proof. unfold alignment_ok. apply _. Defined.

(** ** A bump allocator as platform *)

Record bump : Type := Bump { brk : Z; limit : Z; blocks : list (Z * Z) }.

Definition round_up (x a : Z) : Z := (x + a - 1) / a * a.

Definition bump_ok (h : bump) : Prop :=
  0 < brk h ∧ limit h ≤ 2 ^ SIZE_BITS ∧
  Forall (λ b, 0 < b.1 ∧ b.1 < brk h) (blocks h).

Definition bump_alloc (h : bump) (alignment size : Z) : Z * bump :=
  let p := round_up (brk h) alignment in
  if decide (p + size ≤ limit h)
  then (p, Bump (p + size + 1) (limit h) ((p, size) :: blocks h))
  else (NULL, h).

Definition bump_free (h : bump) (p : Z) : result bump :=
  if decide (p = NULL) then Ok h
  else if decide (p ∈ (blocks h).*1)
       then Ok (Bump (brk h) (limit h) (filter (λ b, b.1 ≠ p) (blocks h)))
       else Err OutOfBounds.

#[export] Instance bump_ok_dec h : Decision (bump_ok h).
Proof. unfold bump_ok. apply _. Defined.

#[export] Instance bump_heap : PlatformHeap := {|
  heap := bump;
  heap_ok := bump_ok;
  live := blocks;
  aligned_alloc := bump_alloc;
  _mm_malloc h size alignment := bump_alloc h alignment size;
  free := bump_free;
  _mm_free := bump_free;
  heap_ok_dec := _;
|}.

(** A heap with one live block. *)
Definition heap1 : bump := Bump 100 4096 [(16, 32)].

(** ** Arithmetic of the size computation *)

Lemma wrap_lnot m :
  in_range SIZE_BITS m → wrap SIZE_BITS (Z.lnot m) = 2 ^ SIZE_BITS - 1 - m.
Proof.
  unfold in_range, wrap, Z.lnot, SIZE_BITS. intros Hm.
  symmetry. apply (Z.mod_unique_pos _ _ (-1)); lia.
Qed.

(** Masking with the complement of [2^k - 1] clears the low [k] bits. *)
Lemma land_lnot_ones x k :
  0 ≤ k → in_range SIZE_BITS x →
  Z.land x (wrap SIZE_BITS (Z.lnot (2 ^ k - 1))) = x - x mod 2 ^ k.
Proof.
  intros Hk Hx. replace (2 ^ k - 1) with (Z.ones k) by (rewrite Z.ones_equiv; lia).
  unfold wrap. rewrite <- Z.land_ones by (unfold SIZE_BITS; lia).
  rewrite (Z.land_comm (Z.lnot _)), Z.land_assoc, (Z.land_ones x)
    by (unfold SIZE_BITS; lia).
  fold (wrap SIZE_BITS x). rewrite wrap_small by done.
  rewrite <- Z.ldiff_land, Z.ldiff_ones_r by done.
  rewrite Z.shiftl_mul_pow2, Z.shiftr_div_pow2 by done.
  pose proof (pow2_pos k Hk). rewrite (Z.div_mod x (2 ^ k)) at 2 by lia. lia.
Qed.

Lemma alignment_ok_pow2 a :
  alignment_ok a → ∃ k, 0 ≤ k < SIZE_BITS ∧ a = 2 ^ k.
Proof.
  intros [[Hpos Hlt] Heq]. exists (Z.log2 a). split; [|done].
  split; [apply Z.log2_nonneg|]. apply Z.log2_lt_pow2; [lia|done].
Qed.

Lemma round_up_spec x a :
  0 < a → 0 ≤ x →
  (a | round_up x a) ∧ x ≤ round_up x a < x + a.
Proof.
  intros Ha Hx. unfold round_up. split; [apply Z.divide_factor_r|].
  pose proof (Z.div_mod (x + a - 1) a ltac:(lia)).
  pose proof (Z.mod_pos_bound (x + a - 1) a Ha). lia.
Qed.

Lemma round_up_divide x a : 0 < a → (a | x) → round_up x a = x.
Proof.
  intros Ha [q ->]. unfold round_up.
  replace (q * a + a - 1) with (a - 1 + q * a) by lia.
  rewrite Z.div_add, Z.div_small by lia. lia.
Qed.

Section arithmetic.
Context (sizeof_T Alignment : Z).
Context (Hsize : 0 < sizeof_T) (Halign : alignment_ok Alignment).

Local Abbreviation max_size := (max_size sizeof_T).
Local Abbreviation total := (total sizeof_T).
Local Abbreviation aligned_total := (aligned_total sizeof_T Alignment).

Lemma max_size_spec n : 0 ≤ n → n ≤ max_size ↔ n * sizeof_T < 2 ^ SIZE_BITS.
Proof.
  intros Hn. unfold AlignedAllocator.max_size.
  change (wrap SIZE_BITS (0 - 1)) with (2 ^ SIZE_BITS - 1).
  pose proof (Z.div_mod (2 ^ SIZE_BITS - 1) sizeof_T ltac:(lia)).
  pose proof (Z.mod_pos_bound (2 ^ SIZE_BITS - 1) sizeof_T Hsize). nia.
Qed.

Lemma total_in_range n : in_range SIZE_BITS (total n).
Proof. apply wrap_in_range. done. Qed.

Lemma aligned_total_round n :
  total n + Alignment ≤ 2 ^ SIZE_BITS →
  aligned_total n = round_up (total n) Alignment.
Proof.
  intros Hfit. destruct (alignment_ok_pow2 _ Halign) as (k & Hk & Hak).
  destruct Halign as [Ha _]. pose proof (total_in_range n) as Ht.
  unfold AlignedAllocator.aligned_total, in_range in *.
  rewrite (wrap_small _ (Alignment - 1)) by (unfold in_range; lia).
  destruct (decide (total n + Alignment = 2 ^ SIZE_BITS)) as [Heq|Hne].
  - rewrite Heq. change (wrap SIZE_BITS (2 ^ SIZE_BITS)) with 0.
    change (wrap SIZE_BITS (0 - 1)) with (2 ^ SIZE_BITS - 1).
    rewrite Hak, land_lnot_ones by (unfold in_range; lia).
    unfold round_up. rewrite <- Hak.
    replace (total n + Alignment - 1) with (2 ^ SIZE_BITS - 1) by lia.
    pose proof (Z.div_mod (2 ^ SIZE_BITS - 1) Alignment ltac:(lia)). lia.
  - rewrite (wrap_small _ (total n + Alignment)) by (unfold in_range; lia).
    rewrite wrap_small by (unfold in_range; lia).
    rewrite Hak, land_lnot_ones by (unfold in_range; lia).
    unfold round_up. rewrite <- Hak.
    pose proof (Z.div_mod (total n + Alignment - 1) Alignment ltac:(lia)). lia.
Qed.

End arithmetic.

(** ** The bump allocator satisfies the interface *)

Lemma bump_alloc_contract : alloc_contract bump_alloc.
Proof.
  intros h a size p h' (Hbrk & Hlim & Hblocks) Ha Hsize Halloc.
  unfold bump_alloc in Halloc.
  destruct (round_up_spec (brk h) a) as [Hdiv Hle]; [lia..|].
  case_decide; injection Halloc as <- <-; [|by rewrite decide_True].
  rewrite decide_False by (unfold NULL; lia).
  split_and!; [done|lia|simpl; lia| |done|].
  - intros ((q & n) & Heq & Hin)%list_elem_of_fmap.
    rewrite Forall_forall in Hblocks. specialize (Hblocks _ Hin). simpl in *. lia.
  - split_and!; simpl; [lia|done|]. apply Forall_cons. split; [simpl; lia|].
    eapply Forall_impl; [done|]. simpl. lia.
Qed.

Lemma bump_free_contract : free_contract bump_free.
Proof.
  intros h p (Hbrk & Hlim & Hblocks). unfold bump_free. split.
  - intros ->. by rewrite decide_True.
  - intros Hp Hin. rewrite decide_False, decide_True by done.
    eexists. split_and!; [done| |done].
    split_and!; simpl; [done..|]. rewrite Forall_forall in Hblocks |- *.
    intros b [_ Hb]%list_elem_of_filter. auto.
Qed.

#[export] Instance bump_laws : PlatformHeapLaws bump_heap.
Proof.
  split; [apply bump_alloc_contract| |apply bump_free_contract..].
  intros h a size. apply bump_alloc_contract.
Qed.

(** ** The platform request of [allocate] *)

Section request.
Context {H : PlatformHeap} {HL : PlatformHeapLaws H}.
Context (sizeof_T Alignment : Z).
Context (Hsize : 0 < sizeof_T) (Halign : alignment_ok Alignment).

Lemma allocate_unfold pf h n :
  allocate sizeof_T Alignment pf h n =
  if decide (n = 0) then Ok (NULL, h)
  else if decide (max_size sizeof_T < n) then Err LengthError
  else if decide ((platform_request sizeof_T Alignment pf h n).1 = NULL) then Err BadAlloc
  else Ok (platform_request sizeof_T Alignment pf h n).
Proof.
  unfold allocate. do 2 (case_decide; [done|]).
  by destruct (platform_request sizeof_T Alignment pf h n).
Qed.

Lemma requested_nonneg pf n : 0 ≤ requested sizeof_T Alignment pf n.
Proof.
  destruct pf; simpl; [apply Z.land_nonneg; left|]; by apply wrap_in_range.
Qed.

(** A request that does not return null returns a fresh aligned block. *)
Lemma platform_request_block pf h n :
  heap_ok h → (platform_request sizeof_T Alignment pf h n).1 ≠ NULL →
  let '(p, h') := platform_request sizeof_T Alignment pf h n in
  (Alignment | p) ∧ 0 < p ∧
  p + requested sizeof_T Alignment pf n ≤ 2 ^ SIZE_BITS ∧
  (p ∉ (live h).*1) ∧
  live h' = (p, requested sizeof_T Alignment pf n) :: live h ∧ heap_ok h'.
Proof.
  intros Hh Hp. destruct Halign as [[? _] _].
  pose proof (requested_nonneg pf n).
  destruct (platform_request sizeof_T Alignment pf h n) as [p h'] eqn:Hreq. simpl in Hp.
  destruct pf; simpl in *.
  - pose proof (aligned_alloc_contract h Alignment _ p h' Hh ltac:(lia)
                  ltac:(done) Hreq) as Hc. by rewrite decide_False in Hc.
  - pose proof (_mm_malloc_contract h Alignment _ p h' Hh ltac:(lia)
                  ltac:(done) Hreq) as Hc. by rewrite decide_False in Hc.
Qed.

End request.

Lemma filter_fresh (p size : Z) (l : list (Z * Z)) :
  p ∉ l.*1 → filter (λ b, b.1 ≠ p) ((p, size) :: l) = l.
Proof.
  intros Hp. rewrite filter_cons_False by (simpl; tauto).
  induction l as [|b l IH]; [done|]. apply not_elem_of_cons in Hp as [Hb Hl].
  rewrite filter_cons_True by done. f_equal. by apply IH.
Qed.

(** ** What the allocator guarantees *)

Section allocator_properties.
Context {H : PlatformHeap} {HL : PlatformHeapLaws H}.
Context (sizeof_T Alignment : Z).
Context (Hsize : 0 < sizeof_T) (Halign : alignment_ok Alignment).

Local Abbreviation max_size := (max_size sizeof_T).
Local Abbreviation total := (total sizeof_T).
Local Abbreviation aligned_total := (aligned_total sizeof_T Alignment).
Local Abbreviation requested := (requested sizeof_T Alignment).
Local Abbreviation allocate := (allocate sizeof_T Alignment).

(** C17: every pointer [allocate] returns for a positive element count is
    not null and a multiple of [Alignment]; it is the address of a fresh
    block of the requested size, and the blocks that were live stay live. *)
Theorem allocate_aligned pf h n p h' :
  heap_ok h → n ≠ 0 → allocate pf h n = Ok (p, h') →
  p ≠ NULL ∧ (Alignment | p) ∧ (p ∉ (live h).*1) ∧
  live h' = (p, requested pf n) :: live h ∧ heap_ok h'.
Proof.
  intros Hh Hn. rewrite allocate_unfold. repeat case_decide; try done.
  intros [= Hreq].
  pose proof (platform_request_block sizeof_T Alignment Halign pf h n Hh) as Hb.
  rewrite Hreq in Hb. destruct Hb as (? & ? & _ & ? & ? & ?); [by rewrite Hreq in *|].
  split_and!; first [done|unfold NULL; lia].
Qed.

(** C18: the failures of [allocate]: a length error exactly when the byte
    size [n * sizeof(T)] does not fit a [std::size_t], an out-of-memory
    error exactly when it fits and the platform returns null; a count of
    zero never fails. *)
Theorem allocate_error pf h n e :
  0 ≤ n →
  allocate pf h n = Err e ↔
  n ≠ 0 ∧ (e = LengthError ∧ 2 ^ SIZE_BITS ≤ n * sizeof_T ∨
           e = BadAlloc ∧ n * sizeof_T < 2 ^ SIZE_BITS ∧
           (platform_request sizeof_T Alignment pf h n).1 = NULL).
Proof.
  intros Hn. rewrite allocate_unfold.
  pose proof (max_size_spec sizeof_T Hsize n Hn).
  repeat case_decide; split; naive_solver lia.
Qed.

(** C36: [allocate(0)] returns null without a request to the platform, and
    that null pointer can be handed back to [deallocate]. *)
Theorem allocate_zero pf h n :
  heap_ok h →
  allocate pf h 0 = Ok (NULL, h) ∧ deallocate pf h NULL n = Ok h.
Proof.
  intros Hh. split; [done|].
  destruct pf; simpl; [by apply free_free_contract|by apply _mm_free_contract].
Qed.

(** C28: the overflow check is exact: for a count that passes it the byte
    size is computed without wrap-around, and a count fails it only if the
    product does not fit. *)
Theorem total_exact n :
  0 ≤ n →
  (n ≤ max_size → total n = n * sizeof_T) ∧
  (max_size < n → 2 ^ SIZE_BITS ≤ n * sizeof_T).
Proof.
  intros Hn. pose proof (max_size_spec sizeof_T Hsize n Hn) as Hm.
  split; [|lia]. intros Hle. apply wrap_small. unfold in_range. nia.
Qed.

(** C29: the size rounding: when the byte size plus the alignment fits a
    [std::size_t], [aligned_total] is the least multiple of [Alignment]
    that is at least the byte size. *)
Theorem aligned_total_spec n :
  total n + Alignment ≤ 2 ^ SIZE_BITS →
  aligned_total n = round_up (total n) Alignment ∧
  (Alignment | aligned_total n) ∧
  total n ≤ aligned_total n < total n + Alignment.
Proof.
  intros Hfit. rewrite (aligned_total_round sizeof_T Alignment) by done.
  split; [done|]. apply round_up_spec; [apply Halign|].
  apply (total_in_range sizeof_T).
Qed.

(** For an element type whose size is a multiple of the alignment, as
    the label type of the index is, the rounding changes nothing: both
    platforms are asked for exactly [n * sizeof(T)] bytes. *)
Theorem requested_exact pf n :
  (Alignment | sizeof_T) → 0 ≤ n ≤ max_size →
  requested pf n = n * sizeof_T.
Proof.
  intros [q Hq] [Hn Hmax]. destruct Halign as [[Ha Ha64] Hpow].
  assert (total n = n * sizeof_T) as Ht.
  { apply wrap_small. apply max_size_spec in Hmax; [|done..]. unfold in_range. nia. }
  destruct pf; [|done]. simpl.
  assert (Alignment | 2 ^ SIZE_BITS) as [m Hm].
  { rewrite Hpow. exists (2 ^ (SIZE_BITS - Z.log2 Alignment)).
    rewrite <- Z.pow_add_r; [f_equal; lia| |apply Z.log2_nonneg].
    pose proof (Z.log2_lt_pow2 Alignment SIZE_BITS Ha). unfold SIZE_BITS in *. lia. }
  apply max_size_spec in Hmax; [|done..].
  assert (n * q < m) by nia.
  assert (total n + Alignment ≤ 2 ^ SIZE_BITS) by (rewrite Ht; nia).
  rewrite (aligned_total_round sizeof_T Alignment), Ht by done.
  apply round_up_divide; [done|]. exists (n * q). lia.
Qed.

(** C30: memory obtained from [allocate] and handed back to [deallocate]
    leaves the live blocks exactly as they were before the allocation. *)
Theorem deallocate_allocate pf h n p h' :
  heap_ok h → n ≠ 0 → allocate pf h n = Ok (p, h') →
  ∃ h'', deallocate pf h' p n = Ok h'' ∧ live h'' = live h ∧ heap_ok h''.
Proof.
  intros Hh Hn. rewrite allocate_unfold. repeat case_decide; try done.
  intros [= Hreq].
  pose proof (platform_request_block sizeof_T Alignment Halign pf h n Hh) as Hb.
  rewrite Hreq in Hb. destruct Hb as (_ & ? & _ & Hfresh & Hlive & Hh');
    [by rewrite Hreq in *|].
  assert (∃ h'', deallocate pf h' p n = Ok h'' ∧ heap_ok h'' ∧
                 live h'' = filter (λ b, b.1 ≠ p) (live h')) as (h'' & ? & ? & Hl).
  { destruct pf; simpl; [apply free_free_contract|apply _mm_free_contract];
      rewrite ?Hlive; first [done|unfold NULL; lia|by left]. }
  exists h''. split_and!; [done| |done]. by rewrite Hl, Hlive, filter_fresh.
Qed.

End allocator_properties.

(** C40: the overflow check does not cover the rounding: for one-byte
    elements, alignment 16 and the largest count that passes the check,
    the byte size is [2^64 - 1] and [aligned_total] wraps around to 0, so
    on ARM [allocate] succeeds with a block of zero bytes (on a platform
    that, like the bump allocator here, answers a request for zero bytes
    with a block). *)
Theorem aligned_total_wraps :
  let n := 2 ^ 64 - 1 in
  n ≤ max_size 1 ∧ total 1 n = n ∧ aligned_total 1 16 n = 0 ∧
  allocate 1 16 ARM (Bump 16 (2 ^ 64) []) n = Ok (16, Bump 17 (2 ^ 64) [(16, 0)]).
Proof. by vm_compute. Qed.

(** ** The theorems at concrete inputs

    On the bump allocator, with a heap that holds one live block, for the
    label type of the index (16 bytes, alignment 16). *)

Lemma allocate_aligned_witness :
  112 ≠ NULL ∧ (16 | 112) ∧ (112 ∉ (live heap1).*1) ∧
  live (Bump 161 4096 [(112, 48); (16, 32)]) =
    (112, requested 16 16 ARM 3) :: live heap1 ∧
  heap_ok (Bump 161 4096 [(112, 48); (16, 32)]).
Proof.
  apply (allocate_aligned 16 16 ltac:(by_compute) ARM heap1 3);
    [by_compute|done|by vm_compute].
Defined.

Lemma allocate_error_witness :
  allocate 16 16 X86 heap1 (2 ^ 60) = Err LengthError ↔
  2 ^ 60 ≠ 0 ∧ (LengthError = LengthError ∧ 2 ^ SIZE_BITS ≤ 2 ^ 60 * 16 ∨
                LengthError = BadAlloc ∧ 2 ^ 60 * 16 < 2 ^ SIZE_BITS ∧
                (platform_request 16 16 X86 heap1 (2 ^ 60)).1 = NULL).
Proof. apply (allocate_error (H := bump_heap) 16 16 ltac:(lia)). lia. Defined.

Lemma allocate_zero_witness :
  allocate 16 16 ARM heap1 0 = Ok (NULL, heap1) ∧
  deallocate ARM heap1 NULL 7 = Ok heap1.
Proof. apply (allocate_zero (H := bump_heap) 16 16). by_compute. Defined.

Lemma total_exact_witness :
  (5 ≤ max_size 16 → total 16 5 = 5 * 16) ∧
  (max_size 16 < 5 → 2 ^ SIZE_BITS ≤ 5 * 16).
Proof. apply (total_exact 16 ltac:(lia) 5). lia. Defined.

Lemma aligned_total_spec_witness :
  aligned_total 3 16 7 = round_up (total 3 7) 16 ∧
  (16 | aligned_total 3 16 7) ∧
  total 3 7 ≤ aligned_total 3 16 7 < total 3 7 + 16.
Proof. apply (aligned_total_spec 3 16 ltac:(by_compute) 7). by vm_compute. Defined.

Lemma requested_exact_witness : requested 16 16 ARM 1000 = 1000 * 16.
Proof.
  apply (requested_exact 16 16 ltac:(lia) ltac:(by_compute) ARM 1000);
    [by exists 1|by vm_compute].
Defined.

Lemma deallocate_allocate_witness :
  ∃ h'', deallocate X86 (Bump 161 4096 [(112, 48); (16, 32)]) 112 3 = Ok h'' ∧
         live h'' = live heap1 ∧ heap_ok h''.
Proof.
  apply (deallocate_allocate 16 16 ltac:(by_compute) X86 heap1 3);
    [by_compute|done|by vm_compute].
Defined.
