(* ===== verification/ReachedIndex.v ===== *)
(** * ProfileReachedIndexSIMD

    The class of src/unnamed/part_000, lines 116-194, over an arbitrary
    backend [B : Simd128].  The state is the record of its three data
    members; each member function is one definition, in the [result] monad
    where the function can fail an [assert] or index out of bounds.

    References into the label storage ([getPosition] and [operator()]
    return [u_int8_t&]) are modelled by a read ([getPosition],
    [call_operator]) and a write through the reference ([setPosition],
    [call_operator_assign]). *)

From S2P Require Import Prelude Timetable Simd128.

Local Open Scope Z_scope.
Local Open Scope result_scope.

Section index.
Context {B : Simd128}.

(** The union [ReachedElement]: one register, also readable as sixteen
    bytes. *)
Record ReachedElement : Type := { mValues : simd128_t }.

(** The member [values]: the bytes of the register. *)
Definition values (e : ReachedElement) : list Z := to_bytes (mValues e).

(** [values[i] = v]: the register with byte [i] replaced. *)
Definition store_value (e : ReachedElement) (i : nat) (v : Z) : ReachedElement :=
  {| mValues := of_bytes (<[i := v]> (values e)) |}.

Record ProfileReachedIndexSIMD : Type := {
  data : Data;
  defaultLabels : list ReachedElement;
  labels : list ReachedElement;
}.

Definition with_labels (s : ProfileReachedIndexSIMD) (l : list ReachedElement) :
  ProfileReachedIndexSIMD :=
  {| data := data s; defaultLabels := defaultLabels s; labels := l |}.

(** [std::fill(begin(values), end(values), stops)]: the stop count,
    narrowed to [u_int8_t], in all sixteen bytes. *)
Definition fill (stops : Z) : ReachedElement :=
  {| mValues := of_bytes (replicate 16 (wrap 8 stops)) |}.

(** The [for] of the constructor. *)
Fixpoint construct_loop (fuel : nat) (d : Data) (trip : nat)
    (dl : list ReachedElement) : list ReachedElement :=
  match fuel with
  | O => dl
  | S fuel =>
      if bool_decide (trip < numberOfTrips d)%nat
      then construct_loop fuel d (S trip)
             (<[trip := fill (numberOfStopsInTrip d trip)]> dl)
      else dl
  end.

(** The constructor.  [ReachedElement() {}] initialises nothing, so both
    vectors start with indeterminate elements; [u0] and [u1] are what the
    allocator happened to hold. *)
Definition construct (d : Data) (u0 u1 : nat → ReachedElement) :
  ProfileReachedIndexSIMD :=
  let n := numberOfTrips d in
  {| data := d;
     defaultLabels := construct_loop n d 0 (u0 <$> seq 0 n);
     labels := u1 <$> seq 0 n |}.

Definition clear (s : ProfileReachedIndexSIMD) : ProfileReachedIndexSIMD :=
  with_labels s (defaultLabels s).

(** [labels[trip].values[round - 1]], read. *)
Definition getPosition (s : ProfileReachedIndexSIMD) (trip : nat) (round : Z) :
  result Z :=
  do e <- at_index (labels s) trip;
  index (values e) (round - 1).

(** [labels[trip].values[round - 1] = v]. *)
Definition setPosition (s : ProfileReachedIndexSIMD) (trip : nat) (round v : Z) :
  result ProfileReachedIndexSIMD :=
  do e <- at_index (labels s) trip;
  do _ <- index (values e) (round - 1);
  Ok (with_labels s
        (<[trip := store_value e (Z.to_nat (round - 1)) (wrap 8 v)]> (labels s))).

Definition alreadyReached (s : ProfileReachedIndexSIMD) (trip : nat)
    (position round : Z) : result bool :=
  check isTrip (data s) trip;
  check bool_decide (0 < round);
  check bool_decide (round < 16);
  do p <- getPosition s trip round;
  Ok (bool_decide (p ≤ position)).

(** The condition of the [for] of [update], evaluated left to right:
    [tr < data.firstTripOfRoute[data.routeOfTrip[trip] + 1] &&
     getPosition(tr, round) > position]. *)
Definition update_cond (s : ProfileReachedIndexSIMD) (trip : nat)
    (position round : Z) (tr : nat) : result bool :=
  do r <- at_index (routeOfTrip (data s)) trip;
  do last <- at_index (firstTripOfRoute (data s)) (r + 1);
  if bool_decide (tr < last)%nat
  then do p <- getPosition s tr round; Ok (bool_decide (position < p))
  else Ok false.

(** The body: [labels[tr].mValues = simd_min_u8(labels[tr].mValues, FILTER)]. *)
Definition update_body (s : ProfileReachedIndexSIMD) (FILTER : simd128_t)
    (tr : nat) : result ProfileReachedIndexSIMD :=
  do e <- at_index (labels s) tr;
  Ok (with_labels s
        (<[tr := {| mValues := simd_min_u8 (mValues e) FILTER |}]> (labels s))).

Fixpoint update_loop (fuel : nat) (s : ProfileReachedIndexSIMD) (trip : nat)
    (position round : Z) (FILTER : simd128_t) (tr : nat) :
  result ProfileReachedIndexSIMD :=
  match fuel with
  | O => Err OutOfBounds
  | S fuel =>
      do c <- update_cond s trip position round tr;
      if c
      then do s' <- update_body s FILTER tr;
           update_loop fuel s' trip position round FILTER (S tr)
      else Ok s
  end.

Definition update (s : ProfileReachedIndexSIMD) (trip : nat)
    (position round : Z) : result ProfileReachedIndexSIMD :=
  check isTrip (data s) trip;
  check bool_decide (0 < round);
  check bool_decide (round < 16);
  do mask <- makeMask round;
  let FILTER := simd_max_u8 (simd_set1_u8 position) mask in
  update_loop (S (length (labels s))) s trip position round FILTER trip.

(** [operator()]: the reference [getPosition] returns, read ... *)
Definition call_operator (s : ProfileReachedIndexSIMD) (trip : nat) (round : Z) :
  result Z :=
  getPosition s trip round.

(** ... and assigned through. *)
Definition call_operator_assign (s : ProfileReachedIndexSIMD) (trip : nat)
    (round v : Z) : result ProfileReachedIndexSIMD :=
  setPosition s trip round v.

Definition getMask (round : Z) : result simd128_t :=
  check bool_decide (0 < round);
  check bool_decide (round < 16);
  makeMask round.

(** ** The loop as a transition system

    A configuration is the index together with the loop variable [tr]. *)
Inductive update_step (trip : nat) (position round : Z) (FILTER : simd128_t) :
  ProfileReachedIndexSIMD * nat → ProfileReachedIndexSIMD * nat → Prop :=
| update_step_iter s tr s' :
    update_cond s trip position round tr = Ok true →
    update_body s FILTER tr = Ok s' →
    update_step trip position round FILTER (s, tr) (s', S tr).

(** The loop leaves [(s, tr)] with result [r]: normally when the condition
    is false, abnormally when the condition or the body fails. *)
Inductive update_exit (trip : nat) (position round : Z) (FILTER : simd128_t) :
  ProfileReachedIndexSIMD * nat → result ProfileReachedIndexSIMD → Prop :=
| update_exit_done s tr :
    update_cond s trip position round tr = Ok false →
    update_exit trip position round FILTER (s, tr) (Ok s)
| update_exit_cond s tr e :
    update_cond s trip position round tr = Err e →
    update_exit trip position round FILTER (s, tr) (Err e)
| update_exit_body s tr e :
    update_cond s trip position round tr = Ok true →
    update_body s FILTER tr = Err e →
    update_exit trip position round FILTER (s, tr) (Err e).

(** ** Reference definitions *)

(** The label vectors as bytes: what the index stores, backend aside. *)
Definition positions (s : ProfileReachedIndexSIMD) : list (list Z) :=
  values <$> labels s.

(** The template the constructor computes. *)
Definition default_template (d : Data) : list ReachedElement :=
  (λ trip, fill (numberOfStopsInTrip d trip)) <$> seq 0 (numberOfTrips d).

(** The filter of [update] applied to the labels of the trips [a .. b-1]. *)
Definition relax_range (FILTER : simd128_t) (a b : nat)
    (l : list ReachedElement) : list ReachedElement :=
  imap (λ t e, if decide (a ≤ t < b)%nat
               then {| mValues := simd_min_u8 (mValues e) FILTER |} else e) l.

(** [update] without the early exit: the filter applied to every trip from
    [trip] to the end of its route. *)
Definition update_all (s : ProfileReachedIndexSIMD) (trip : nat)
    (position round : Z) : result ProfileReachedIndexSIMD :=
  check isTrip (data s) trip;
  check bool_decide (0 < round);
  check bool_decide (round < 16);
  do mask <- makeMask round;
  let FILTER := simd_max_u8 (simd_set1_u8 position) mask in
  do r <- at_index (routeOfTrip (data s)) trip;
  do last <- at_index (firstTripOfRoute (data s)) (r + 1);
  Ok (with_labels s (relax_range FILTER trip last (labels s))).

Definition element_ok (e : ReachedElement) : Prop := simd128_ok (mValues e).

#[export] Instance ReachedElement_eq_dec : EqDecision ReachedElement.
Proof. solve_decision. Defined.

#[export] Instance element_ok_dec e : Decision (element_ok e).
Proof. unfold element_ok. apply _. Defined.

(** The type invariant: the vectors have one element per trip, every
    element is a register value, and the template is the constructor's. *)
Definition index_wf (s : ProfileReachedIndexSIMD) : Prop :=
  Data_wf (data s) ∧
  length (labels s) = numberOfTrips (data s) ∧
  Forall element_ok (labels s) ∧
  defaultLabels s = default_template (data s).

#[export] Instance index_wf_dec s : Decision (index_wf s).
Proof. unfold index_wf. apply _. Defined.

End index.

Arguments ReachedElement : clear implicits.
Arguments ReachedElement B : assert.
Arguments ProfileReachedIndexSIMD : clear implicits.
Arguments ProfileReachedIndexSIMD B : assert.

(** ** The assertions of [alreadyReached] and [update] *)

Section asserts.
Context {B : Simd128}.
Implicit Types (s : ProfileReachedIndexSIMD B).

(** The three conditions both functions assert. *)
Definition valid_args s (trip : nat) (round : Z) : bool :=
  isTrip (data s) trip && bool_decide (0 < round) && bool_decide (round < 16).

Lemma valid_args_true s trip round :
  valid_args s trip round = true ↔ isTrip (data s) trip = true ∧ 0 < round < 16.
Proof.
  unfold valid_args. rewrite !andb_true_iff, !bool_decide_eq_true. tauto.
Qed.

Lemma valid_args_false s trip round :
  valid_args s trip round = false ↔
  isTrip (data s) trip = false ∨ round ≤ 0 ∨ 16 ≤ round.
Proof.
  unfold valid_args. rewrite !andb_false_iff, !bool_decide_eq_false.
  intuition lia.
Qed.

Lemma alreadyReached_unfold s trip position round :
  alreadyReached s trip position round =
  if valid_args s trip round
  then do p <- getPosition s trip round; Ok (bool_decide (p ≤ position))
  else Err AssertionFailure.
Proof. apply check3_unfold. Qed.

Lemma update_all_unfold s trip position round :
  update_all s trip position round =
  if valid_args s trip round then
    do mask <- makeMask round;
    let FILTER := simd_max_u8 (simd_set1_u8 position) mask in
    do r <- at_index (routeOfTrip (data s)) trip;
    do last <- at_index (firstTripOfRoute (data s)) (r + 1);
    Ok (with_labels s (relax_range FILTER trip last (labels s)))
  else Err AssertionFailure.
Proof. apply check3_unfold. Qed.

Lemma update_unfold s trip position round :
  update s trip position round =
  if valid_args s trip round
  then do mask <- makeMask round;
       update_loop (S (length (labels s))) s trip position round
         (simd_max_u8 (simd_set1_u8 position) mask) trip
  else Err AssertionFailure.
Proof. apply check3_unfold. Qed.

End asserts.

(** ** Elements *)

Section element.
Context {B : Simd128} {BL : Simd128Laws B}.
Implicit Types (e : ReachedElement B) (F : @simd128_t B).

Lemma element_eq e e' : mValues e = mValues e' → e = e'.
Proof. destruct e, e'; simpl; congruence. Qed.

Lemma values_ok e : element_ok e → lanes_ok 16 8 (values e).
Proof. apply to_bytes_ok. Qed.

Lemma values_inj e e' : element_ok e → element_ok e' → values e = values e' → e = e'.
Proof. intros. by apply element_eq, to_bytes_inj. Qed.

Lemma fill_ok stops : element_ok (fill stops).
Proof. apply of_bytes_ok. auto with simd. Qed.

Lemma values_fill stops : values (fill stops) = replicate 16 (wrap 8 stops).
Proof. apply to_bytes_of_bytes. auto with simd. Qed.

Lemma store_value_ok e i v : element_ok e → in_range 8 v → element_ok (store_value e i v).
Proof. intros He Hv. apply of_bytes_ok. auto using values_ok with simd. Qed.

Lemma values_store_value e i v :
  element_ok e → in_range 8 v → values (store_value e i v) = <[i := v]> (values e).
Proof. intros He Hv. apply to_bytes_of_bytes. auto using values_ok with simd. Qed.

(** An element under the filter of [update position round]. *)
Lemma relaxed_ok e F : element_ok e → simd128_ok F →
  element_ok {| mValues := simd_min_u8 (mValues e) F |}.
Proof. apply simd_min_u8_ok. Qed.

Lemma values_relaxed e F position round :
  element_ok e → simd128_ok F → to_bytes F = filter_bytes position round →
  values {| mValues := simd_min_u8 (mValues e) F |} =
  relax_bytes position round (values e).
Proof. intros He HF HFb. unfold values. simpl. by rewrite to_bytes_min, HFb. Qed.

End element.

#[export] Hint Resolve fill_ok store_value_ok relaxed_ok values_ok : simd.

(** ** The constructor and [clear] *)

Section construct.
Context {B : Simd128} {BL : Simd128Laws B}.
Implicit Types (s : ProfileReachedIndexSIMD B) (d : Data).

Lemma with_labels_id s : with_labels s (labels s) = s.
Proof. by destruct s. Qed.

Lemma construct_loop_length fuel d trip (dl : list (ReachedElement B)) :
  length (construct_loop fuel d trip dl) = length dl.
Proof.
  revert trip dl. induction fuel as [|fuel IH]; intros; simpl; [done|].
  case_bool_decide; [|done]. by rewrite IH, length_insert.
Qed.

(** The constructor's loop, started at [trip] with enough fuel to reach the
    last trip, overwrites the elements from [trip] on and nothing else. *)
Lemma construct_loop_lookup fuel d trip (dl : list (ReachedElement B)) (t : nat) :
  (numberOfTrips d ≤ fuel + trip)%nat → length dl = numberOfTrips d →
  construct_loop fuel d trip dl !! t =
  if decide (trip ≤ t < numberOfTrips d)%nat
  then Some (fill (numberOfStopsInTrip d t)) else dl !! t.
Proof.
  revert trip dl. induction fuel as [|fuel IH]; intros trip dl Hf Hlen; simpl.
  { rewrite decide_False by lia. done. }
  case_bool_decide.
  - rewrite IH by (rewrite ?length_insert; lia).
    destruct (decide (trip = t)) as [->|].
    + rewrite decide_False, decide_True by lia. apply list_lookup_insert_eq. lia.
    + rewrite list_lookup_insert_ne by done.
      clear IH. do 2 destruct (decide _); (done || (exfalso; lia)).
  - rewrite decide_False by lia. done.
Qed.

Lemma default_template_lookup d (t : nat) :
  default_template (B := B) d !! t =
  if decide (t < numberOfTrips d)%nat
  then Some (fill (numberOfStopsInTrip d t)) else None.
Proof.
  unfold default_template. rewrite list_lookup_fmap. case_decide.
  - by rewrite lookup_seq_lt.
  - by rewrite lookup_seq_ge by lia.
Qed.

Lemma default_template_length d :
  length (default_template (B := B) d) = numberOfTrips d.
Proof. unfold default_template. by rewrite length_fmap, length_seq. Qed.

Lemma default_template_ok d : Forall element_ok (default_template (B := B) d).
Proof. apply Forall_fmap, Forall_forall. intros. apply fill_ok. Qed.

Lemma defaultLabels_construct d (u0 u1 : nat → ReachedElement B) :
  defaultLabels (construct d u0 u1) = default_template d.
Proof.
  simpl. apply (list_eq_same_length _ _ (numberOfTrips d)).
  - apply default_template_length.
  - by rewrite construct_loop_length, length_fmap, length_seq.
  - intros t x y Ht Hx Hy.
    rewrite construct_loop_lookup in Hx by (rewrite ?length_fmap, ?length_seq; lia).
    rewrite default_template_lookup in Hy.
    rewrite decide_True in Hx by lia. rewrite decide_True in Hy by lia.
    congruence.
Qed.

Lemma clear_wf s :
  Data_wf (data s) → defaultLabels s = default_template (data s) →
  index_wf (clear s).
Proof.
  intros Hd Ht. unfold index_wf. simpl. rewrite Ht.
  auto using default_template_length, default_template_ok.
Qed.

End construct.

(** ** Reading and writing positions *)

Section access.
Context {B : Simd128} {BL : Simd128Laws B}.
Implicit Types (s : ProfileReachedIndexSIMD B) (e : ReachedElement B).

Lemma getPosition_Ok s trip round p :
  getPosition s trip round = Ok p ↔
  ∃ e, labels s !! trip = Some e ∧ 0 ≤ round - 1 ∧
       values e !! Z.to_nat (round - 1) = Some p.
Proof.
  unfold getPosition. rewrite bind_Ok.
  setoid_rewrite at_index_Ok. setoid_rewrite index_Ok. done.
Qed.

Lemma getPosition_lookup s trip round e p :
  labels s !! trip = Some e → 1 ≤ round →
  values e !! Z.to_nat (round - 1) = Some p →
  getPosition s trip round = Ok p.
Proof. intros. apply getPosition_Ok. exists e. split_and!; (done || lia). Qed.

(** Inside the storage every read succeeds with a byte: no undefined
    behaviour for a valid trip and a round from 1 to 16. *)
Lemma getPosition_in_bounds s trip round :
  Forall element_ok (labels s) → (trip < length (labels s))%nat →
  1 ≤ round ≤ 16 →
  ∃ e p, labels s !! trip = Some e ∧ getPosition s trip round = Ok p ∧
         values e !! Z.to_nat (round - 1) = Some p ∧ in_range 8 p.
Proof.
  intros Hok Ht Hr. destruct (lookup_lt_is_Some_2 _ _ Ht) as [e He].
  assert (element_ok e) as Hv%values_ok by (by eapply Forall_lookup_1).
  destruct (lanes_ok_lookup_lt _ _ _ (Z.to_nat (round - 1)) Hv) as (p & Hp & ?); [lia|].
  exists e, p. split_and!; try done. eapply getPosition_lookup; (done || lia).
Qed.

(** Outside it the read is undefined behaviour. *)
Lemma getPosition_out_of_bounds s trip round :
  Forall element_ok (labels s) →
  (length (labels s) ≤ trip)%nat ∨ round < 1 ∨ 16 < round →
  getPosition s trip round = Err OutOfBounds.
Proof.
  intros Hok Hout. unfold getPosition.
  destruct (at_index (labels s) trip) as [e|err] eqn:He; simpl.
  - apply at_index_Ok in He as He'.
    assert (lanes_ok 16 8 (values e)) as [Hlen _].
    { apply values_ok. by eapply Forall_lookup_1. }
    apply lookup_lt_Some in He'.
    destruct (index (values e) (round - 1)) eqn:Hi; [|by apply index_Err in Hi as [-> _]].
    apply index_Ok in Hi as [? Hi%lookup_lt_Some]. lia.
  - by apply at_index_Err in He as [-> _].
Qed.

Lemma getPosition_insert_ne s (l : list (ReachedElement B)) trip round t e :
  t ≠ trip →
  getPosition (with_labels s (<[t := e]> l)) trip round =
  getPosition (with_labels s l) trip round.
Proof.
  intros Hne. unfold getPosition, at_index. simpl.
  by rewrite list_lookup_insert_ne.
Qed.

(** Inside the storage a write through the reference succeeds and keeps
    the index well-formed. *)
Lemma setPosition_run s trip round v :
  index_wf s → isTrip (data s) trip = true → 1 ≤ round ≤ 16 →
  ∃ s', setPosition s trip round v = Ok s' ∧ index_wf s' ∧ data s' = data s.
Proof.
  intros (Hd & Hlen & Hok & Ht) Htrip%isTrip_true Hr.
  destruct (getPosition_in_bounds s trip round) as (e & p & He & _ & Hp & _);
    [done|lia|done|].
  unfold setPosition. rewrite (bind_eq_Ok _ _ e) by auto with simd.
  rewrite (bind_eq_Ok _ _ p) by (apply index_Ok; split; [lia|done]).
  eexists. split; [done|]. split; [|done].
  unfold index_wf. simpl. rewrite length_insert. split_and!; try done.
  apply Forall_insert; [done|]. apply store_value_ok; [|apply wrap_in_range; lia].
  by eapply Forall_lookup_1.
Qed.

(** A write through the reference is read back, narrowed to a byte. *)
Lemma getPosition_setPosition s trip round v s' :
  Forall element_ok (labels s) →
  setPosition s trip round v = Ok s' →
  getPosition s' trip round = Ok (wrap 8 v).
Proof.
  intros Hok Hs. unfold setPosition in Hs.
  apply bind_Ok in Hs as (e & He%at_index_Ok & Hs).
  apply bind_Ok in Hs as (p & [? Hp]%index_Ok & [= <-]).
  assert (element_ok e) as Hv by (by eapply Forall_lookup_1).
  eapply getPosition_lookup; [|lia|].
  - apply list_lookup_insert_eq. by eapply lookup_lt_Some.
  - rewrite values_store_value by auto with simd.
    apply list_lookup_insert_eq. by eapply lookup_lt_Some.
Qed.

(** ... and leaves every other position as it was. *)
Lemma getPosition_setPosition_ne s trip round v s' trip' round' :
  Forall element_ok (labels s) →
  setPosition s trip round v = Ok s' →
  1 ≤ round' → (trip', round') ≠ (trip, round) →
  getPosition s' trip' round' = getPosition s trip' round'.
Proof.
  intros Hok Hs Hr' Hne. unfold setPosition in Hs.
  apply bind_Ok in Hs as (e & He%at_index_Ok & Hs).
  apply bind_Ok in Hs as (p & [? Hp]%index_Ok & [= <-]).
  destruct (decide (trip' = trip)) as [->|Ht].
  - assert (element_ok e) as Hv by (by eapply Forall_lookup_1).
    unfold getPosition, at_index. simpl.
    rewrite list_lookup_insert_eq, He by (by eapply lookup_lt_Some). simpl.
    rewrite values_store_value by auto with simd.
    unfold index, at_index. case_decide; [|done].
    rewrite list_lookup_insert_ne; [done|]. intros Heq. apply Hne. f_equal. lia.
  - rewrite <- (with_labels_id s) at 2. by apply getPosition_insert_ne.
Qed.

(** After [clear] every position is the trip's stop count, as a byte. *)
Lemma getPosition_clear s trip round :
  defaultLabels s = default_template (data s) →
  isTrip (data s) trip = true → 1 ≤ round ≤ 16 →
  getPosition (clear s) trip round =
  Ok (wrap 8 (numberOfStopsInTrip (data s) trip)).
Proof.
  intros Ht Htrip%isTrip_true Hr.
  eapply getPosition_lookup; [simpl; rewrite Ht, default_template_lookup|lia|].
  - by rewrite decide_True.
  - rewrite values_fill. apply lookup_replicate_2. lia.
Qed.

End access.
