(* ===== verification/ReachedIndexScan.v ===== *)
(** * The scan of [update]

    The loop of [ProfileReachedIndexSIMD::update] (src/unnamed/part_000,
    lines 160-164) analysed once and for all: what the fuelled function
    [update_loop] returns ([update_loop_run]), that this is the unique
    terminal configuration of the transition system [update_step], and the
    postcondition [update_post] from which the properties of [update] are
    derived in [ReachedIndexProps]. *)

From stdpp Require Import relations.
From S2P Require Import Prelude Timetable Simd128 ReachedIndex.

Local Open Scope Z_scope.
Local Open Scope result_scope.

Section contracts.
Context {B : Simd128}.
Implicit Types (s : ProfileReachedIndexSIMD B).

(** The loop bound, once the two vector reads are known to succeed. *)
Definition route_end_is (trip r last : nat) s : Prop :=
  routeOfTrip (data s) !! trip = Some r ∧
  firstTripOfRoute (data s) !! S r = Some last.

(** What a call [update s trip position round] has done when it returns
    [s']: relaxed the trips from [trip] up to a stopping trip [stop] of the
    same route, all of them strictly worse than [position] before, and
    stopped at the end of the route or at a trip already as good. *)
Definition update_post s (trip : nat) (position round : Z) s' : Prop :=
  ∃ (F : simd128_t) (first last stop : nat),
    route_range (data s) trip = Some (first, last) ∧
    (first ≤ trip < last)%nat ∧ (trip ≤ stop ≤ last)%nat ∧
    (last ≤ length (labels s))%nat ∧
    simd128_ok F ∧ to_bytes F = filter_bytes position round ∧
    s' = with_labels s (relax_range F trip stop (labels s)) ∧
    (∀ t, (trip ≤ t < stop)%nat →
          ∃ p, getPosition s t round = Ok p ∧ position < p) ∧
    ((stop < last)%nat → ∃ p, getPosition s stop round = Ok p ∧ p ≤ position).

End contracts.

Section relax_range.
Context {B : Simd128} {BL : Simd128Laws B}.
Implicit Types (l : list (ReachedElement B)) (F : @simd128_t B).

Lemma relax_range_length F a b l : length (relax_range F a b l) = length l.
Proof. apply length_imap. Qed.

Lemma relax_range_lookup F a b l (t : nat) :
  relax_range F a b l !! t =
  (λ e, if decide (a ≤ t < b)%nat
        then {| mValues := simd_min_u8 (mValues e) F |} else e) <$> l !! t.
Proof. apply list_lookup_imap. Qed.

Lemma relax_range_lookup_in F a b l (t : nat) e :
  l !! t = Some e → (a ≤ t < b)%nat →
  relax_range F a b l !! t = Some {| mValues := simd_min_u8 (mValues e) F |}.
Proof.
  intros He Ht. rewrite relax_range_lookup, He. simpl. by rewrite decide_True.
Qed.

Lemma relax_range_lookup_out F a b l (t : nat) :
  ¬ (a ≤ t < b)%nat → relax_range F a b l !! t = l !! t.
Proof.
  intros Ht. rewrite relax_range_lookup. destruct (l !! t); simpl; [|done].
  by rewrite decide_False.
Qed.

Lemma relax_range_empty F a b l : (b ≤ a)%nat → relax_range F a b l = l.
Proof. intros. apply list_eq. intros t. apply relax_range_lookup_out. lia. Qed.

(** One more iteration at the front of the range. *)
Lemma relax_range_insert F a b l e :
  l !! a = Some e → (a < b)%nat →
  relax_range F (S a) b (<[a := {| mValues := simd_min_u8 (mValues e) F |}]> l) =
  relax_range F a b l.
Proof.
  intros He Hab. apply list_eq. intros t.
  destruct (decide (a = t)) as [<-|Hne].
  - rewrite relax_range_lookup_out by lia.
    rewrite (relax_range_lookup_in _ _ _ _ _ e) by (done || lia).
    apply list_lookup_insert_eq. by eapply lookup_lt_Some.
  - rewrite !relax_range_lookup, list_lookup_insert_ne by done.
    destruct (l !! t); simpl; [|done].
    f_equal. do 2 destruct (decide _); (done || (exfalso; lia)).
Qed.

Lemma relax_range_ok F a b l :
  simd128_ok F → Forall element_ok l → Forall element_ok (relax_range F a b l).
Proof.
  intros HF Hl. apply Forall_lookup. intros t e. rewrite relax_range_lookup.
  destruct (l !! t) as [e'|] eqn:He'; simpl; [|done]. intros [= <-].
  assert (element_ok e') by (by eapply Forall_lookup_1).
  case_decide; auto with simd.
Qed.

End relax_range.

Section scan.
Context {B : Simd128} {BL : Simd128Laws B}.
Context (trip : nat) (position round : Z) (FILTER : @simd128_t B).
Context (r last : nat).
Implicit Types (s : ProfileReachedIndexSIMD B).

Lemma update_cond_unfold s tr :
  route_end_is trip r last s →
  update_cond s trip position round tr =
  if bool_decide (tr < last)%nat
  then do p <- getPosition s tr round; Ok (bool_decide (position < p))
  else Ok false.
Proof.
  intros [Hr Hl]. unfold update_cond.
  rewrite (bind_eq_Ok _ _ r) by auto with simd.
  rewrite Nat.add_1_r, (bind_eq_Ok _ _ last) by auto with simd. done.
Qed.

Lemma update_cond_true s tr :
  route_end_is trip r last s →
  update_cond s trip position round tr = Ok true ↔
  (tr < last)%nat ∧ ∃ p, getPosition s tr round = Ok p ∧ position < p.
Proof.
  intros Hre. rewrite update_cond_unfold by done. case_bool_decide.
  - rewrite bind_Ok. split.
    + intros (p & Hp & [= Hc%bool_decide_eq_true]). eauto.
    + intros (_ & p & Hp & Hc). exists p. by rewrite bool_decide_eq_true_2.
  - split; [done|lia].
Qed.

Lemma update_cond_false s tr :
  route_end_is trip r last s →
  update_cond s trip position round tr = Ok false ↔
  (last ≤ tr)%nat ∨ ∃ p, getPosition s tr round = Ok p ∧ p ≤ position.
Proof.
  intros Hre. rewrite update_cond_unfold by done. case_bool_decide.
  - rewrite bind_Ok. split.
    + intros (p & Hp & [= Hc%bool_decide_eq_false]). right. exists p. split; [done|lia].
    + intros [?|(p & Hp & Hc)]; [lia|]. exists p. by rewrite bool_decide_eq_false_2 by lia.
  - split; [intros _; left; lia|done].
Qed.

(** Inside the storage the condition never fails. *)
Lemma update_cond_is_ok s tr :
  route_end_is trip r last s → (last ≤ length (labels s))%nat →
  Forall element_ok (labels s) → 1 ≤ round ≤ 16 →
  is_ok (update_cond s trip position round tr).
Proof.
  intros Hre Hlen Hok Hr. rewrite update_cond_unfold by done.
  case_bool_decide; [|by eexists].
  destruct (getPosition_in_bounds s tr round) as (e & p & _ & -> & _); [done|lia|done|].
  by eexists.
Qed.

(** The loop from [tr] on, in one piece: it stops at some [stop] between
    [tr] and the end of the route, has applied the filter to exactly the
    trips [tr .. stop-1], each of which was strictly worse than [position]
    at [round], and [stop] is the end of the route or a trip that is
    already as good. *)
Lemma update_loop_run fuel s tr :
  route_end_is trip r last s → (last ≤ length (labels s))%nat →
  Forall element_ok (labels s) → simd128_ok FILTER → 1 ≤ round ≤ 16 →
  (tr ≤ last)%nat → (last - tr < fuel)%nat →
  ∃ stop, (tr ≤ stop ≤ last)%nat ∧
    update_loop fuel s trip position round FILTER tr =
      Ok (with_labels s (relax_range FILTER tr stop (labels s))) ∧
    (∀ t, (tr ≤ t < stop)%nat →
          ∃ p, getPosition s t round = Ok p ∧ position < p) ∧
    ((stop < last)%nat → ∃ p, getPosition s stop round = Ok p ∧ p ≤ position).
Proof.
  revert s tr. induction fuel as [|fuel IH]; intros s tr Hre Hlen Hok HF Hr Htr Hf; [lia|].
  simpl. destruct (update_cond_is_ok s tr) as [[] Hc]; [done..| |]; rewrite Hc; simpl.
  - apply update_cond_true in Hc as (Hlt & p & Hp & Hpos); [|done].
    destruct (getPosition_Ok s tr round p) as [(e & He & _) _]; [done|].
    unfold update_body. rewrite (bind_eq_Ok _ _ e) by auto with simd. simpl rbind.
    set (e' := {| mValues := simd_min_u8 (mValues e) FILTER |}).
    assert (element_ok e') by (apply relaxed_ok; [by eapply Forall_lookup_1|done]).
    destruct (IH (with_labels s (<[tr := e']> (labels s))) (S tr))
      as (stop & Hstop & -> & Hbefore & Hat);
      [done|by simpl; rewrite length_insert|by apply Forall_insert|done|done|lia|lia|].
    exists stop. split; [lia|]. split; [|split].
    + unfold with_labels, e'. simpl. by rewrite relax_range_insert by (done || lia).
    + intros t Ht. destruct (decide (t = tr)) as [->|]; [eauto|].
      rewrite <- (with_labels_id s), <- (getPosition_insert_ne _ _ _ _ tr e') by done.
      apply Hbefore. lia.
    + intros Hs. rewrite <- (with_labels_id s), <- (getPosition_insert_ne _ _ _ _ tr e') by lia.
      by apply Hat.
  - exists tr. rewrite relax_range_empty, with_labels_id by lia.
    split_and!; [lia|lia|done|intros; lia|].
    intros Hlt. apply update_cond_false in Hc as [?|?]; [lia|done|done].
Qed.

End scan.

(** ** [update] *)

Section update.
Context {B : Simd128} {BL : Simd128Laws B}.
Implicit Types (s : ProfileReachedIndexSIMD B).

Lemma update_run s trip position round :
  index_wf s → isTrip (data s) trip = true → 0 < round < 16 →
  in_range 8 position →
  ∃ s', update s trip position round = Ok s' ∧ update_post s trip position round s'.
Proof.
  intros (Hd & Hlen & Hok & _) Ht Hr Hp.
  rewrite update_unfold, (proj2 (valid_args_true s trip round)) by done.
  destruct (makeMask_spec round) as (m & Hmk & Hm & Hmb); [lia|].
  rewrite (bind_eq_Ok _ _ _ Hmk). cbv beta.
  destruct (to_bytes_filter position round m) as [HF HFb]; [lia|done|done|].
  destruct (route_range_of_isTrip _ Hd trip Ht)
    as (r & first & last & Hr1 & Hr2 & Hr3 & Hrr & ? & ?).
  destruct (update_loop_run trip position round
              (simd_max_u8 (simd_set1_u8 position) m) r last
              (S (length (labels s))) s trip)
    as (stop & ? & -> & ? & ?); [done|lia|done|done|lia|lia|lia|].
  eexists. split; [done|].
  exists (simd_max_u8 (simd_set1_u8 position) m), first, last, stop.
  split_and!; (done || lia).
Qed.

(** The reference [update_all] on the same arguments. *)
Lemma update_all_run s trip position round :
  index_wf s → isTrip (data s) trip = true → 0 < round < 16 →
  in_range 8 position →
  ∃ (F : simd128_t) first last,
    route_range (data s) trip = Some (first, last) ∧
    simd128_ok F ∧ to_bytes F = filter_bytes position round ∧
    update_all s trip position round =
    Ok (with_labels s (relax_range F trip last (labels s))).
Proof.
  intros (Hd & _) Ht Hr Hp.
  rewrite update_all_unfold, (proj2 (valid_args_true s trip round)) by done.
  destruct (makeMask_spec round) as (m & Hmk & Hm & Hmb); [lia|].
  rewrite (bind_eq_Ok _ _ _ Hmk). cbv beta.
  destruct (to_bytes_filter position round m) as [HF HFb]; [lia|done|done|].
  destruct (route_range_of_isTrip _ Hd trip Ht)
    as (r & first & last & Hr1 & Hr2 & Hr3 & Hrr & _).
  rewrite (bind_eq_Ok _ _ r) by auto with simd.
  rewrite Nat.add_1_r, (bind_eq_Ok _ _ last) by auto with simd. eauto 10.
Qed.

(** A position after the filter was applied to the trips [a .. b-1]. *)
Lemma getPosition_relax_range s F position round a b t r' p :
  Forall element_ok (labels s) → simd128_ok F →
  to_bytes F = filter_bytes position round → 1 ≤ round ≤ 16 → 1 ≤ r' →
  getPosition s t r' = Ok p →
  getPosition (with_labels s (relax_range F a b (labels s))) t r' =
  Ok (if decide ((a ≤ t < b)%nat ∧ round ≤ r') then p `min` position else p).
Proof.
  intros Hok HF HFb Hr Hr' Hp. apply getPosition_Ok in Hp as (e & He & _ & Hp).
  assert (element_ok e) by (by eapply Forall_lookup_1).
  destruct (decide (a ≤ t < b)%nat) as [Hin|Hout].
  - eapply getPosition_lookup; [by apply relax_range_lookup_in|lia|].
    rewrite (values_relaxed _ _ position round) by done.
    rewrite (relax_bytes_lookup _ _ _ _ p) by auto with simd.
    f_equal. do 2 destruct (decide _); (done || (exfalso; lia)).
  - rewrite decide_False by tauto.
    eapply getPosition_lookup; [simpl; by rewrite relax_range_lookup_out|lia|done].
Qed.

End update.

(** ** What [update] guarantees *)

Section update_properties.
Context {B : Simd128} {BL : Simd128Laws B}.
Implicit Types (s : ProfileReachedIndexSIMD B).

(** A call that returns has passed its three assertions. *)
Lemma update_Ok_inv s trip position round s' :
  update s trip position round = Ok s' →
  isTrip (data s) trip = true ∧ 0 < round < 16.
Proof.
  rewrite update_unfold. destruct (valid_args s trip round) eqn:Hv; [|done].
  intros _. by apply valid_args_true.
Qed.

Lemma update_Ok_post s trip position round s' :
  index_wf s → in_range 8 position →
  update s trip position round = Ok s' →
  update_post s trip position round s'.
Proof.
  intros Hwf Hp Hu. destruct (update_Ok_inv _ _ _ _ _ Hu) as [Ht Hr].
  destruct (update_run s trip position round) as (s'' & Hu' & Hpost); [done..|].
  congruence.
Qed.

Lemma update_post_data s trip position round s' :
  update_post s trip position round s' →
  data s' = data s ∧ defaultLabels s' = defaultLabels s ∧
  length (labels s') = length (labels s).
Proof.
  intros (F & first & last & stop & _ & _ & _ & _ & _ & _ & -> & _).
  simpl. by rewrite relax_range_length.
Qed.

Lemma update_post_wf s trip position round s' :
  index_wf s → update_post s trip position round s' → index_wf s'.
Proof.
  intros (Hd & Hlen & Hok & Ht) (F & first & last & stop & _ & _ & _ & _ & HF & _ & -> & _).
  unfold index_wf. simpl. rewrite relax_range_length.
  split_and!; try done. by apply relax_range_ok.
Qed.

(** Every position after the call, in terms of the position before. *)
Lemma update_post_getPosition s trip position round s' :
  index_wf s → 0 < round < 16 → update_post s trip position round s' →
  ∃ first last stop,
    route_range (data s) trip = Some (first, last) ∧
    (first ≤ trip < last)%nat ∧ (trip ≤ stop ≤ last)%nat ∧
    (∀ t, (trip ≤ t < stop)%nat →
          ∃ p, getPosition s t round = Ok p ∧ position < p) ∧
    ((stop < last)%nat → ∃ p, getPosition s stop round = Ok p ∧ p ≤ position) ∧
    ∀ t r' p, 1 ≤ r' → getPosition s t r' = Ok p →
      getPosition s' t r' =
      Ok (if decide ((trip ≤ t < stop)%nat ∧ round ≤ r')
          then p `min` position else p).
Proof.
  intros (_ & _ & Hok & _) Hr
    (F & first & last & stop & ? & ? & ? & ? & HF & HFb & -> & ? & ?).
  exists first, last, stop. split_and!; try (done || lia). intros t r' p Hr' Hp.
  apply (getPosition_relax_range s F position round); (done || lia).
Qed.

(** On valid arguments [alreadyReached] reads one byte and compares. *)
Lemma alreadyReached_valid s trip position round :
  index_wf s → isTrip (data s) trip = true → 0 < round < 16 →
  ∃ p, getPosition s trip round = Ok p ∧ in_range 8 p ∧
       alreadyReached s trip position round = Ok (bool_decide (p ≤ position)).
Proof.
  intros (Hd & Hlen & Hok & _) Ht Hr.
  destruct (getPosition_in_bounds s trip round) as (e & p & _ & Hpos & _ & Hp);
    [done|apply isTrip_true in Ht; lia|lia|].
  exists p. split_and!; [done..|].
  by rewrite alreadyReached_unfold, (proj2 (valid_args_true s trip round)), Hpos.
Qed.

(** After the call the queried position is recorded at every round [r']
    whose old position was no better informed than the one at [round]. *)
Lemma update_post_reached s trip position round s' r' :
  index_wf s → isTrip (data s) trip = true → 0 < round < 16 →
  update_post s trip position round s' → round ≤ r' < 16 →
  (∀ q p, getPosition s trip round = Ok q → getPosition s trip r' = Ok p → p ≤ q) →
  alreadyReached s' trip position r' = Ok true.
Proof.
  intros Hwf Ht Hr Hpost Hr' Hle.
  destruct (update_post_data _ _ _ _ _ Hpost) as (Hdata & _ & _).
  destruct (alreadyReached_valid s trip position r') as (p & Hpos & _ & _);
    [done|done|lia|].
  destruct (alreadyReached_valid s' trip position r') as (p' & Hpos' & _ & ->);
    [by eapply update_post_wf|by rewrite Hdata|lia|].
  destruct (update_post_getPosition _ _ _ _ _ Hwf Hr Hpost)
    as (first & last & stop & _ & ? & ? & _ & Hs & Hget).
  rewrite (Hget trip r' p ltac:(lia) Hpos) in Hpos'. injection Hpos' as <-.
  do 2 f_equal. apply bool_decide_eq_true_2.
  destruct (decide (trip < stop)%nat); [rewrite decide_True by lia; lia|].
  rewrite decide_False by lia. assert (stop = trip) as -> by lia.
  destruct Hs as (q & Hq & ?); [lia|]. specialize (Hle q p Hq Hpos). lia.
Qed.

End update_properties.

(** ** The fuelled loop and the transition system *)

Section adequacy.
Context {B : Simd128} {BL : Simd128Laws B}.
Context (trip : nat) (position round : Z) (FILTER : @simd128_t B).
Implicit Types (s : ProfileReachedIndexSIMD B).

Local Abbreviation step := (update_step trip position round FILTER).
Local Abbreviation loop fuel s tr :=
  (update_loop fuel s trip position round FILTER tr).

Lemma update_loop_unfold fuel s tr :
  loop (S fuel) s tr =
  do c <- update_cond s trip position round tr;
  if c
  then do s' <- update_body s FILTER tr; loop fuel s' (S tr)
  else Ok s.
Proof. done. Qed.

(** A normal return of the fuelled loop is a run of the transition system
    from the start configuration to one whose condition is false, in fewer
    steps than there was fuel. *)
Lemma update_loop_sound fuel s tr s' :
  loop fuel s tr = Ok s' →
  ∃ n, (n < fuel)%nat ∧ nsteps step n (s, tr) (s', (tr + n)%nat) ∧
       update_cond s' trip position round (tr + n) = Ok false.
Proof.
  revert s tr. induction fuel as [|fuel IH]; intros s tr Hl; [done|].
  rewrite update_loop_unfold in Hl.
  apply bind_Ok in Hl as ([] & Hc & Hl).
  - apply bind_Ok in Hl as (s1 & Hb & Hl).
    destruct (IH _ _ Hl) as (n & Hn & Hsteps & Hexit).
    exists (S n). rewrite <- Nat.add_succ_comm. split_and!; [lia| |done].
    eapply nsteps_l; [|done]. by constructor.
  - injection Hl as <-. exists 0%nat. rewrite Nat.add_0_r.
    split_and!; [lia|constructor|done].
Qed.

(** Conversely such a run is what the fuelled loop computes, given more
    fuel than the run has steps. *)
Lemma update_loop_complete n fuel s tr s' tr' :
  nsteps step n (s, tr) (s', tr') →
  update_cond s' trip position round tr' = Ok false →
  (n < fuel)%nat → loop fuel s tr = Ok s'.
Proof.
  revert fuel s tr. induction n as [|n IH]; intros fuel s tr Hsteps Hexit Hf;
    (destruct fuel as [|fuel]; [lia|]); rewrite update_loop_unfold.
  - inversion Hsteps; subst. by rewrite Hexit.
  - inversion Hsteps as [|? ? [s1 tr1] ? Hstep Hsteps']; subst.
    inversion Hstep as [? ? ? Hc Hb]; subst.
    rewrite Hc. simpl. rewrite Hb. simpl. apply (IH fuel); [done..|lia].
Qed.

(** More fuel never changes a normal return. *)
Lemma update_loop_fuel_mono fuel fuel' s tr s' :
  (fuel ≤ fuel')%nat → loop fuel s tr = Ok s' → loop fuel' s tr = Ok s'.
Proof.
  intros Hf (n & Hn & Hsteps & Hexit)%update_loop_sound.
  eapply update_loop_complete; [done..|lia].
Qed.

Lemma update_step_deterministic c c1 c2 : step c c1 → step c c2 → c1 = c2.
Proof. intros H1 H2. inversion H1; inversion H2; congruence. Qed.

End adequacy.
