(* ===== verification/Fixtures.v ===== *)
(** * Concrete timetables and index states

    Small inputs on which the theorems of the development are applied: the
    route of the specification's scenario (three trips of five stops) and a
    network of two routes, with freshly cleared indices on both backends.
    The indeterminate initial content of the label vectors is a visible
    pattern ([0xAA] bytes) so that a theorem depending on it would fail. *)

From S2P Require Import Prelude Timetable Simd128 Simd128Neon Simd128Sse.
From S2P Require Import ReachedIndex.

Local Open Scope Z_scope.

Definition route3 : Data :=
  {| routeOfTrip := [0; 0; 0]%nat;
     firstTripOfRoute := [0; 3]%nat;
     stopsOfTrip := [5; 5; 5] |}.

Definition net5 : Data :=
  {| routeOfTrip := [0; 0; 0; 1; 1]%nat;
     firstTripOfRoute := [0; 3; 5]%nat;
     stopsOfTrip := [5; 5; 5; 9; 9] |}.

Definition junk {B : Simd128} (trip : nat) : ReachedElement B :=
  {| mValues := of_bytes (replicate 16 0xAA) |}.

Definition fresh_neon (d : Data) : ProfileReachedIndexSIMD neon_backend :=
  clear (construct d junk junk).

Definition fresh_sse (d : Data) : ProfileReachedIndexSIMD sse_backend :=
  clear (construct d junk junk).

(** The state of [route3] after [update(1, 2, 3)]: trips 1 and 2 hold
    position 2 from round 3 on. *)
Definition route3_after : ProfileReachedIndexSIMD neon_backend :=
  match update (fresh_neon route3) 1 2 3 with
  | Ok s => s
  | Err _ => fresh_neon route3
  end.
