(* ===== verification/ReachedIndexProps.v ===== *)
(** * Properties of ProfileReachedIndexSIMD

    The behaviour of [clear], [alreadyReached] and [update] on every
    branch, for an arbitrary backend that satisfies [Simd128Laws]: which
    calls succeed, what a successful [update] does to every position, what
    stays untouched, and how each violated
    assertion is reported.  The witnesses apply the theorems to the states
    of [Fixtures] on the NEON backend. *)

From stdpp Require Import relations.
From S2P Require Import Prelude Timetable Simd128 Simd128Neon.
From S2P Require Import ReachedIndex ReachedIndexScan Fixtures.

Local Open Scope Z_scope.
Local Open Scope result_scope.

Section properties.
Context {B : Simd128} {BL : Simd128Laws B}.
Implicit Types (s : ProfileReachedIndexSIMD B).

(** C6: on a well-formed index, [update] with a valid trip, a round from 1
    to 15 and a byte position returns normally: no assertion fails, no
    access leaves the label or timetable vectors, and the result is again
    a well-formed index. *)
Theorem update_safe s trip position round :
  index_wf s → isTrip (data s) trip = true → 0 < round < 16 →
  in_range 8 position →
  ∃ s', update s trip position round = Ok s' ∧ index_wf s'.
Proof.
  intros Hwf Ht Hr Hp.
  destruct (update_run s trip position round) as (s' & Hu & Hpost); [done..|].
  exists s'. split; [done|]. by eapply update_post_wf.
Qed.

(** C4: the complete effect of a successful [update]: there is a stopping
    trip [stop] in the route of [trip], every trip from [trip] up to it was
    strictly worse than [position] at [round], the scan stopped at the end
    of the route or at a trip already as good, and a position changes only
    for those trips and the rounds from [round] on, where it becomes the
    minimum of its old value and [position]. *)
Theorem update_positions s trip position round s' :
  index_wf s → in_range 8 position →
  update s trip position round = Ok s' →
  ∃ first last stop,
    route_range (data s) trip = Some (first, last) ∧
    (first ≤ trip < last)%nat ∧ (trip ≤ stop ≤ last)%nat ∧
    (∀ t, (trip ≤ t < stop)%nat →
          ∃ p, getPosition s t round = Ok p ∧ position < p) ∧
    ((stop < last)%nat → ∃ p, getPosition s stop round = Ok p ∧ p ≤ position) ∧
    ∀ t r' p, 1 ≤ r' → getPosition s t r' = Ok p →
      getPosition s' t r' =
      Ok (if decide ((trip ≤ t < stop)%nat ∧ round ≤ r')
          then p `min` position else p).
Proof.
  intros Hwf Hp Hu. destruct (update_Ok_inv _ _ _ _ _ Hu) as [_ Hr].
  eauto using update_post_getPosition, update_Ok_post.
Qed.

(** C8: [update(trip, position, round)] leaves untouched every round
    before [round], every trip before [trip] and every trip from the end
    of the route of [trip] on. *)
Theorem update_frame s trip position round s' first last t r' p :
  index_wf s → in_range 8 position →
  update s trip position round = Ok s' →
  route_range (data s) trip = Some (first, last) →
  1 ≤ r' → r' < round ∨ (t < trip)%nat ∨ (last ≤ t)%nat →
  getPosition s t r' = Ok p → getPosition s' t r' = Ok p.
Proof.
  intros Hwf Hp Hu Hrr Hr' Hout Hpos. destruct (update_Ok_inv _ _ _ _ _ Hu) as [_ Hr].
  destruct (update_post_getPosition s trip position round s')
    as (first' & last' & stop & Hrr' & _ & ? & _ & _ & Hget);
    [by auto using update_Ok_post..|].
  rewrite (Hget _ _ _ Hr' Hpos), decide_False; [done|].
  assert (last' = last) by congruence. lia.
Qed.

(** C10: on a well-formed index [alreadyReached] with a valid trip and a
    round from 1 to 15 reads the stored position of that trip and round,
    a byte, and answers true exactly when it is at most [position] and
    false exactly when it is greater. *)
Theorem alreadyReached_spec s trip position round :
  index_wf s → isTrip (data s) trip = true → 0 < round < 16 →
  ∃ p, getPosition s trip round = Ok p ∧ in_range 8 p ∧
       (alreadyReached s trip position round = Ok true ↔ p ≤ position) ∧
       (alreadyReached s trip position round = Ok false ↔ position < p).
Proof.
  intros Hwf Ht Hr.
  destruct (alreadyReached_valid s trip position round) as (p & ? & ? & ->); [done..|].
  exists p. split_and!; [done..| |]; case_bool_decide; naive_solver lia.
Qed.

(** C9: after [update(trip, position, round)] the index answers
    [alreadyReached(trip, position, round)] with true. *)
Theorem update_records s trip position round s' :
  index_wf s → in_range 8 position →
  update s trip position round = Ok s' →
  alreadyReached s' trip position round = Ok true.
Proof.
  intros Hwf Hp Hu. destruct (update_Ok_inv _ _ _ _ _ Hu) as [Ht Hr].
  apply (update_post_reached s trip position round); auto using update_Ok_post with lia.
  intros q p Hq Hp'. assert (p = q) by congruence. lia.
Qed.

(** C20: [update] reports a violated assertion, and nothing else can go
    wrong: on a well-formed index a call fails exactly when the trip is not
    a trip of the timetable or the round is outside 1 to 15, and the
    failure is the assertion's. *)
Theorem update_error s trip position round e :
  index_wf s → in_range 8 position →
  update s trip position round = Err e ↔
  e = AssertionFailure ∧
  (isTrip (data s) trip = false ∨ round ≤ 0 ∨ 16 ≤ round).
Proof.
  intros Hwf Hp. rewrite <- valid_args_false.
  destruct (valid_args s trip round) eqn:Hv.
  - apply valid_args_true in Hv as [Ht Hr].
    destruct (update_run s trip position round) as (? & -> & _); [done..|].
    naive_solver.
  - rewrite update_unfold, Hv. naive_solver.
Qed.

(** C21: [alreadyReached] fails exactly when one of its assertions does, on
    a well-formed index. *)
Theorem alreadyReached_error s trip position round e :
  index_wf s →
  alreadyReached s trip position round = Err e ↔
  e = AssertionFailure ∧
  (isTrip (data s) trip = false ∨ round ≤ 0 ∨ 16 ≤ round).
Proof.
  intros Hwf. rewrite <- valid_args_false.
  destruct (valid_args s trip round) eqn:Hv.
  - apply valid_args_true in Hv as [Ht Hr].
    destruct (alreadyReached_valid s trip position round) as (? & _ & _ & ->); [done..|].
    naive_solver.
  - rewrite alreadyReached_unfold, Hv. naive_solver.
Qed.

(** C11: after [clear] every position of every trip, at every round, is the
    trip's stop count narrowed to a byte; when the stop count fits a byte
    it is the stop count itself, and [alreadyReached] then answers whether
    the stop count is at most the queried position: nothing is reached. *)
Theorem clear_sentinel s trip position round :
  index_wf s → isTrip (data s) trip = true → 0 < round < 16 →
  let stops := numberOfStopsInTrip (data s) trip in
  getPosition (clear s) trip round = Ok (wrap 8 stops) ∧
  (in_range 8 stops →
   alreadyReached (clear s) trip position round = Ok (bool_decide (stops ≤ position))).
Proof.
  intros Hwf Ht Hr stops. pose proof Hwf as (Hd & _ & _ & Hdl).
  assert (getPosition (clear s) trip round = Ok (wrap 8 stops)) as Hget
    by (apply getPosition_clear; (done || lia)).
  split; [done|]. intros Hs.
  destruct (alreadyReached_valid (clear s) trip position round) as (p & Hp & _ & ->);
    [by apply clear_wf|done..|].
  rewrite Hget in Hp. injection Hp as <-. by rewrite wrap_small.
Qed.

(** C31: [clear] forgets every update: the index cleared after an [update]
    is the index cleared before it, and clearing twice is clearing once. *)
Theorem clear_resets s trip position round s' :
  index_wf s → in_range 8 position →
  update s trip position round = Ok s' →
  clear s' = clear s ∧ clear (clear s) = clear s.
Proof.
  intros Hwf Hp Hu. split; [|done].
  destruct (update_post_data _ _ _ _ _ (update_Ok_post _ _ _ _ _ Hwf Hp Hu))
    as (Hd & Hdl & _).
  unfold clear, with_labels. by rewrite Hd, Hdl.
Qed.

(** C32: the constructor followed by [clear] yields a well-formed index that
    does not depend on the indeterminate initial content of the two
    vectors. *)
Theorem construct_clear d (u0 u1 u0' u1' : nat → ReachedElement B) :
  Data_wf d →
  index_wf (clear (construct d u0 u1)) ∧
  clear (construct d u0 u1) = clear (construct d u0' u1').
Proof.
  intros Hd. split.
  - apply clear_wf; [done|apply defaultLabels_construct].
  - unfold clear, with_labels. by rewrite !defaultLabels_construct.
Qed.

(** C33: a write through [operator()] inside the storage is read back,
    narrowed to a byte, changes no other position of any trip, and keeps
    the index well-formed. *)
Theorem operator_roundtrip s trip round v :
  index_wf s → isTrip (data s) trip = true → 1 ≤ round ≤ 16 →
  ∃ s', call_operator_assign s trip round v = Ok s' ∧ index_wf s' ∧
        call_operator s' trip round = Ok (wrap 8 v) ∧
        ∀ trip' round', 1 ≤ round' → (trip', round') ≠ (trip, round) →
          call_operator s' trip' round' = call_operator s trip' round'.
Proof.
  intros Hwf Ht Hr. pose proof Hwf as (_ & _ & Hok & _).
  destruct (setPosition_run s trip round v) as (s' & Hs & ? & _); [done..|].
  exists s'. split_and!; [done..| |].
  - by eapply getPosition_setPosition.
  - intros trip' round' ??. by eapply getPosition_setPosition_ne.
Qed.

(** C19: the scan of [update] terminates: from the start configuration the
    transition system reaches, in at most as many steps as there are trips
    up to the end of the route, a configuration whose loop condition is
    false, and the fuelled loop returns that configuration's index for
    every amount of fuel above the number of steps. *)
Theorem update_terminates s trip position round (F : simd128_t) first last :
  index_wf s → isTrip (data s) trip = true → 0 < round < 16 →
  simd128_ok F → route_range (data s) trip = Some (first, last) →
  ∃ n s', (n ≤ last - trip)%nat ∧
    nsteps (update_step trip position round F) n (s, trip) (s', (trip + n)%nat) ∧
    update_cond s' trip position round (trip + n) = Ok false ∧
    ∀ fuel, (n < fuel)%nat →
      update_loop fuel s trip position round F trip = Ok s'.
Proof.
  intros (Hd & Hlen & Hok & _) Ht Hr HF Hrr.
  destruct (route_range_of_isTrip _ Hd trip Ht)
    as (r & f & l & Hr1 & Hr2 & Hr3 & Hrr' & ? & ?).
  assert (l = last) as -> by congruence.
  destruct (update_loop_run trip position round F r last (S (last - trip)) s trip)
    as (stop & ? & Hrun & _); [done|lia|done|done|lia|lia|lia|].
  destruct (update_loop_sound _ _ _ _ _ _ _ _ Hrun) as (n & Hn & Hsteps & Hexit).
  eexists n, _. split_and!; [lia|done|done|].
  intros fuel Hfuel. by eapply update_loop_complete.
Qed.

End properties.

(** ** The theorems at concrete inputs

    On the route of three trips with five stops each; [route3_after] is
    that index after [update(1, 2, 3)]. *)

Lemma update_safe_witness :
  ∃ s', update (fresh_neon route3) 0 2 1 = Ok s' ∧ index_wf s'.
Proof. apply update_safe; [by_compute|done|lia|by_compute]. Defined.

Lemma update_positions_witness :
  ∃ first last stop,
    route_range (data (fresh_neon route3)) 1 = Some (first, last) ∧
    (first ≤ 1 < last)%nat ∧ (1 ≤ stop ≤ last)%nat ∧
    (∀ t, (1 ≤ t < stop)%nat →
          ∃ p, getPosition (fresh_neon route3) t 3 = Ok p ∧ 2 < p) ∧
    ((stop < last)%nat →
     ∃ p, getPosition (fresh_neon route3) stop 3 = Ok p ∧ p ≤ 2) ∧
    ∀ t r' p, 1 ≤ r' → getPosition (fresh_neon route3) t r' = Ok p →
      getPosition route3_after t r' =
      Ok (if decide ((1 ≤ t < stop)%nat ∧ 3 ≤ r') then p `min` 2 else p).
Proof. apply update_positions; [by_compute|by_compute|by vm_compute]. Defined.

Lemma update_frame_witness : getPosition route3_after 0 7 = Ok 5.
Proof.
  apply (update_frame (fresh_neon route3) 1 2 3 _ 0%nat 3%nat);
    [by_compute|by_compute|by vm_compute|by vm_compute|lia|lia|by vm_compute].
Defined.

Lemma alreadyReached_spec_witness :
  ∃ p, getPosition route3_after 2 3 = Ok p ∧ in_range 8 p ∧
       (alreadyReached route3_after 2 4 3 = Ok true ↔ p ≤ 4) ∧
       (alreadyReached route3_after 2 4 3 = Ok false ↔ 4 < p).
Proof. apply alreadyReached_spec; [by_compute|done|lia]. Defined.

Lemma update_records_witness : alreadyReached route3_after 1 2 3 = Ok true.
Proof.
  apply (update_records (fresh_neon route3)); [by_compute|by_compute|by vm_compute].
Defined.

Lemma update_error_witness :
  update (fresh_neon route3) 3 2 1 = Err AssertionFailure ↔
  AssertionFailure = AssertionFailure ∧
  (isTrip (data (fresh_neon route3)) 3 = false ∨ 1 ≤ 0 ∨ 16 ≤ 1).
Proof. apply update_error; by_compute. Defined.

Lemma alreadyReached_error_witness :
  alreadyReached (fresh_neon route3) 0 2 16 = Err AssertionFailure ↔
  AssertionFailure = AssertionFailure ∧
  (isTrip (data (fresh_neon route3)) 0 = false ∨ 16 ≤ 0 ∨ 16 ≤ 16).
Proof. apply alreadyReached_error; by_compute. Defined.

Lemma clear_sentinel_witness :
  let stops := numberOfStopsInTrip (data route3_after) 1 in
  getPosition (clear route3_after) 1 3 = Ok (wrap 8 stops) ∧
  (in_range 8 stops →
   alreadyReached (clear route3_after) 1 4 3 = Ok (bool_decide (stops ≤ 4))).
Proof. apply clear_sentinel; [by_compute|done|lia]. Defined.

Lemma clear_resets_witness :
  clear route3_after = clear (fresh_neon route3) ∧
  clear (clear (fresh_neon route3)) = clear (fresh_neon route3).
Proof.
  apply (clear_resets (fresh_neon route3) 1 2 3);
    [by_compute|by_compute|by vm_compute].
Defined.

Lemma construct_clear_witness :
  index_wf (clear (construct (B := neon_backend) net5 junk junk)) ∧
  clear (construct net5 junk junk) = clear (construct net5 (λ _, fill 0) (λ _, fill 1)).
Proof. apply construct_clear. by_compute. Defined.

Lemma operator_roundtrip_witness :
  ∃ s', call_operator_assign (fresh_neon route3) 2 16 258 = Ok s' ∧ index_wf s' ∧
        call_operator s' 2 16 = Ok (wrap 8 258) ∧
        ∀ trip' round', 1 ≤ round' → (trip', round') ≠ (2%nat, 16) →
          call_operator s' trip' round' = call_operator (fresh_neon route3) trip' round'.
Proof. apply operator_roundtrip; [by_compute|done|lia]. Defined.

Lemma update_terminates_witness :
  ∃ n s', (n ≤ 3 - 1)%nat ∧
    nsteps (update_step 1 2 3 (of_bytes (filter_bytes 2 3))) n
      (fresh_neon route3, 1%nat) (s', (1 + n)%nat) ∧
    update_cond s' 1 2 3 (1 + n) = Ok false ∧
    ∀ fuel, (n < fuel)%nat →
      update_loop fuel (fresh_neon route3) 1 2 3 (of_bytes (filter_bytes 2 3)) 1 = Ok s'.
Proof.
  apply (update_terminates _ _ _ _ _ 0%nat);
    [by_compute|done|lia|by_compute|by vm_compute].
Defined.
