(* ===== verification/ReachedIndexInv.v ===== *)
(** * The invariant of the reachability index

    Between two calls of [clear] the labels obey two monotonicity laws: in
    every label the positions fall (weakly) with the round, and inside a
    route they fall with the trip id, round by round.  [clear] establishes
    both and [update] preserves them; a write through [operator()] need
    not.  From the invariant follow the two properties of [update] that do
    not hold on arbitrary label contents: an update is visible at every
    later round, and stopping the scan at the first trip that is already as
    good loses nothing. *)

From S2P Require Import Prelude Timetable Simd128 Simd128Neon.
From S2P Require Import ReachedIndex ReachedIndexScan Fixtures.

Local Open Scope Z_scope.
Local Open Scope result_scope.

Section invariant.
Context {B : Simd128}.
Implicit Types (s : ProfileReachedIndexSIMD B).

(** In every label the position at a later round is at most the position
    at an earlier one (all sixteen bytes, the unused last one included). *)
Definition rounds_monotone s : Prop := Forall descending (positions s).

(** A trip's label is, byte by byte, at most the label of the trip before
    it when both belong to the same route. *)
Definition route_monotone s : Prop :=
  Forall (λ t, routeOfTrip (data s) !! t = routeOfTrip (data s) !! S t →
               match positions s !! t, positions s !! S t with
               | Some l, Some l' => lanes_le l' l
               | _, _ => True
               end) (seq 0 (length (labels s))).

Definition index_inv s : Prop :=
  index_wf s ∧ rounds_monotone s ∧ route_monotone s.

#[export] Instance route_monotone_dec s : Decision (route_monotone s).
Proof.
  unfold route_monotone. apply Forall_dec. intros t.
  destruct (positions s !! t), (positions s !! S t); apply _.
Defined.

#[export] Instance index_inv_dec s : Decision (index_inv s).
Proof. unfold index_inv, rounds_monotone. apply _. Defined.

End invariant.

Section invariant_lemmas.
Context {B : Simd128} {BL : Simd128Laws B}.
Implicit Types (s : ProfileReachedIndexSIMD B).

Lemma positions_lookup s (t : nat) : positions s !! t = values <$> labels s !! t.
Proof. apply list_lookup_fmap. Qed.

Lemma positions_Some s (t : nat) l :
  positions s !! t = Some l ↔ ∃ e, labels s !! t = Some e ∧ l = values e.
Proof. rewrite positions_lookup, fmap_Some. done. Qed.

Lemma positions_ok s (t : nat) l :
  Forall element_ok (labels s) → positions s !! t = Some l → lanes_ok 16 8 l.
Proof.
  intros Hok (e & He & ->)%positions_Some. apply values_ok.
  by eapply Forall_lookup_1.
Qed.

Lemma getPosition_positions s trip round p :
  getPosition s trip round = Ok p ↔
  ∃ l, positions s !! trip = Some l ∧ 1 ≤ round ∧
       l !! Z.to_nat (round - 1) = Some p.
Proof.
  rewrite getPosition_Ok. setoid_rewrite positions_Some. split.
  - intros (e & He & ? & Hp). exists (values e). split_and!; eauto; lia.
  - intros (l & (e & He & ->) & ? & Hp). exists e. split_and!; (done || lia).
Qed.

Lemma route_monotone_step s (t : nat) l l' :
  route_monotone s →
  routeOfTrip (data s) !! t = routeOfTrip (data s) !! S t →
  positions s !! t = Some l → positions s !! S t = Some l' → lanes_le l' l.
Proof.
  intros Hm Hr Hl Hl'. unfold route_monotone in Hm. rewrite Forall_lookup in Hm.
  assert (t < length (labels s))%nat as Ht.
  { apply positions_Some in Hl as (e & ?%lookup_lt_Some & _). done. }
  specialize (Hm t t (lookup_seq_lt _ _ _ Ht) Hr). by rewrite Hl, Hl' in Hm.
Qed.

Lemma route_monotone_intro s :
  (∀ (t : nat) l l',
     routeOfTrip (data s) !! t = routeOfTrip (data s) !! S t →
     positions s !! t = Some l → positions s !! S t = Some l' → lanes_le l' l) →
  route_monotone s.
Proof.
  intros H. apply Forall_lookup. intros i t [Ht _]%lookup_seq Hr.
  simpl in Ht. subst t.
  destruct (positions s !! i) eqn:?, (positions s !! S i) eqn:?; eauto.
Qed.

(** Along a route: a later trip's label is below an earlier trip's. *)
Lemma route_monotone_chain s trip first last (t t' : nat) l l' :
  index_inv s → isTrip (data s) trip = true →
  route_range (data s) trip = Some (first, last) →
  (first ≤ t ≤ t')%nat → (t' < last)%nat →
  positions s !! t = Some l → positions s !! t' = Some l' → lanes_le l' l.
Proof.
  intros ((Hd & Hlen & Hok & _) & _ & Hm) Htrip%isTrip_true Hrr [Hft Htt'] Hlast.
  revert l'. induction Htt' as [|t' Htt' IH]; intros l' Hl Hl'.
  { simplify_eq. apply lanes_le_refl. }
  destruct (lookup_lt_is_Some_2 (positions s) t') as [l1 Hl1].
  { apply lookup_lt_Some in Hl'. lia. }
  apply (lanes_le_trans _ l1); [|apply IH; (done || lia)].
  apply (route_monotone_step s t'); [done| |done..].
  destruct (route_range_uniform _ Hd trip first last t') as [-> _]; [done|done|lia|].
  destruct (route_range_uniform _ Hd trip first last (S t')) as [-> _]; (done || lia).
Qed.

(** [clear] establishes the invariant. *)
Lemma clear_inv s :
  Data_wf (data s) → defaultLabels s = default_template (data s) →
  index_inv (clear s).
Proof.
  intros Hd Ht. split; [by apply clear_wf|]. split.
  - apply Forall_fmap, Forall_lookup. intros t e He. simpl in He.
    rewrite Ht, default_template_lookup in He. case_decide; simplify_eq/=.
    rewrite values_fill. apply descending_lookup.
    intros i j x y _ [-> _]%lookup_replicate [-> _]%lookup_replicate. lia.
  - apply route_monotone_intro. intros t l l' Hr (e & He & ->)%positions_Some
      (e' & He' & ->)%positions_Some. simpl in *.
    rewrite Ht, default_template_lookup in He, He'.
    do 2 case_decide; simplify_eq. rewrite !values_fill.
    destruct (route_range_of_isTrip _ Hd t) as (r & f & l & _ & _ & _ & Hrr & ? & ?);
      [by apply isTrip_true|].
    assert (S t < l)%nat.
    { destruct (route_range_of_isTrip _ Hd (S t)) as (r' & f' & l2 & Hr1 & Hr2 & Hr3 & Hrr' & ? & ?);
        [by apply isTrip_true|].
      unfold route_range in Hrr, Hrr'. rewrite Hr in Hrr. rewrite Hrr in Hrr'.
      simplify_eq. lia. }
    destruct (route_range_uniform _ Hd t f l (S t)) as [_ ->]; [done|done|lia|].
    apply lanes_le_refl.
Qed.

(** The labels, as bytes, after the filter was applied to the trips
    [a .. b-1]. *)
Lemma positions_relax_range s (F : simd128_t) position round a b (t : nat) :
  Forall element_ok (labels s) → simd128_ok F →
  to_bytes F = filter_bytes position round →
  positions (with_labels s (relax_range F a b (labels s))) !! t =
  (λ l, if decide (a ≤ t < b)%nat then relax_bytes position round l else l) <$>
    positions s !! t.
Proof.
  intros Hok HF HFb. rewrite !positions_lookup. simpl.
  rewrite relax_range_lookup. destruct (labels s !! t) as [e|] eqn:He; simpl; [|done].
  case_decide; [|done]. f_equal. apply values_relaxed; [|done..].
  by eapply Forall_lookup_1.
Qed.

Lemma relax_range_rounds s (F : simd128_t) position round a b :
  1 ≤ round ≤ 16 → Forall element_ok (labels s) → simd128_ok F →
  to_bytes F = filter_bytes position round → rounds_monotone s →
  rounds_monotone (with_labels s (relax_range F a b (labels s))).
Proof.
  intros Hr Hok HF HFb Hm. apply Forall_lookup. intros t l Hl.
  rewrite (positions_relax_range _ _ position round) in Hl by done.
  apply fmap_Some in Hl as (l0 & Hl0 & ->).
  pose proof (Forall_lookup_1 _ _ _ _ Hm Hl0).
  case_decide; [|done]. apply relax_bytes_descending; [done| |done].
  by eapply positions_ok.
Qed.

End invariant_lemmas.

(** ** [update] preserves the invariant *)

Section preservation.
Context {B : Simd128} {BL : Simd128Laws B}.
Context (s : ProfileReachedIndexSIMD B) (trip : nat) (position round : Z).
Context (Hinv : index_inv s) (Hround : 0 < round < 16).
Context (F : @simd128_t B) (first last stop : nat).
Context (HF : simd128_ok F) (HFb : to_bytes F = filter_bytes position round).
Context (Hrr : route_range (data s) trip = Some (first, last)).
Context (Hfirst : (first ≤ trip ≤ stop)%nat).
Context (Hlast : (stop ≤ last ≤ length (labels s))%nat).
Context (Hstop : (stop < last)%nat →
                 ∃ p, getPosition s stop round = Ok p ∧ p ≤ position).

Local Abbreviation s' := (with_labels s (relax_range F trip stop (labels s))).

(** The trip after a relaxed trip of the same route is a trip of the
    scanned route. *)
Lemma same_route_in_range (t : nat) :
  (trip ≤ t < stop)%nat → (S t < length (labels s))%nat →
  routeOfTrip (data s) !! t = routeOfTrip (data s) !! S t → (S t < last)%nat.
Proof.
  destruct Hinv as ((Hd & Hlen & _) & _). intros Ht HSt Hsame.
  assert (trip < numberOfTrips (data s))%nat by lia.
  destruct (route_range_uniform _ Hd trip first last t) as [Ht' _]; [done|done|lia|].
  destruct (route_range_of_isTrip _ Hd (S t)) as (r & f & l & H1 & H2 & H3 & _ & ? & ?);
    [apply isTrip_true; lia|].
  unfold route_range in Hrr. rewrite <- Ht', Hsame, H1 in Hrr. simpl in Hrr.
  rewrite H2, H3 in Hrr. simplify_eq/=. lia.
Qed.

Lemma relax_range_route : route_monotone s'.
Proof.
  destruct Hinv as ((Hd & Hlen & Hok & _) & Hrm & Hm).
  apply route_monotone_intro. intros t l l' Hsame Hl Hl'. simpl in Hsame.
  rewrite (positions_relax_range _ _ position round) in Hl, Hl' by done.
  apply fmap_Some in Hl as (l0 & Hl0 & ->), Hl' as (l0' & Hl0' & ->).
  pose proof (route_monotone_step _ _ _ _ Hm Hsame Hl0 Hl0') as Hle.
  pose proof (positions_ok _ _ _ Hok Hl0). pose proof (positions_ok _ _ _ Hok Hl0').
  destruct (decide (trip ≤ t < stop)%nat) as [Ht|Ht],
    (decide (trip ≤ S t < stop)%nat) as [HSt|HSt]; [| | |done].
  - apply relax_bytes_mono; (done || lia).
  - assert (S t = stop) as Heq by lia.
    destruct Hstop as (q & Hq%getPosition_positions & ?).
    { rewrite <- Heq. apply same_route_in_range; [done| |done].
      apply lookup_lt_Some in Hl0'. unfold positions in Hl0'.
      by rewrite length_fmap in Hl0'. }
    destruct Hq as (l1 & Hl1 & _ & Hq). rewrite <- Heq, Hl0' in Hl1. simplify_eq.
    eapply relax_bytes_above; [lia|done| |done..].
    by apply (Forall_lookup_1 _ _ _ _ Hrm Hl0').
  - apply (lanes_le_trans _ l0'); [|done]. apply relax_bytes_le; [lia|done].
Qed.

Lemma relax_range_inv : index_inv s'.
Proof.
  destruct Hinv as (Hwf & Hrm & Hm). pose proof Hwf as (Hd & Hlen & Hok & Ht).
  split_and!.
  - unfold index_wf. simpl. rewrite relax_range_length.
    split_and!; try done. by apply relax_range_ok.
  - apply (relax_range_rounds _ _ position round); (done || lia).
  - apply relax_range_route.
Qed.

(** The trips the scan did not visit are already as good: the filter
    would not change them. *)
Lemma relax_range_extend :
  relax_range F trip stop (labels s) = relax_range F trip last (labels s).
Proof.
  destruct Hinv as ((Hd & Hlen & Hok & _) & Hrm & Hm).
  apply list_eq. intros t. rewrite !relax_range_lookup.
  destruct (labels s !! t) as [e|] eqn:He; simpl; [|done]. f_equal.
  assert (element_ok e) by (by eapply Forall_lookup_1).
  do 2 destruct (decide _); try (done || (exfalso; lia)).
  destruct Hstop as (q & Hq%getPosition_positions & Hle); [lia|].
  destruct Hq as (l1 & Hl1 & _ & Hq).
  apply values_inj; [done|by auto with simd|]. symmetry.
  rewrite (values_relaxed _ _ position round) by done.
  assert (positions s !! t = Some (values e)) as Hl by (apply positions_Some; eauto).
  pose proof (route_monotone_chain s trip first last stop t _ _ Hinv
    ltac:(apply isTrip_true; lia) Hrr ltac:(lia) ltac:(lia) Hl1 Hl) as Hch.
  destruct (lanes_le_lookup (values e) l1) as [[_ Hall] _]; [done|].
  destruct (lookup_lt_is_Some_2 (values e) (Z.to_nat (round - 1))) as [x Hx].
  { rewrite (lanes_ok_length 16 8) by auto with simd. lia. }
  assert (1 ≤ round ≤ 16) as Hr16 by lia.
  apply (relax_bytes_id position round Hr16 (values e) x); [auto with simd| |done|].
  - apply (Forall_lookup_1 _ _ _ _ Hrm Hl).
  - specialize (Hall _ _ _ Hx Hq). lia.
Qed.

End preservation.

(** ** What the invariant gives *)

Section with_invariant.
Context {B : Simd128} {BL : Simd128Laws B}.
Implicit Types (s : ProfileReachedIndexSIMD B).

Lemma rounds_monotone_getPosition s t r1 r2 x y :
  rounds_monotone s → 1 ≤ r1 ≤ r2 →
  getPosition s t r1 = Ok x → getPosition s t r2 = Ok y → y ≤ x.
Proof.
  intros Hm Hr (l & Hl & _ & Hx)%getPosition_positions
    (l' & Hl' & _ & Hy)%getPosition_positions. simplify_eq.
  eapply (descending_lookup_le l); [|..|done|done]; [|lia].
  by apply (Forall_lookup_1 _ _ _ _ Hm Hl).
Qed.

Lemma update_post_inv s trip position round s' :
  index_inv s → 0 < round < 16 → update_post s trip position round s' →
  index_inv s'.
Proof.
  intros Hinv Hr (F & first & last & stop & ? & ? & ? & ? & ? & ? & -> & _ & ?).
  apply (relax_range_inv s trip position round Hinv Hr F first last stop);
    (done || lia).
Qed.

(** C7: [update] preserves the invariant of the index: well-formedness,
    positions falling with the round in every label, and positions
    falling with the trip id inside every route. *)
Theorem update_inv s trip position round s' :
  index_inv s → in_range 8 position →
  update s trip position round = Ok s' → index_inv s'.
Proof.
  intros Hinv Hp Hu. destruct (update_Ok_inv _ _ _ _ _ Hu) as [_ Hr].
  eapply update_post_inv; [done..|]. by apply update_Ok_post; [apply Hinv|..].
Qed.

(** C1: propagation to later rounds: after [update(trip, position, round)]
    on an index whose labels fall with the round, [alreadyReached(trip,
    position, r')] is true for every round [r'] from [round] to 15. *)
Theorem update_propagates s trip position round s' r' :
  index_wf s → rounds_monotone s → in_range 8 position →
  update s trip position round = Ok s' →
  round ≤ r' < 16 →
  alreadyReached s' trip position r' = Ok true.
Proof.
  intros Hwf Hrm Hp Hu Hr'. destruct (update_Ok_inv _ _ _ _ _ Hu) as [Ht Hr].
  apply (update_post_reached s trip position round); auto using update_Ok_post.
  intros q p. apply rounds_monotone_getPosition; [done|lia].
Qed.

(** C2: the early exit of the scan loses nothing: on an index that
    satisfies the invariant, [update] returns what the scan without the
    early exit returns, the filter applied to every trip from [trip] to the
    end of its route; on invalid arguments both fail alike. *)
Theorem update_early_exit s trip position round :
  index_inv s → in_range 8 position →
  update s trip position round = update_all s trip position round.
Proof.
  intros Hinv Hp. pose proof Hinv as (Hwf & _).
  destruct (valid_args s trip round) eqn:Hv;
    [|by rewrite update_unfold, update_all_unfold, Hv].
  apply valid_args_true in Hv as [Ht Hr].
  destruct (update_run s trip position round)
    as (s' & -> & F & first & last & stop & ? & ? & ? & ? & ? & ? & -> & _ & ?);
    [done..|].
  destruct (update_all_run s trip position round)
    as (F' & first' & last' & ? & ? & ? & ->); [done..|].
  assert (F' = F) as -> by (apply to_bytes_inj; congruence).
  simplify_eq. do 2 f_equal.
  apply (relax_range_extend s trip position round Hinv Hr F first last stop);
    (done || lia).
Qed.

End with_invariant.

(** ** The theorems at concrete inputs *)

Lemma update_inv_witness : index_inv route3_after.
Proof.
  apply (update_inv (fresh_neon route3) 1 2 3);
    [by_compute|by_compute|by vm_compute].
Defined.

Lemma update_propagates_witness : alreadyReached route3_after 1 2 9 = Ok true.
Proof.
  apply (update_propagates (fresh_neon route3) 1 2 3);
    [by_compute|by_compute|by_compute|by vm_compute|lia].
Defined.

Lemma update_early_exit_witness :
  update route3_after 0 2 3 = update_all route3_after 0 2 3.
Proof. apply update_early_exit; by_compute. Defined.
