(* ===== verification/ReachedIndexRun.v ===== *)
(** * The index under sequences of calls

    The search loop clears the index once per query and then interleaves
    [alreadyReached] and [update]; privileged callers may also write
    through [operator()].  This file models a sequence of the mutating
    calls as a list of operations run in order, and shows what holds of
    every index the checked interface can produce: the calls succeed, the
    invariant holds, positions never increase and an answer "reached" is
    never withdrawn between two clears, and the scenario of the
    specification plays out as described on every backend.  It also shows,
    on concrete inputs, what a write through [operator()] breaks. *)

From S2P Require Import Prelude Timetable Simd128 Simd128Neon Simd128Sse.
From S2P Require Import ReachedIndex ReachedIndexScan Fixtures ReachedIndexInv.

Local Open Scope Z_scope.
Local Open Scope result_scope.

(** The calls that change the index. *)
Inductive op : Type :=
  | Clear
  | Update (trip : nat) (position round : Z)
  | Assign (trip : nat) (round value : Z).

#[export] Instance op_eq_dec : EqDecision op.
Proof. solve_decision. Defined.

Section run.
Context {B : Simd128}.
Implicit Types (s : ProfileReachedIndexSIMD B) (o : op) (ops : list op).

Definition exec s o : result (ProfileReachedIndexSIMD B) :=
  match o with
  | Clear => Ok (clear s)
  | Update trip position round => update s trip position round
  | Assign trip round value => call_operator_assign s trip round value
  end.

Fixpoint run s ops : result (ProfileReachedIndexSIMD B) :=
  match ops with
  | [] => Ok s
  | o :: ops => do s' <- exec s o; run s' ops
  end.

(** An operation of the checked interface: [clear], or [update] with a
    position that is a byte. *)
Definition checked o : Prop :=
  match o with
  | Clear => True
  | Update _ position _ => in_range 8 position
  | Assign _ _ _ => False
  end.

(** An [update] of the checked interface. *)
Definition is_update o : Prop :=
  match o with
  | Update _ position _ => in_range 8 position
  | _ => False
  end.

(** A checked operation whose assertions hold on the timetable [d]. *)
Definition valid_op (d : Data) o : Prop :=
  match o with
  | Clear => True
  | Update trip position round =>
      isTrip d trip = true ∧ 0 < round < 16 ∧ in_range 8 position
  | Assign _ _ _ => False
  end.

(** The indices the search loop can hold: constructed on [d], cleared, and
    then driven through checked operations only. *)
Definition reachable (d : Data) s : Prop :=
  ∃ (u0 u1 : nat → ReachedElement B) ops,
    Forall checked ops ∧ run (construct d u0 u1) (Clear :: ops) = Ok s.

#[export] Instance checked_dec o : Decision (checked o).
Proof. destruct o; apply _. Defined.

#[export] Instance is_update_dec o : Decision (is_update o).
Proof. destruct o; apply _. Defined.

#[export] Instance valid_op_dec d o : Decision (valid_op d o).
Proof. destruct o; apply _. Defined.

End run.

(** ** Running a sequence *)

Section run_lemmas.
Context {B : Simd128} {BL : Simd128Laws B}.
Implicit Types (s : ProfileReachedIndexSIMD B) (o : op) (ops : list op).

Lemma run_cons s o ops s' :
  run s (o :: ops) = Ok s' ↔ ∃ s1, exec s o = Ok s1 ∧ run s1 ops = Ok s'.
Proof. apply bind_Ok. Qed.

Lemma run_app s ops1 ops2 :
  run s (ops1 ++ ops2) = do s1 <- run s ops1; run s1 ops2.
Proof.
  revert s. induction ops1 as [|o ops1 IH]; intros s; simpl; [done|].
  destruct (exec s o); simpl; [apply IH|done].
Qed.

(** A property that every operation of a class preserves holds after
    every sequence of such operations. *)
Lemma run_preserves (P : ProfileReachedIndexSIMD B → Prop) (Q : op → Prop) :
  (∀ s o s', P s → Q o → exec s o = Ok s' → P s') →
  ∀ ops s s', P s → Forall Q ops → run s ops = Ok s' → P s'.
Proof.
  intros Hstep ops. induction ops as [|o ops IH]; intros s s' HP HQ Hrun.
  - by injection Hrun as <-.
  - apply run_cons in Hrun as (s1 & Hex & Hrun).
    apply Forall_cons in HQ as [Ho HQ]. eauto.
Qed.

Lemma is_update_checked o : is_update o → checked o.
Proof. by destruct o. Qed.

Lemma valid_op_checked d o : valid_op d o → checked o.
Proof. destruct o; simpl; tauto. Qed.

(** One checked operation keeps the invariant ... *)
Lemma exec_inv s o s' : index_inv s → checked o → exec s o = Ok s' → index_inv s'.
Proof.
  intros Hinv Ho Hex. destruct o as [|trip position round|]; simpl in *; [| |done].
  - injection Hex as <-. destruct Hinv as ((? & _ & _ & ?) & _). by apply clear_inv.
  - destruct (update_Ok_inv _ _ _ _ _ Hex) as [_ Hr].
    eapply update_post_inv; [done..|]. by apply update_Ok_post; [apply Hinv|..].
Qed.

(** ... the timetable and the template ... *)
Lemma exec_data s o s' :
  index_wf s → checked o → exec s o = Ok s' →
  data s' = data s ∧ defaultLabels s' = defaultLabels s.
Proof.
  intros Hwf Ho Hex. destruct o as [|trip position round|]; simpl in *; [| |done].
  - by injection Hex as <-.
  - destruct (update_post_data s trip position round s') as (? & ? & _);
      [by apply update_Ok_post|done].
Qed.

(** ... and one [update] lowers positions or leaves them. *)
Lemma exec_monotone s o s' t r p :
  index_wf s → is_update o → exec s o = Ok s' → 1 ≤ r →
  getPosition s t r = Ok p →
  index_wf s' ∧ ∃ p', getPosition s' t r = Ok p' ∧ p' ≤ p.
Proof.
  intros Hwf Ho Hex Hr Hp. destruct o as [|trip position round|]; simpl in *; try done.
  destruct (update_Ok_inv _ _ _ _ _ Hex) as [_ Hround].
  pose proof (update_Ok_post _ _ _ _ _ Hwf Ho Hex) as Hpost.
  split; [by eapply update_post_wf|].
  destruct (update_post_getPosition _ _ _ _ _ Hwf Hround Hpost)
    as (? & ? & ? & _ & _ & _ & _ & _ & Hget).
  rewrite (Hget _ _ _ Hr Hp). eexists. split; [done|]. case_decide; lia.
Qed.

Lemma exec_inv_wf s o s' : index_wf s → checked o → exec s o = Ok s' → index_wf s'.
Proof.
  intros Hwf Ho Hex. destruct o as [|trip position round|]; simpl in *; [| |done].
  - injection Hex as <-. destruct Hwf as (? & _ & _ & ?). by apply clear_wf.
  - eapply update_post_wf; [done|]. by apply update_Ok_post.
Qed.

(** One [update] does not withdraw an answer "reached". *)
Lemma exec_reached s o s' trip position round :
  index_wf s → is_update o → exec s o = Ok s' →
  alreadyReached s trip position round = Ok true →
  alreadyReached s' trip position round = Ok true.
Proof.
  intros Hwf Ho Hex. rewrite !alreadyReached_unfold.
  destruct (exec_data s o s') as [Hd _]; [auto using is_update_checked..|].
  replace (valid_args s' trip round) with (valid_args s trip round)
    by (unfold valid_args; by rewrite Hd).
  destruct (valid_args s trip round) eqn:Hv; [|done].
  intros (p & Hp & [= Hle%bool_decide_eq_true])%bind_Ok.
  apply valid_args_true in Hv as [_ Hr].
  destruct (exec_monotone s o s' trip round p) as (_ & p' & -> & ?); [done..|lia|done|].
  simpl. by rewrite bool_decide_eq_true_2 by lia.
Qed.

(** A valid checked operation returns. *)
Lemma exec_valid s o :
  index_wf s → valid_op (data s) o →
  ∃ s', exec s o = Ok s' ∧ index_wf s' ∧ data s' = data s.
Proof.
  intros Hwf Ho. destruct o as [|trip position round|]; simpl in *; [| |done].
  - exists (clear s). split_and!; [done| |done].
    destruct Hwf as (? & _ & _ & ?). by apply clear_wf.
  - destruct Ho as (? & ? & ?).
    destruct (update_run s trip position round) as (s' & Hu & Hpost); [done..|].
    exists s'. split_and!; [done|by eapply update_post_wf|].
    by destruct (update_post_data _ _ _ _ _ Hpost).
Qed.

End run_lemmas.

(** ** What holds of every sequence *)

Section run_properties.
Context {B : Simd128} {BL : Simd128Laws B}.
Implicit Types (s : ProfileReachedIndexSIMD B) (o : op) (ops : list op).

(** C22: a sequence of [clear] and [update] calls whose arguments satisfy
    the assertions runs to completion on a well-formed index: no call
    fails, none leaves the storage, and the index stays well-formed. *)
Theorem run_safe s ops :
  index_wf s → Forall (valid_op (data s)) ops →
  ∃ s', run s ops = Ok s' ∧ index_wf s' ∧ data s' = data s.
Proof.
  revert s. induction ops as [|o ops IH]; intros s Hwf Hops; [by exists s|].
  apply Forall_cons in Hops as [Ho Hops].
  destruct (exec_valid s o Hwf Ho) as (s1 & Hex & Hwf1 & Hd1).
  destruct (IH s1) as (s' & Hrun & ? & ?); [done|by rewrite Hd1|].
  exists s'. split_and!; [|done|congruence]. apply run_cons. eauto.
Qed.

(** C3: every index the checked interface can produce, from the
    constructor, a first [clear] and then any sequence of [clear] and
    [update] calls that return, satisfies the invariant, whatever the
    indeterminate initial content of the label vectors was. *)
Theorem reachable_inv d s : Data_wf d → reachable d s → index_inv s.
Proof.
  intros Hd (u0 & u1 & ops & Hops & (s1 & [= <-] & Hrun)%run_cons).
  eapply (run_preserves index_inv checked exec_inv); [|done..].
  apply clear_inv; [done|apply defaultLabels_construct].
Qed.

(** C5: monotone relaxation: across any sequence of [update] calls the
    stored position of any trip at any round never increases, and an
    answer "reached" of [alreadyReached] is never withdrawn. *)
Theorem run_monotone s ops s' :
  index_wf s → Forall is_update ops → run s ops = Ok s' →
  (∀ t r p, 1 ≤ r → getPosition s t r = Ok p →
            ∃ p', getPosition s' t r = Ok p' ∧ p' ≤ p) ∧
  (∀ trip position round,
     alreadyReached s trip position round = Ok true →
     alreadyReached s' trip position round = Ok true).
Proof.
  intros Hwf Hops Hrun. split.
  - intros t r p Hr Hp.
    pose (P := λ s, index_wf s ∧ ∃ p', getPosition s t r = Ok p' ∧ p' ≤ p).
    assert (P s') as [_ ?]; [|done].
    apply (run_preserves P is_update) with (s := s) (ops := ops);
      [|split; eauto with lia|done..].
    intros s1 o s2 (Hwf1 & p1 & Hp1 & ?) Ho Hex.
    destruct (exec_monotone s1 o s2 t r p1) as (? & p2 & ? & ?); [done..|].
    split; [done|]. exists p2. split; [done|lia].
  - intros trip position round Hreached.
    pose (P := λ s, index_wf s ∧ alreadyReached s trip position round = Ok true).
    assert (P s') as [_ ?]; [|done].
    apply (run_preserves P is_update) with (s := s) (ops := ops); [|done..].
    intros s1 o s2 [Hwf1 Hr1] Ho Hex. split; [|by eapply exec_reached].
    apply (exec_inv_wf s1 o); auto using is_update_checked.
Qed.

End run_properties.

(** ** The scenario of the specification *)

Section scenario.
Context {B : Simd128} {BL : Simd128Laws B}.
Context (u0 u1 : nat → ReachedElement B).

Local Abbreviation s0 := (clear (construct route3 u0 u1)).

Lemma scenario_wf : index_wf s0.
Proof. apply clear_wf; [by_compute|apply defaultLabels_construct]. Qed.

Lemma scenario_sentinel round : 1 ≤ round ≤ 16 → getPosition s0 0 round = Ok 5.
Proof.
  intros Hr. apply (getPosition_clear (construct route3 u0 u1) 0 round);
    [apply defaultLabels_construct|done..].
Qed.

(** C12: the scenario of the specification, on every backend that
    satisfies the interface and whatever the label vectors held before the
    first [clear]: on a route of three trips with five stops, position 4 is
    not reached at round 1 after [clear]; after [update(t0, 2, 1)] position
    2 is reached at rounds 1 and 5, and position 1 is not reached. *)
Theorem scenario :
  alreadyReached s0 0 4 1 = Ok false ∧
  ∃ s1, update s0 0 2 1 = Ok s1 ∧
        alreadyReached s1 0 2 1 = Ok true ∧
        alreadyReached s1 0 2 5 = Ok true ∧
        alreadyReached s1 0 1 1 = Ok false.
Proof.
  pose proof scenario_wf as Hwf. split.
  { destruct (alreadyReached_valid s0 0 4 1) as (p & Hp & _ & ->); [done|done|lia|].
    rewrite scenario_sentinel in Hp by lia. by injection Hp as <-. }
  destruct (update_run s0 0 2 1) as (s1 & Hu & Hpost); [done|done|lia|by_compute|].
  assert (∀ r q p, 1 ≤ r < 16 → getPosition s0 0 1 = Ok q →
                   getPosition s0 0 r = Ok p → p ≤ q) as Hle.
  { intros r q p Hr. rewrite !scenario_sentinel by lia. intros [= <-] [= <-]. lia. }
  exists s1. split_and!; [done| | |].
  - apply (update_post_reached s0 0 2 1); first [done|lia|intros q p; apply Hle; lia].
  - apply (update_post_reached s0 0 2 1); first [done|lia|intros q p; apply Hle; lia].
  - destruct (update_post_getPosition s0 0 2 1 s1)
      as (? & ? & ? & _ & _ & _ & _ & _ & Hget); [done|lia|done|].
    destruct (alreadyReached_valid s1 0 1 1) as (p & Hp & _ & ->);
      [by eapply update_post_wf|by destruct (update_post_data _ _ _ _ _ Hpost) as [-> _]|lia|].
    rewrite (Hget 0%nat 1 5) in Hp by (lia || by apply scenario_sentinel).
    injection Hp as <-. do 2 f_equal. apply bool_decide_eq_false_2. case_decide; lia.
Qed.

End scenario.

(** ** What a write through [operator()] breaks *)

Section raw_writes.
Context {B : Simd128} {BL : Simd128Laws B}.
Context (u0 u1 : nat → ReachedElement B).

Local Abbreviation s0 := (clear (construct route3 u0 u1)).

Lemma scenario_sentinel_all trip round :
  (trip < 3)%nat → 1 ≤ round ≤ 16 → getPosition s0 trip round = Ok 5.
Proof.
  intros Ht Hr. rewrite (getPosition_clear (construct route3 u0 u1) trip round);
    [|apply defaultLabels_construct|by apply isTrip_true|done].
  do 3 (destruct trip as [|trip]; [done|]). simpl in Ht. lia.
Qed.

(** The index after [operator()(trip, round) = v] on the cleared index. *)
Lemma assign_run trip round v :
  (trip < 3)%nat → 1 ≤ round ≤ 16 → in_range 8 v →
  ∃ s1, call_operator_assign s0 trip round v = Ok s1 ∧ index_wf s1 ∧
        data s1 = route3 ∧ getPosition s1 trip round = Ok v ∧
        ∀ trip' round', (trip' < 3)%nat → 1 ≤ round' ≤ 16 →
          (trip', round') ≠ (trip, round) → getPosition s1 trip' round' = Ok 5.
Proof.
  intros Ht Hr Hv. pose proof (scenario_wf u0 u1) as Hwf.
  pose proof Hwf as (_ & _ & Hok & _).
  destruct (setPosition_run s0 trip round v) as (s1 & Hs & ? & ?);
    [done|by apply isTrip_true|done|].
  exists s1. split_and!; [done..| |].
  - rewrite <- (wrap_small 8 v) by done. by eapply getPosition_setPosition.
  - intros trip' round' ???.
    rewrite (getPosition_setPosition_ne s0 trip round v) by (done || lia).
    by apply scenario_sentinel_all.
Qed.

(** C37: a write through [operator()] does not propagate: after
    [operator()(t0, 1) = 2] on the cleared index of the scenario, position
    2 is reached at round 1 and not at round 5, and the labels no longer
    fall with the round. *)
Theorem assign_breaks_propagation :
  ∃ s1, call_operator_assign s0 0 1 2 = Ok s1 ∧ index_wf s1 ∧
        alreadyReached s1 0 2 1 = Ok true ∧
        alreadyReached s1 0 2 5 = Ok false ∧
        ¬ rounds_monotone s1.
Proof.
  destruct (assign_run 0 1 2) as (s1 & Hs & Hwf & Hd & H1 & Hne); [lia|lia|done|].
  pose proof (Hne 0%nat 5 ltac:(lia) ltac:(lia) ltac:(congruence)) as H5.
  exists s1. split_and!; [done..| | |].
  - destruct (alreadyReached_valid s1 0 2 1) as (p & Hp & _ & ->);
      [done|by rewrite Hd|lia|]. by assert (p = 2) as -> by congruence.
  - destruct (alreadyReached_valid s1 0 2 5) as (p & Hp & _ & ->);
      [done|by rewrite Hd|lia|]. by assert (p = 5) as -> by congruence.
  - intros Hrm.
    pose proof (rounds_monotone_getPosition s1 0 1 5 2 5 Hrm ltac:(lia) H1 H5). lia.
Qed.

(** C38: the early exit relies on the invariant: after
    [operator()(t1, 1) = 0] on the cleared index of the scenario,
    [update(t0, 2, 1)] stops at trip 1 and leaves trip 2 at its sentinel,
    where the scan without the early exit records position 2. *)
Theorem assign_breaks_early_exit :
  ∃ s1 s2 s3, call_operator_assign s0 1 1 0 = Ok s1 ∧
    update s1 0 2 1 = Ok s2 ∧ update_all s1 0 2 1 = Ok s3 ∧
    getPosition s2 2 1 = Ok 5 ∧ getPosition s3 2 1 = Ok 2.
Proof.
  destruct (assign_run 1 1 0) as (s1 & Hs & Hwf & Hd & H1 & Hne); [lia|lia|done|].
  pose proof Hwf as (_ & _ & Hok & _).
  pose proof (Hne 0%nat 1 ltac:(lia) ltac:(lia) ltac:(congruence)) as H0.
  pose proof (Hne 2%nat 1 ltac:(lia) ltac:(lia) ltac:(congruence)) as H2.
  destruct (update_run s1 0 2 1) as (s2 & Hu & Hpost); [done|by rewrite Hd|lia|done|].
  destruct (update_all_run s1 0 2 1) as (F & first & last & Hrr & HF & HFb & Hall);
    [done|by rewrite Hd|lia|done|].
  destruct (update_post_getPosition s1 0 2 1 s2)
    as (f & l & stop & Hrr' & _ & ? & Hbefore & Hstop & Hget); [done|lia|done|].
  rewrite Hd in Hrr, Hrr'.
  assert (last = 3%nat ∧ l = 3%nat) as [-> ->]
    by (vm_compute in Hrr, Hrr'; by simplify_eq).
  assert (stop = 1%nat) as ->.
  { destruct (decide (stop = 0)%nat) as [->|].
    - destruct Hstop as (p & Hp & ?); [lia|]. assert (p = 5) by congruence. lia.
    - destruct (decide (stop ≤ 1)%nat); [lia|].
      destruct (Hbefore 1%nat) as (p & Hp & ?); [lia|]. assert (p = 0) by congruence. lia. }
  eexists s1, s2, _. split_and!; [done..| |].
  - rewrite (Hget 2%nat 1 5) by (done || lia). by rewrite decide_False by lia.
  - rewrite (getPosition_relax_range s1 F 2 1 0 3 2 1 5) by (done || lia).
    by rewrite decide_True by lia.
Qed.

End raw_writes.

(** ** The theorems at concrete inputs *)

Lemma run_safe_witness :
  ∃ s', run (fresh_neon net5) [Update 3 4 2; Clear; Update 1 0 15] = Ok s' ∧
        index_wf s' ∧ data s' = data (fresh_neon net5).
Proof. apply run_safe; by_compute. Defined.

Lemma reachable_inv_witness : index_inv route3_after.
Proof.
  apply (reachable_inv route3); [by_compute|].
  exists junk, junk, [Update 1 2 3]. split; [by_compute|by vm_compute].
Defined.

Lemma run_monotone_witness :
  (∀ t r p, 1 ≤ r → getPosition (fresh_neon route3) t r = Ok p →
            ∃ p', getPosition route3_after t r = Ok p' ∧ p' ≤ p) ∧
  (∀ trip position round,
     alreadyReached (fresh_neon route3) trip position round = Ok true →
     alreadyReached route3_after trip position round = Ok true).
Proof.
  apply (run_monotone _ [Update 1 2 3]); [by_compute|by_compute|by vm_compute].
Defined.

Lemma scenario_witness :
  alreadyReached (fresh_sse route3) 0 4 1 = Ok false ∧
  ∃ s1, update (fresh_sse route3) 0 2 1 = Ok s1 ∧
        alreadyReached s1 0 2 1 = Ok true ∧
        alreadyReached s1 0 2 5 = Ok true ∧
        alreadyReached s1 0 1 1 = Ok false.
Proof. apply (scenario (B := sse_backend) junk junk). Defined.

Lemma assign_breaks_propagation_witness :
  ∃ s1, call_operator_assign (fresh_sse route3) 0 1 2 = Ok s1 ∧ index_wf s1 ∧
        alreadyReached s1 0 2 1 = Ok true ∧
        alreadyReached s1 0 2 5 = Ok false ∧
        ¬ rounds_monotone s1.
Proof. apply (assign_breaks_propagation (B := sse_backend) junk junk). Defined.

Lemma assign_breaks_early_exit_witness :
  ∃ s1 s2 s3, call_operator_assign (fresh_neon route3) 1 1 0 = Ok s1 ∧
    update s1 0 2 1 = Ok s2 ∧ update_all s1 0 2 1 = Ok s3 ∧
    getPosition s2 2 1 = Ok 5 ∧ getPosition s3 2 1 = Ok 2.
Proof. apply (assign_breaks_early_exit (B := neon_backend) junk junk). Defined.
