(* ===== verification/Simd16.v ===== *)
(** * SIMD16u: sixteen unsigned 16-bit lanes, the interface

    The second header of src/unnamed/part_000 (lines 197-409) defines the
    value type [SIMD16u] twice, once over two NEON registers and once over
    one AVX2 register.  This file holds what the two definitions have in
    common: the meaning of each operation on one lane, the interface
    [Simd16] with one field per member function, and the laws [Simd16Laws]
    that state each member function lane by lane.  Theorems about
    [SIMD16u] are proved against the interface; the files [Simd16Neon] and
    [Simd16Avx] discharge it.

    A lane is a [Z] in the range of [uint16_t].  A member function that
    mutates the receiver returns the new receiver; [maxmask] and [minmask]
    return the new receiver and the mask. *)

From S2P Require Import Prelude.

Local Open Scope Z_scope.
Local Open Scope result_scope.

(** ** One lane *)

Definition lane_add (a b : Z) : Z := wrap 16 (a + b).

Definition lane_sub (a b : Z) : Z := wrap 16 (a - b).

Definition lane_sll (bits a : Z) : Z := wrap 16 (a ≪ bits).

Definition lane_srl (bits a : Z) : Z := a ≫ bits.

(** All-ones where the lanes are equal. *)
Definition lane_eq (a b : Z) : Z := if decide (a = b) then ones 16 else 0.

(** All-ones where the receiver [a] was already at least the operand [b]. *)
Definition lane_ge (a b : Z) : Z := if decide (b ≤ a) then ones 16 else 0.

(** All-ones where the receiver [a] was already at most the operand [b]. *)
Definition lane_le (a b : Z) : Z := if decide (a ≤ b) then ones 16 else 0.

(** Bitwise select: the bits of [a] where [m] has a one, of [b] elsewhere. *)
Definition lane_bsl (m a b : Z) : Z :=
  Z.lor (Z.land m a) (Z.land (wrap 16 (Z.lnot m)) b).

(** Byte select: each byte of the lane from [a] where the top bit of that
    byte of [m] is set, from [b] elsewhere. *)
Definition lane_blendv (m a b : Z) : Z :=
  (if Z.testbit m 7 then wrap 8 a else wrap 8 b) +
  2 ^ 8 * (if Z.testbit m 15 then a ≫ 8 else b ≫ 8).

(** The choice both selects implement on a mask lane that is all-ones or
    all-zeros. *)
Definition lane_select (m a b : Z) : Z := if decide (m = 0) then b else a.

(** Three lane vectors combined lane by lane. *)
Definition zip_with3 (f : Z → Z → Z → Z) (l1 l2 l3 : list Z) : list Z :=
  zip_with (λ g x, g x) (zip_with f l1 l2) l3.

(** [i & 15] on a [std::size_t]. *)
Definition lane_index (i : Z) : nat := Z.to_nat (Z.land i 15).

(** ** The interface *)

Class Simd16 : Type := {
  simd16_t : Type;
  simd16_ok : simd16_t → Prop;
  (** the union member [arr] *)
  to_lanes : simd16_t → list Z;
  of_lanes : list Z → simd16_t;
  (** [SIMD16u(uint16_t scalar)] and [fill] *)
  broadcast : Z → simd16_t;
  fill16 : simd16_t → Z → simd16_t;
  (** [load] from and [store] to a buffer of [uint16_t] *)
  load : list Z → result simd16_t;
  store : simd16_t → list Z → result (list Z);
  (** [operator[]], read and assigned through *)
  get : simd16_t → Z → result Z;
  set : simd16_t → Z → Z → result simd16_t;
  add : simd16_t → simd16_t → simd16_t;
  sub : simd16_t → simd16_t → simd16_t;
  and_ : simd16_t → simd16_t → simd16_t;
  or_ : simd16_t → simd16_t → simd16_t;
  xor : simd16_t → simd16_t → simd16_t;
  sll : simd16_t → Z → simd16_t;
  srl : simd16_t → Z → simd16_t;
  cmpeq : simd16_t → simd16_t → simd16_t;
  maxmask : simd16_t → simd16_t → simd16_t * simd16_t;
  minmask : simd16_t → simd16_t → simd16_t * simd16_t;
  blend : simd16_t → simd16_t → simd16_t → simd16_t;
  simd16_eq_dec :: EqDecision simd16_t;
  simd16_ok_dec :: ∀ x, Decision (simd16_ok x);
}.

(** A unary or binary member function that acts lane by lane as [f]. *)
Definition lanewise1 `{Simd16} (op : simd16_t → simd16_t) (f : Z → Z) : Prop :=
  ∀ a, simd16_ok a →
    simd16_ok (op a) ∧ to_lanes (op a) = f <$> to_lanes a.

Definition lanewise2 `{Simd16} (op : simd16_t → simd16_t → simd16_t)
    (f : Z → Z → Z) : Prop :=
  ∀ a b, simd16_ok a → simd16_ok b →
    simd16_ok (op a b) ∧ to_lanes (op a b) = zip_with f (to_lanes a) (to_lanes b).

(** A mask as [cmpeq], [maxmask] and [minmask] produce it. *)
Definition mask16 (l : list Z) : Prop := Forall (is_mask 16) l.

#[export] Instance mask16_dec l : Decision (mask16 l).
Proof. unfold mask16. apply _. Defined.

Class Simd16Laws (B : Simd16) : Prop := {
  to_lanes_ok x : simd16_ok x → lanes_ok 16 16 (to_lanes x);
  of_lanes_ok l : lanes_ok 16 16 l → simd16_ok (of_lanes l);
  to_lanes_of_lanes l : lanes_ok 16 16 l → to_lanes (of_lanes l) = l;
  of_lanes_to_lanes x : simd16_ok x → of_lanes (to_lanes x) = x;
  broadcast_lanes s : in_range 16 s →
    simd16_ok (broadcast s) ∧ to_lanes (broadcast s) = replicate 16 s;
  fill16_lanes x s : fill16 x s = broadcast s;
  load_lanes buf : (16 ≤ length buf)%nat → Forall (in_range 16) buf →
    ∃ x, load buf = Ok x ∧ simd16_ok x ∧ to_lanes x = take 16 buf;
  load_short buf : (length buf < 16)%nat → load buf = Err OutOfBounds;
  store_lanes x buf : simd16_ok x → (16 ≤ length buf)%nat →
    store x buf = Ok (to_lanes x ++ drop 16 buf);
  store_short x buf : simd16_ok x → (length buf < 16)%nat →
    store x buf = Err OutOfBounds;
  get_lanes x i : simd16_ok x → 0 ≤ i → get x i = at_index (to_lanes x) (lane_index i);
  set_lanes x i s : simd16_ok x → 0 ≤ i → in_range 16 s →
    ∃ y, set x i s = Ok y ∧ simd16_ok y ∧
         to_lanes y = <[lane_index i := s]> (to_lanes x);
  add_lanes : lanewise2 add lane_add;
  sub_lanes : lanewise2 sub lane_sub;
  and_lanes : lanewise2 and_ Z.land;
  or_lanes : lanewise2 or_ Z.lor;
  xor_lanes : lanewise2 xor Z.lxor;
  sll_lanes bits : 0 ≤ bits ≤ 15 → lanewise1 (λ a, sll a bits) (lane_sll bits);
  srl_lanes bits : 0 ≤ bits ≤ 15 → lanewise1 (λ a, srl a bits) (lane_srl bits);
  cmpeq_lanes : lanewise2 cmpeq lane_eq;
  maxmask_lanes : lanewise2 (λ a b, (maxmask a b).1) Z.max ∧
                  lanewise2 (λ a b, (maxmask a b).2) lane_ge;
  minmask_lanes : lanewise2 (λ a b, (minmask a b).1) Z.min ∧
                  lanewise2 (λ a b, (minmask a b).2) lane_le;
  blend_lanes x other mask :
    simd16_ok x → simd16_ok other → simd16_ok mask → mask16 (to_lanes mask) →
    simd16_ok (blend x other mask) ∧
    to_lanes (blend x other mask) =
    zip_with3 lane_select (to_lanes mask) (to_lanes x) (to_lanes other);
}.

(** ** Lanes *)

Lemma lane_index_lt i : 0 ≤ i → (lane_index i < 16)%nat.
Proof.
  intros Hi. unfold lane_index. change 15 with (Z.ones 4).
  rewrite Z.land_ones by lia. pose proof (Z.mod_pos_bound i (2 ^ 4)). lia.
Qed.

Lemma lane_index_mod i : 0 ≤ i → lane_index i = Z.to_nat (i mod 16).
Proof.
  intros Hi. unfold lane_index. change 15 with (Z.ones 4).
  by rewrite Z.land_ones by lia.
Qed.

Lemma lane_add_range a b : in_range 16 (lane_add a b).
Proof. apply wrap_in_range. lia. Qed.

Lemma lane_sub_range a b : in_range 16 (lane_sub a b).
Proof. apply wrap_in_range. lia. Qed.

Lemma lane_sll_range bits a : in_range 16 (lane_sll bits a).
Proof. apply wrap_in_range. lia. Qed.

Lemma lane_srl_range bits a : 0 ≤ bits → in_range 16 a → in_range 16 (lane_srl bits a).
Proof.
  unfold in_range, lane_srl. intros Hb [H0 Ha]. rewrite Z.shiftr_div_pow2 by done.
  pose proof (pow2_pos bits Hb). split; [by apply Z.div_pos|].
  apply Z.div_lt_upper_bound; [lia|]. nia.
Qed.

Lemma ones_range w : 0 ≤ w → in_range w (ones w).
Proof. intros. pose proof (pow2_pos w). unfold in_range, ones. lia. Qed.

Lemma is_mask_range x : is_mask 16 x → in_range 16 x.
Proof. by intros [->| ->]. Qed.

Lemma lane_eq_mask a b : is_mask 16 (lane_eq a b).
Proof. unfold lane_eq, is_mask. case_decide; auto. Qed.

Lemma lane_ge_mask a b : is_mask 16 (lane_ge a b).
Proof. unfold lane_ge, is_mask. case_decide; auto. Qed.

Lemma lane_le_mask a b : is_mask 16 (lane_le a b).
Proof. unfold lane_le, is_mask. case_decide; auto. Qed.

Lemma bits_range (f : Z → Z → Z) a b :
  (∀ n, 0 ≤ n → Z.testbit (f a b) n = false ∨ n < 16) → 0 ≤ f a b →
  in_range 16 (f a b).
Proof.
  intros Hbits H0. split; [done|].
  destruct (decide (f a b = 0)) as [->|Hne]; [done|].
  apply Z.log2_lt_pow2; [lia|].
  destruct (Hbits (Z.log2 (f a b)) (Z.log2_nonneg _)) as [Hb|]; [|done].
  rewrite Z.bit_log2 in Hb by lia. done.
Qed.

Lemma testbit_high x n : in_range 16 x → 16 ≤ n → Z.testbit x n = false.
Proof.
  intros [H0 Hx] Hn. destruct (decide (x = 0)) as [->|]; [apply Z.bits_0|].
  apply Z.bits_above_log2; [done|].
  assert (Z.log2 x < 16) by (apply Z.log2_lt_pow2; lia). lia.
Qed.

Lemma land_range a b : in_range 16 a → in_range 16 b → in_range 16 (Z.land a b).
Proof.
  intros Ha Hb. apply (bits_range Z.land); [|apply Z.land_nonneg; left; apply Ha].
  intros n Hn. destruct (decide (n < 16)); [by right|left].
  by rewrite Z.land_spec, !testbit_high by (done || lia).
Qed.

Lemma lor_range a b : in_range 16 a → in_range 16 b → in_range 16 (Z.lor a b).
Proof.
  intros Ha Hb. apply (bits_range Z.lor); [|apply Z.lor_nonneg; split; [apply Ha|apply Hb]].
  intros n Hn. destruct (decide (n < 16)); [by right|left].
  by rewrite Z.lor_spec, !testbit_high by (done || lia).
Qed.

Lemma lxor_range a b : in_range 16 a → in_range 16 b → in_range 16 (Z.lxor a b).
Proof.
  intros Ha Hb. apply (bits_range Z.lxor); [|apply Z.lxor_nonneg; split; intros _; [apply Hb|apply Ha]].
  intros n Hn. destruct (decide (n < 16)); [by right|left].
  by rewrite Z.lxor_spec, !testbit_high by (done || lia).
Qed.

(** On a canonical mask lane both selects are the plain choice. *)
Lemma lane_bsl_select m a b :
  is_mask 16 m → in_range 16 a → in_range 16 b → lane_bsl m a b = lane_select m a b.
Proof.
  intros [->| ->] Ha Hb; unfold lane_bsl, lane_select.
  - rewrite decide_True by done. change (wrap 16 (Z.lnot 0)) with (Z.ones 16).
    rewrite Z.land_0_l, Z.lor_0_l, Z.land_comm, Z.land_ones by lia.
    by apply wrap_small.
  - rewrite decide_False by done. change (wrap 16 (Z.lnot (ones 16))) with 0.
    change (ones 16) with (Z.ones 16).
    rewrite (Z.land_0_l b), Z.lor_0_r, Z.land_comm, Z.land_ones by lia.
    by apply wrap_small.
Qed.

Lemma lane_bsl_range m a b :
  in_range 16 m → in_range 16 a → in_range 16 b → in_range 16 (lane_bsl m a b).
Proof.
  intros. apply lor_range; apply land_range; try done. apply wrap_in_range. lia.
Qed.

Lemma lane_select_range m a b :
  in_range 16 a → in_range 16 b → in_range 16 (lane_select m a b).
Proof. intros. unfold lane_select. by case_decide. Qed.

Lemma byte_split x : wrap 8 x + 2 ^ 8 * (x ≫ 8) = x.
Proof.
  unfold wrap. rewrite Z.shiftr_div_pow2 by lia.
  pose proof (Z.div_mod x (2 ^ 8)). lia.
Qed.

Lemma lane_blendv_select m a b :
  is_mask 16 m → lane_blendv m a b = lane_select m a b.
Proof.
  intros [->| ->]; unfold lane_blendv, lane_select.
  - rewrite decide_True by done. rewrite !Z.bits_0. apply byte_split.
  - rewrite decide_False by done.
    change (Z.testbit (ones 16) 7) with true.
    change (Z.testbit (ones 16) 15) with true. apply byte_split.
Qed.

(** ** Lane vectors *)

Lemma zip_with3_length f l1 l2 l3 n :
  length l1 = n → length l2 = n → length l3 = n → length (zip_with3 f l1 l2 l3) = n.
Proof. intros. unfold zip_with3. rewrite !length_zip_with. lia. Qed.

Lemma zip_with3_lookup f l1 l2 l3 (i : nat) :
  zip_with3 f l1 l2 l3 !! i =
  x ← l1 !! i; y ← l2 !! i; z ← l3 !! i; Some (f x y z).
Proof.
  unfold zip_with3. rewrite !lookup_zip_with.
  by destruct (l1 !! i), (l2 !! i), (l3 !! i).
Qed.

Lemma zip_with3_ext f g l1 l2 l3 :
  (∀ i x y z, l1 !! i = Some x → l2 !! i = Some y → l3 !! i = Some z →
              f x y z = g x y z) →
  zip_with3 f l1 l2 l3 = zip_with3 g l1 l2 l3.
Proof.
  intros Hfg. apply list_eq. intros i. rewrite !zip_with3_lookup.
  destruct (l1 !! i) eqn:?, (l2 !! i) eqn:?, (l3 !! i) eqn:?; simpl; try done.
  f_equal. eauto.
Qed.

Lemma zip_with3_app f a1 a2 b1 b2 c1 c2 :
  length a1 = length b1 → length a1 = length c1 →
  zip_with3 f (a1 ++ a2) (b1 ++ b2) (c1 ++ c2) =
  zip_with3 f a1 b1 c1 ++ zip_with3 f a2 b2 c2.
Proof.
  intros Hb Hc. unfold zip_with3.
  rewrite (zip_with_app f) by done.
  by rewrite zip_with_app by (rewrite length_zip_with; lia).
Qed.

Lemma lanes_ok_zip_with3 f n w a b c :
  (∀ x y z, in_range w x → in_range w y → in_range w z → in_range w (f x y z)) →
  lanes_ok n w a → lanes_ok n w b → lanes_ok n w c →
  lanes_ok n w (zip_with3 f a b c).
Proof.
  intros Hf Ha Hb Hc. split.
  - apply zip_with3_length; by eapply lanes_ok_length.
  - apply Forall_lookup. intros i z. rewrite zip_with3_lookup.
    destruct (a !! i) eqn:Hx, (b !! i) eqn:Hy, (c !! i) eqn:Hz; simpl; try done.
    intros [= <-].
    apply Hf; [exact (lanes_ok_lookup_range _ _ _ _ _ Ha Hx)
              |exact (lanes_ok_lookup_range _ _ _ _ _ Hb Hy)
              |exact (lanes_ok_lookup_range _ _ _ _ _ Hc Hz)].
Qed.

(** The mask of [maxmask] and [minmask]: the result compared with the old
    receiver. *)
Lemma zip_with_compare (f g h : Z → Z → Z) (a b : list Z) :
  (∀ x y, g (f x y) x = h x y) →
  zip_with g (zip_with f a b) a = zip_with h a b.
Proof.
  intros Hh. apply list_eq. intros i. rewrite !lookup_zip_with.
  destruct (a !! i), (b !! i); simpl; congruence.
Qed.

Lemma lane_eq_max a b : lane_eq (a `max` b) a = lane_ge a b.
Proof. unfold lane_eq, lane_ge. do 2 case_decide; (done || lia). Qed.

Lemma lane_eq_min a b : lane_eq (a `min` b) a = lane_le a b.
Proof. unfold lane_eq, lane_le. do 2 case_decide; (done || lia). Qed.

Lemma mask16_lookup l (i : nat) m : mask16 l → l !! i = Some m → is_mask 16 m.
Proof. intros Hl Hm. exact (Forall_lookup_1 _ _ _ _ Hl Hm). Qed.

Lemma mask16_zip_with (f : Z → Z → Z) a b :
  (∀ x y, is_mask 16 (f x y)) → mask16 (zip_with f a b).
Proof.
  intros Hf. apply Forall_lookup. intros i m.
  rewrite lookup_zip_with. destruct (a !! i), (b !! i); simpl; [|done..].
  intros [= <-]. apply Hf.
Qed.

Lemma mask16_ok l : length l = 16%nat → mask16 l → lanes_ok 16 16 l.
Proof.
  intros Hlen Hl. split; [done|]. eapply Forall_impl; [done|]. apply is_mask_range.
Qed.

#[export] Hint Resolve lane_add_range lane_sub_range lane_sll_range lane_srl_range
  land_range lor_range lxor_range lane_eq_mask lane_ge_mask lane_le_mask
  is_mask_range : simd.
