(* ===== verification/Simd16Neon.v ===== *)
(** * SIMD16u on ARM NEON

    Lines 236-322 of src/unnamed/part_000: [SIMD16u] as a union of two
    [uint16x8_t] halves and an array of sixteen [uint16_t].  A
    [uint16x8_t] is the list of its eight lanes; the union's array is the
    low half followed by the high half.  The intrinsics are modelled from
    the instruction descriptions: [vshlq_u16] shifts each lane by the
    signed low byte of the corresponding shift lane, left when it is
    positive and right when it is negative, and [vbslq_u16] selects bit by
    bit.  A buffer a pointer points to is the list of the [uint16_t]
    values from the pointer on. *)

From S2P Require Import Prelude Simd16.

Local Open Scope Z_scope.
Local Open Scope result_scope.

(** ** The intrinsics *)

Definition uint16x8_t : Type := list Z.

Definition int16x8_t : Type := list Z.

Definition vdupq_n_u16 (x : Z) : uint16x8_t := replicate 8 (wrap 16 x).

Definition vdupq_n_s16 (x : Z) : int16x8_t := replicate 8 x.

Definition vld1q_u16 (ptr : list Z) : result uint16x8_t :=
  if decide (8 ≤ length ptr)%nat then Ok (take 8 ptr) else Err OutOfBounds.

Definition vst1q_u16 (ptr : list Z) (x : uint16x8_t) : result (list Z) :=
  if decide (8 ≤ length ptr)%nat then Ok (x ++ drop 8 ptr) else Err OutOfBounds.

Definition vaddq_u16 (a b : uint16x8_t) : uint16x8_t := zip_with lane_add a b.

Definition vsubq_u16 (a b : uint16x8_t) : uint16x8_t := zip_with lane_sub a b.

Definition vandq_u16 (a b : uint16x8_t) : uint16x8_t := zip_with Z.land a b.

Definition vorrq_u16 (a b : uint16x8_t) : uint16x8_t := zip_with Z.lor a b.

Definition veorq_u16 (a b : uint16x8_t) : uint16x8_t := zip_with Z.lxor a b.

(** One lane of [vshlq_u16]: the shift count is the low byte of the shift
    lane, read as signed. *)
Definition vshl_lane (a shift : Z) : Z :=
  let s := signed 8 shift in
  if decide (0 ≤ s) then wrap 16 (a ≪ s) else a ≫ (- s).

Definition vshlq_u16 (a : uint16x8_t) (shift : int16x8_t) : uint16x8_t :=
  zip_with vshl_lane a shift.

Definition vceqq_u16 (a b : uint16x8_t) : uint16x8_t := zip_with lane_eq a b.

Definition vmaxq_u16 (a b : uint16x8_t) : uint16x8_t := zip_with Z.max a b.

Definition vminq_u16 (a b : uint16x8_t) : uint16x8_t := zip_with Z.min a b.

Definition vbslq_u16 (mask a b : uint16x8_t) : uint16x8_t :=
  zip_with3 lane_bsl mask a b.

(** ** The union and the value type *)

Record Holder_neon : Type := { lo : uint16x8_t; hi : uint16x8_t }.

Record SIMD16u_neon : Type := { v_neon : Holder_neon }.

(** The member [arr] of the union, read ... *)
Definition arr_neon (h : Holder_neon) : list Z := lo h ++ hi h.

(** ... and with one element assigned. *)
Definition arr_neon_set (h : Holder_neon) (i : nat) (x : Z) : Holder_neon :=
  if decide (i < 8)%nat
  then {| lo := <[i := x]> (lo h); hi := hi h |}
  else {| lo := lo h; hi := <[(i - 8)%nat := x]> (hi h) |}.

#[export] Instance Holder_neon_eq_dec : EqDecision Holder_neon.
Proof. solve_decision. Defined.

#[export] Instance SIMD16u_neon_eq_dec : EqDecision SIMD16u_neon.
Proof. solve_decision. Defined.

(** [SIMD16u(uint16x8_t lo, uint16x8_t hi)] *)
Definition SIMD16u_lo_hi_neon (lo hi : uint16x8_t) : SIMD16u_neon :=
  {| v_neon := {| lo := lo; hi := hi |} |}.

(** [SIMD16u(uint16_t scalar)] *)
Definition SIMD16u_scalar_neon (scalar : Z) : SIMD16u_neon :=
  {| v_neon := {| lo := vdupq_n_u16 scalar; hi := vdupq_n_u16 scalar |} |}.

Definition fill_neon (x : SIMD16u_neon) (scalar : Z) : SIMD16u_neon :=
  {| v_neon := {| lo := vdupq_n_u16 scalar; hi := vdupq_n_u16 scalar |} |}.

Definition load_neon (ptr : list Z) : result SIMD16u_neon :=
  do l <- vld1q_u16 ptr;
  do h <- vld1q_u16 (drop 8 ptr);
  Ok {| v_neon := {| lo := l; hi := h |} |}.

Definition store_neon (x : SIMD16u_neon) (ptr : list Z) : result (list Z) :=
  do m <- vst1q_u16 ptr (lo (v_neon x));
  do m' <- vst1q_u16 (drop 8 m) (hi (v_neon x));
  Ok (take 8 m ++ m').

(** [operator[]]: [v.arr[i & 15]], read ... *)
Definition operator_index_neon (x : SIMD16u_neon) (i : Z) : result Z :=
  at_index (arr_neon (v_neon x)) (lane_index i).

(** ... and assigned through the reference. *)
Definition operator_index_assign_neon (x : SIMD16u_neon) (i s : Z) :
  result SIMD16u_neon :=
  do _ <- at_index (arr_neon (v_neon x)) (lane_index i);
  Ok {| v_neon := arr_neon_set (v_neon x) (lane_index i) (wrap 16 s) |}.

Definition operator_add_neon (x o : SIMD16u_neon) : SIMD16u_neon :=
  SIMD16u_lo_hi_neon (vaddq_u16 (lo (v_neon x)) (lo (v_neon o)))
                     (vaddq_u16 (hi (v_neon x)) (hi (v_neon o))).

Definition operator_sub_neon (x o : SIMD16u_neon) : SIMD16u_neon :=
  SIMD16u_lo_hi_neon (vsubq_u16 (lo (v_neon x)) (lo (v_neon o)))
                     (vsubq_u16 (hi (v_neon x)) (hi (v_neon o))).

Definition operator_and_neon (x o : SIMD16u_neon) : SIMD16u_neon :=
  SIMD16u_lo_hi_neon (vandq_u16 (lo (v_neon x)) (lo (v_neon o)))
                     (vandq_u16 (hi (v_neon x)) (hi (v_neon o))).

Definition operator_or_neon (x o : SIMD16u_neon) : SIMD16u_neon :=
  SIMD16u_lo_hi_neon (vorrq_u16 (lo (v_neon x)) (lo (v_neon o)))
                     (vorrq_u16 (hi (v_neon x)) (hi (v_neon o))).

Definition operator_xor_neon (x o : SIMD16u_neon) : SIMD16u_neon :=
  SIMD16u_lo_hi_neon (veorq_u16 (lo (v_neon x)) (lo (v_neon o)))
                     (veorq_u16 (hi (v_neon x)) (hi (v_neon o))).

(** [static_cast<int16_t>(bits)] of an [int]. *)
Definition sll_neon (x : SIMD16u_neon) (bits : Z) : SIMD16u_neon :=
  let shift := vdupq_n_s16 (signed 16 bits) in
  SIMD16u_lo_hi_neon (vshlq_u16 (lo (v_neon x)) shift)
                     (vshlq_u16 (hi (v_neon x)) shift).

Definition srl_neon (x : SIMD16u_neon) (bits : Z) : SIMD16u_neon :=
  let shift := vdupq_n_s16 (signed 16 (- bits)) in
  SIMD16u_lo_hi_neon (vshlq_u16 (lo (v_neon x)) shift)
                     (vshlq_u16 (hi (v_neon x)) shift).

Definition cmpeq_neon (x o : SIMD16u_neon) : SIMD16u_neon :=
  SIMD16u_lo_hi_neon (vceqq_u16 (lo (v_neon x)) (lo (v_neon o)))
                     (vceqq_u16 (hi (v_neon x)) (hi (v_neon o))).

(** [maxmask]: the new receiver and the mask. *)
Definition maxmask_neon (x o : SIMD16u_neon) : SIMD16u_neon * SIMD16u_neon :=
  let mlo := vmaxq_u16 (lo (v_neon x)) (lo (v_neon o)) in
  let mhi := vmaxq_u16 (hi (v_neon x)) (hi (v_neon o)) in
  let eq0lo := vceqq_u16 mlo (lo (v_neon x)) in
  let eq0hi := vceqq_u16 mhi (hi (v_neon x)) in
  ({| v_neon := {| lo := mlo; hi := mhi |} |}, SIMD16u_lo_hi_neon eq0lo eq0hi).

Definition minmask_neon (x o : SIMD16u_neon) : SIMD16u_neon * SIMD16u_neon :=
  let mlo := vminq_u16 (lo (v_neon x)) (lo (v_neon o)) in
  let mhi := vminq_u16 (hi (v_neon x)) (hi (v_neon o)) in
  let eq0lo := vceqq_u16 mlo (lo (v_neon x)) in
  let eq0hi := vceqq_u16 mhi (hi (v_neon x)) in
  ({| v_neon := {| lo := mlo; hi := mhi |} |}, SIMD16u_lo_hi_neon eq0lo eq0hi).

Definition blend_neon (x other mask : SIMD16u_neon) : SIMD16u_neon :=
  {| v_neon :=
       {| lo := vbslq_u16 (lo (v_neon mask)) (lo (v_neon x)) (lo (v_neon other));
          hi := vbslq_u16 (hi (v_neon mask)) (hi (v_neon x)) (hi (v_neon other)) |} |}.

(** ** The instance *)

Definition SIMD16u_neon_ok (x : SIMD16u_neon) : Prop :=
  lanes_ok 8 16 (lo (v_neon x)) ∧ lanes_ok 8 16 (hi (v_neon x)).

Definition to_lanes_neon (x : SIMD16u_neon) : list Z := arr_neon (v_neon x).

Definition of_lanes_neon (l : list Z) : SIMD16u_neon :=
  SIMD16u_lo_hi_neon (take 8 l) (drop 8 l).

#[export] Instance SIMD16u_neon_ok_dec x : Decision (SIMD16u_neon_ok x).
Proof. unfold SIMD16u_neon_ok. apply _. Defined.

#[export] Instance neon16 : Simd16 := {|
  simd16_t := SIMD16u_neon;
  simd16_ok := SIMD16u_neon_ok;
  to_lanes := to_lanes_neon;
  of_lanes := of_lanes_neon;
  broadcast := SIMD16u_scalar_neon;
  fill16 := fill_neon;
  load := load_neon;
  store := store_neon;
  get := operator_index_neon;
  set := operator_index_assign_neon;
  add := operator_add_neon;
  sub := operator_sub_neon;
  and_ := operator_and_neon;
  or_ := operator_or_neon;
  xor := operator_xor_neon;
  sll := sll_neon;
  srl := srl_neon;
  cmpeq := cmpeq_neon;
  maxmask := maxmask_neon;
  minmask := minmask_neon;
  blend := blend_neon;
  simd16_eq_dec := _;
  simd16_ok_dec := _;
|}.

(** ** The union's array *)

Lemma arr_neon_ok x : SIMD16u_neon_ok x → lanes_ok 16 16 (to_lanes_neon x).
Proof.
  intros [[Hl ?] [Hh ?]]. split; [|by apply Forall_app].
  unfold to_lanes_neon, arr_neon. rewrite length_app. lia.
Qed.

Lemma lo_hi_ok l h :
  lanes_ok 8 16 l → lanes_ok 8 16 h → SIMD16u_neon_ok (SIMD16u_lo_hi_neon l h).
Proof. by split. Qed.

Lemma of_lanes_neon_ok l : lanes_ok 16 16 l → SIMD16u_neon_ok (of_lanes_neon l).
Proof.
  intros [Hlen Hl]. split; simpl; (split; [|by (apply Forall_take || apply Forall_drop)]).
  - rewrite length_take. lia.
  - rewrite length_drop. lia.
Qed.

Lemma to_lanes_of_lanes_neon l : to_lanes_neon (of_lanes_neon l) = l.
Proof. apply take_drop. Qed.

Lemma of_lanes_to_lanes_neon x : SIMD16u_neon_ok x → of_lanes_neon (to_lanes_neon x) = x.
Proof.
  intros [[Hl _] _]. destruct x as [[l h]]. simpl in *.
  unfold of_lanes_neon, to_lanes_neon, arr_neon, SIMD16u_lo_hi_neon. simpl.
  by rewrite take_app_length', drop_app_length'.
Qed.

Lemma arr_neon_set_spec h (i : nat) x :
  length (lo h) = 8%nat →
  arr_neon (arr_neon_set h i x) = <[i := x]> (arr_neon h).
Proof.
  intros Hl. unfold arr_neon, arr_neon_set. rewrite insert_app, Hl.
  by case_decide.
Qed.

(** ** Lane-wise operations on the two halves *)

Section halves.
Context (x o : SIMD16u_neon) (Hx : SIMD16u_neon_ok x) (Ho : SIMD16u_neon_ok o).

Lemma halves_zip_with (f : Z → Z → Z) :
  to_lanes_neon (SIMD16u_lo_hi_neon
    (zip_with f (lo (v_neon x)) (lo (v_neon o)))
    (zip_with f (hi (v_neon x)) (hi (v_neon o)))) =
  zip_with f (to_lanes_neon x) (to_lanes_neon o).
Proof.
  destruct Hx as [[Hl _] _], Ho as [[Hl' _] _].
  unfold to_lanes_neon, arr_neon. simpl. rewrite zip_with_app; [done|lia].
Qed.

Lemma halves_ok (f : Z → Z → Z) :
  (∀ a b, in_range 16 a → in_range 16 b → in_range 16 (f a b)) →
  SIMD16u_neon_ok (SIMD16u_lo_hi_neon
    (zip_with f (lo (v_neon x)) (lo (v_neon o)))
    (zip_with f (hi (v_neon x)) (hi (v_neon o)))).
Proof.
  intros Hf. destruct Hx, Ho. apply lo_hi_ok; by apply lanes_ok_zip_with.
Qed.

End halves.

Lemma neon_lanewise2 (op : SIMD16u_neon → SIMD16u_neon → SIMD16u_neon)
    (f : Z → Z → Z) :
  (∀ x o, op x o = SIMD16u_lo_hi_neon
     (zip_with f (lo (v_neon x)) (lo (v_neon o)))
     (zip_with f (hi (v_neon x)) (hi (v_neon o)))) →
  (∀ a b, in_range 16 a → in_range 16 b → in_range 16 (f a b)) →
  lanewise2 (H := neon16) op f.
Proof.
  intros Hop Hf x o Hx Ho. rewrite Hop.
  split; [by apply halves_ok|by apply halves_zip_with].
Qed.

(** The mask of [maxmask] and [minmask] is a lane-wise comparison. *)
Lemma neon_mask (f h : Z → Z → Z) x o :
  (∀ a b, lane_eq (f a b) a = h a b) →
  SIMD16u_lo_hi_neon
    (vceqq_u16 (zip_with f (lo (v_neon x)) (lo (v_neon o))) (lo (v_neon x)))
    (vceqq_u16 (zip_with f (hi (v_neon x)) (hi (v_neon o))) (hi (v_neon x))) =
  SIMD16u_lo_hi_neon
    (zip_with h (lo (v_neon x)) (lo (v_neon o)))
    (zip_with h (hi (v_neon x)) (hi (v_neon o))).
Proof. intros Hh. unfold vceqq_u16. by rewrite !(zip_with_compare f lane_eq h). Qed.

(** ** Shifts *)

Lemma vshl_lane_left a bits :
  0 ≤ bits ≤ 15 → vshl_lane a (signed 16 bits) = lane_sll bits a.
Proof.
  intros Hb. unfold vshl_lane, lane_sll.
  rewrite (signed_small 16 bits), (signed_small 8 bits) by lia.
  by rewrite decide_True by lia.
Qed.

Lemma vshl_lane_right a bits :
  0 ≤ bits ≤ 15 → in_range 16 a → vshl_lane a (signed 16 (- bits)) = lane_srl bits a.
Proof.
  intros Hb Ha. unfold vshl_lane, lane_srl.
  rewrite (signed_small 16 (- bits)), (signed_small 8 (- bits)) by lia.
  case_decide; [|f_equal; lia].
  assert (bits = 0) as -> by lia. rewrite Z.shiftl_0_r, Z.shiftr_0_r.
  by apply wrap_small.
Qed.

Lemma vshlq_u16_fmap (f : Z → Z) l s :
  lanes_ok 8 16 l → (∀ a, in_range 16 a → vshl_lane a s = f a) →
  vshlq_u16 l (vdupq_n_s16 s) = f <$> l.
Proof.
  intros [Hlen Hl] Hf. unfold vshlq_u16, vdupq_n_s16.
  rewrite zip_with_replicate_r_eq by done. apply list_eq. intros i.
  rewrite !list_lookup_fmap. destruct (l !! i) as [a|] eqn:Ha; simpl; [|done].
  f_equal. apply Hf. exact (Forall_lookup_1 _ _ _ _ Hl Ha).
Qed.

Lemma neon_shift (f : Z → Z) x s :
  SIMD16u_neon_ok x → (∀ a, in_range 16 a → vshl_lane a s = f a) →
  (∀ a, in_range 16 a → in_range 16 (f a)) →
  let y := SIMD16u_lo_hi_neon (vshlq_u16 (lo (v_neon x)) (vdupq_n_s16 s))
                              (vshlq_u16 (hi (v_neon x)) (vdupq_n_s16 s)) in
  SIMD16u_neon_ok y ∧ to_lanes_neon y = f <$> to_lanes_neon x.
Proof.
  intros [Hl Hh] Hs Hf y. unfold y.
  rewrite !(vshlq_u16_fmap f) by done. split.
  - apply lo_hi_ok; by apply (lanes_ok_fmap f 8 16 16).
  - unfold to_lanes_neon, arr_neon. simpl. by rewrite fmap_app.
Qed.

(** ** Broadcast, memory and single lanes *)

Lemma broadcast_neon s :
  in_range 16 s →
  SIMD16u_neon_ok (SIMD16u_scalar_neon s) ∧
  to_lanes_neon (SIMD16u_scalar_neon s) = replicate 16 s.
Proof.
  intros Hs. unfold SIMD16u_scalar_neon, vdupq_n_u16. rewrite wrap_small by done.
  split; [split; by apply lanes_ok_replicate|].
  done.
Qed.

Lemma load_neon_lanes buf :
  (16 ≤ length buf)%nat → Forall (in_range 16) buf →
  ∃ x, load_neon buf = Ok x ∧ SIMD16u_neon_ok x ∧ to_lanes_neon x = take 16 buf.
Proof.
  intros Hlen Hbuf. unfold load_neon, vld1q_u16.
  rewrite length_drop, !decide_True by lia. eexists. split; [done|]. split.
  - split; simpl; (split; [rewrite length_take, ?length_drop; lia|]).
    + by apply Forall_take.
    + by apply Forall_take, Forall_drop.
  - exact (take_take_drop buf 8 8).
Qed.

Lemma load_neon_short buf : (length buf < 16)%nat → load_neon buf = Err OutOfBounds.
Proof.
  intros Hlen. unfold load_neon, vld1q_u16. case_decide; [|done]. simpl.
  rewrite length_drop. by rewrite decide_False by lia.
Qed.

Lemma store_neon_lanes x buf :
  SIMD16u_neon_ok x → (16 ≤ length buf)%nat →
  store_neon x buf = Ok (to_lanes_neon x ++ drop 16 buf).
Proof.
  intros [[Hl _] [Hh _]] Hlen. unfold store_neon, vst1q_u16.
  rewrite decide_True by lia. simpl.
  rewrite drop_app_length', take_app_length' by done.
  rewrite length_drop, decide_True by lia. simpl.
  unfold to_lanes_neon, arr_neon. by rewrite drop_drop, <- app_assoc.
Qed.

Lemma store_neon_short x buf :
  SIMD16u_neon_ok x → (length buf < 16)%nat → store_neon x buf = Err OutOfBounds.
Proof.
  intros [[Hl _] _] Hlen. unfold store_neon, vst1q_u16. case_decide; [|done]. simpl.
  rewrite drop_app_length' by done. rewrite length_drop. by rewrite decide_False by lia.
Qed.

Lemma set_neon_lanes x i s :
  SIMD16u_neon_ok x → 0 ≤ i → in_range 16 s →
  ∃ y, operator_index_assign_neon x i s = Ok y ∧ SIMD16u_neon_ok y ∧
       to_lanes_neon y = <[lane_index i := s]> (to_lanes_neon x).
Proof.
  intros Hx Hi Hs. pose proof (arr_neon_ok x Hx) as Harr.
  destruct (lanes_ok_lookup_lt 16 16 _ (lane_index i) Harr) as (a & Ha & _);
    [by apply lane_index_lt|].
  unfold operator_index_assign_neon. rewrite (bind_eq_Ok _ _ a) by auto with simd.
  rewrite wrap_small by done. eexists. split; [done|].
  destruct Hx as [Hlo Hhi]. split.
  - unfold arr_neon_set. case_decide; split; simpl; auto using lanes_ok_insert.
  - unfold to_lanes_neon. simpl. apply arr_neon_set_spec. apply Hlo.
Qed.

(** ** Blend *)

Lemma blend_neon_lanes x other mask :
  SIMD16u_neon_ok x → SIMD16u_neon_ok other → SIMD16u_neon_ok mask →
  mask16 (to_lanes_neon mask) →
  SIMD16u_neon_ok (blend_neon x other mask) ∧
  to_lanes_neon (blend_neon x other mask) =
  zip_with3 lane_select (to_lanes_neon mask) (to_lanes_neon x) (to_lanes_neon other).
Proof.
  intros Hx Ho Hm Hmask. split.
  { destruct Hx, Ho, Hm.
    split; simpl; apply lanes_ok_zip_with3; auto using lane_bsl_range. }
  pose proof (arr_neon_ok _ Hx) as Hax. pose proof (arr_neon_ok _ Ho) as Hao.
  destruct Hx as [[? _] _], Ho as [[? _] _], Hm as [[? _] _].
  unfold to_lanes_neon, arr_neon, blend_neon, vbslq_u16 in *. simpl.
  rewrite <- zip_with3_app by lia. apply zip_with3_ext.
  intros i m a b Hm Ha Hb. apply lane_bsl_select.
  - by eapply mask16_lookup.
  - exact (lanes_ok_lookup_range _ _ _ _ _ Hax Ha).
  - exact (lanes_ok_lookup_range _ _ _ _ _ Hao Hb).
Qed.

(** ** The backend satisfies the interface *)

#[export] Instance neon16_laws : Simd16Laws neon16.
Proof.
  split.
  - apply arr_neon_ok.
  - apply of_lanes_neon_ok.
  - intros. apply to_lanes_of_lanes_neon.
  - apply of_lanes_to_lanes_neon.
  - apply broadcast_neon.
  - done.
  - apply load_neon_lanes.
  - apply load_neon_short.
  - apply store_neon_lanes.
  - apply store_neon_short.
  - done.
  - apply set_neon_lanes.
  - by apply neon_lanewise2; auto with simd.
  - by apply neon_lanewise2; auto with simd.
  - by apply neon_lanewise2; auto with simd.
  - by apply neon_lanewise2; auto with simd.
  - by apply neon_lanewise2; auto with simd.
  - intros bits Hb x Hx.
    apply (neon_shift (lane_sll bits)); auto using vshl_lane_left with simd.
  - intros bits Hb x Hx.
    apply (neon_shift (lane_srl bits)); auto using vshl_lane_right.
    intros. apply lane_srl_range; (done || lia).
  - by apply neon_lanewise2; auto with simd.
  - split; apply neon_lanewise2; auto with simd.
    intros x o. simpl. apply (neon_mask Z.max), lane_eq_max.
  - split; apply neon_lanewise2; auto with simd.
    intros x o. simpl. apply (neon_mask Z.min), lane_eq_min.
  - apply blend_neon_lanes.
Qed.
