(* ===== verification/Simd16Avx.v ===== *)
(** * SIMD16u on x86 AVX2

    Lines 327-399 of src/unnamed/part_000: [SIMD16u] as a union of one
    [__m256i] and an array of sixteen [uint16_t].  The register is the
    list of its sixteen 16-bit words, which is also the union's array.
    The intrinsics are modelled from the instruction descriptions: the
    shifts take their count as an unsigned number and clear every lane
    when it exceeds 15; [_mm256_blendv_epi8] selects byte by byte on the
    top bit of each mask byte.  [max] and [min] return the mask as a bare
    register and [blend] takes it as one: the instance [avx16] wraps the
    register into a [SIMD16u] for [maxmask] and [minmask] and unwraps it
    for [blend], so that both definitions of [SIMD16u] fit one interface. *)

From S2P Require Import Prelude Simd16.

Local Open Scope Z_scope.
Local Open Scope result_scope.

(** ** The intrinsics *)

Definition m256i : Type := list Z.

Definition _mm256_set1_epi16 (a : Z) : m256i := replicate 16 (wrap 16 a).

Definition _mm256_loadu_si256 (ptr : list Z) : result m256i :=
  if decide (16 ≤ length ptr)%nat then Ok (take 16 ptr) else Err OutOfBounds.

Definition _mm256_storeu_si256 (ptr : list Z) (a : m256i) : result (list Z) :=
  if decide (16 ≤ length ptr)%nat then Ok (a ++ drop 16 ptr) else Err OutOfBounds.

Definition _mm256_add_epi16 (a b : m256i) : m256i := zip_with lane_add a b.

Definition _mm256_sub_epi16 (a b : m256i) : m256i := zip_with lane_sub a b.

Definition _mm256_and_si256 (a b : m256i) : m256i := zip_with Z.land a b.

Definition _mm256_or_si256 (a b : m256i) : m256i := zip_with Z.lor a b.

Definition _mm256_xor_si256 (a b : m256i) : m256i := zip_with Z.lxor a b.

(** The source passes an [int] that is no compile-time constant, so the
    count reaches the instruction as an unsigned 32-bit number and every
    count above 15 clears the lanes.  On the counts an immediate can hold
    (0 to 255) this is the vendor's description of the immediate form. *)
Definition _mm256_slli_epi16 (a : m256i) (imm8 : Z) : m256i :=
  let count := wrap 32 imm8 in
  if decide (15 < count) then (λ _, 0) <$> a else lane_sll count <$> a.

Definition _mm256_srli_epi16 (a : m256i) (imm8 : Z) : m256i :=
  let count := wrap 32 imm8 in
  if decide (15 < count) then (λ _, 0) <$> a else lane_srl count <$> a.

Definition _mm256_cmpeq_epi16 (a b : m256i) : m256i := zip_with lane_eq a b.

Definition _mm256_max_epu16 (a b : m256i) : m256i := zip_with Z.max a b.

Definition _mm256_min_epu16 (a b : m256i) : m256i := zip_with Z.min a b.

(** Each byte from [b] where the top bit of the mask byte is set, from [a]
    elsewhere. *)
Definition _mm256_blendv_epi8 (a b mask : m256i) : m256i :=
  zip_with3 lane_blendv mask b a.

(** ** The union and the value type *)

Record Holder_avx : Type := { reg : m256i }.

Record SIMD16u_avx : Type := { v_avx : Holder_avx }.

(** The member [arr] of the union. *)
Definition arr_avx (h : Holder_avx) : list Z := reg h.

#[export] Instance Holder_avx_eq_dec : EqDecision Holder_avx.
Proof. solve_decision. Defined.

#[export] Instance SIMD16u_avx_eq_dec : EqDecision SIMD16u_avx.
Proof. solve_decision. Defined.

(** [explicit SIMD16u(__m256i x)] *)
Definition SIMD16u_reg_avx (x : m256i) : SIMD16u_avx := {| v_avx := {| reg := x |} |}.

(** [SIMD16u(uint16_t scalar)] *)
Definition SIMD16u_scalar_avx (scalar : Z) : SIMD16u_avx :=
  {| v_avx := {| reg := _mm256_set1_epi16 scalar |} |}.

Definition fill_avx (x : SIMD16u_avx) (scalar : Z) : SIMD16u_avx :=
  {| v_avx := {| reg := _mm256_set1_epi16 scalar |} |}.

Definition load_avx (ptr : list Z) : result SIMD16u_avx :=
  do r <- _mm256_loadu_si256 ptr; Ok (SIMD16u_reg_avx r).

Definition store_avx (x : SIMD16u_avx) (ptr : list Z) : result (list Z) :=
  _mm256_storeu_si256 ptr (reg (v_avx x)).

Definition operator_index_avx (x : SIMD16u_avx) (i : Z) : result Z :=
  at_index (arr_avx (v_avx x)) (lane_index i).

Definition operator_index_assign_avx (x : SIMD16u_avx) (i s : Z) :
  result SIMD16u_avx :=
  do _ <- at_index (arr_avx (v_avx x)) (lane_index i);
  Ok {| v_avx := {| reg := <[lane_index i := wrap 16 s]> (reg (v_avx x)) |} |}.

Definition operator_add_avx (x o : SIMD16u_avx) : SIMD16u_avx :=
  SIMD16u_reg_avx (_mm256_add_epi16 (reg (v_avx x)) (reg (v_avx o))).

Definition operator_sub_avx (x o : SIMD16u_avx) : SIMD16u_avx :=
  SIMD16u_reg_avx (_mm256_sub_epi16 (reg (v_avx x)) (reg (v_avx o))).

Definition operator_and_avx (x o : SIMD16u_avx) : SIMD16u_avx :=
  SIMD16u_reg_avx (_mm256_and_si256 (reg (v_avx x)) (reg (v_avx o))).

Definition operator_or_avx (x o : SIMD16u_avx) : SIMD16u_avx :=
  SIMD16u_reg_avx (_mm256_or_si256 (reg (v_avx x)) (reg (v_avx o))).

Definition operator_xor_avx (x o : SIMD16u_avx) : SIMD16u_avx :=
  SIMD16u_reg_avx (_mm256_xor_si256 (reg (v_avx x)) (reg (v_avx o))).

Definition sll_avx (x : SIMD16u_avx) (bits : Z) : SIMD16u_avx :=
  SIMD16u_reg_avx (_mm256_slli_epi16 (reg (v_avx x)) bits).

Definition srl_avx (x : SIMD16u_avx) (bits : Z) : SIMD16u_avx :=
  SIMD16u_reg_avx (_mm256_srli_epi16 (reg (v_avx x)) bits).

Definition cmpeq_avx (x o : SIMD16u_avx) : SIMD16u_avx :=
  SIMD16u_reg_avx (_mm256_cmpeq_epi16 (reg (v_avx x)) (reg (v_avx o))).

(** [max]: the new receiver and the mask register. *)
Definition max_avx (x o : SIMD16u_avx) : SIMD16u_avx * m256i :=
  let m := _mm256_max_epu16 (reg (v_avx x)) (reg (v_avx o)) in
  let eq0 := _mm256_cmpeq_epi16 m (reg (v_avx x)) in
  ({| v_avx := {| reg := m |} |}, eq0).

Definition min_avx (x o : SIMD16u_avx) : SIMD16u_avx * m256i :=
  let m := _mm256_min_epu16 (reg (v_avx x)) (reg (v_avx o)) in
  let eq0 := _mm256_cmpeq_epi16 m (reg (v_avx x)) in
  ({| v_avx := {| reg := m |} |}, eq0).

Definition blend_avx (x other : SIMD16u_avx) (mask : m256i) : SIMD16u_avx :=
  {| v_avx :=
       {| reg := _mm256_blendv_epi8 (reg (v_avx other)) (reg (v_avx x)) mask |} |}.

(** ** The instance *)

Definition SIMD16u_avx_ok (x : SIMD16u_avx) : Prop := lanes_ok 16 16 (reg (v_avx x)).

Definition to_lanes_avx (x : SIMD16u_avx) : list Z := arr_avx (v_avx x).

Definition of_lanes_avx (l : list Z) : SIMD16u_avx := SIMD16u_reg_avx l.

#[export] Instance SIMD16u_avx_ok_dec x : Decision (SIMD16u_avx_ok x).
Proof. unfold SIMD16u_avx_ok. apply _. Defined.

#[export] Instance avx16 : Simd16 := {|
  simd16_t := SIMD16u_avx;
  simd16_ok := SIMD16u_avx_ok;
  to_lanes := to_lanes_avx;
  of_lanes := of_lanes_avx;
  broadcast := SIMD16u_scalar_avx;
  fill16 := fill_avx;
  load := load_avx;
  store := store_avx;
  get := operator_index_avx;
  set := operator_index_assign_avx;
  add := operator_add_avx;
  sub := operator_sub_avx;
  and_ := operator_and_avx;
  or_ := operator_or_avx;
  xor := operator_xor_avx;
  sll := sll_avx;
  srl := srl_avx;
  cmpeq := cmpeq_avx;
  maxmask x o := ((max_avx x o).1, SIMD16u_reg_avx (max_avx x o).2);
  minmask x o := ((min_avx x o).1, SIMD16u_reg_avx (min_avx x o).2);
  blend x other mask := blend_avx x other (reg (v_avx mask));
  simd16_eq_dec := _;
  simd16_ok_dec := _;
|}.

(** ** Lane-wise operations on the register *)

Lemma avx_lanewise2 (op : SIMD16u_avx → SIMD16u_avx → SIMD16u_avx)
    (f : Z → Z → Z) :
  (∀ x o, op x o = SIMD16u_reg_avx (zip_with f (reg (v_avx x)) (reg (v_avx o)))) →
  (∀ a b, in_range 16 a → in_range 16 b → in_range 16 (f a b)) →
  lanewise2 (H := avx16) op f.
Proof.
  intros Hop Hf x o Hx Ho. rewrite Hop. split; [|done].
  by apply lanes_ok_zip_with.
Qed.

Lemma avx_shift (g : Z → Z → Z) x bits :
  SIMD16u_avx_ok x → 0 ≤ bits ≤ 15 →
  (∀ a, in_range 16 a → in_range 16 (g bits a)) →
  let y := SIMD16u_reg_avx
             (if decide (15 < wrap 32 bits) then (λ _, 0) <$> reg (v_avx x)
              else g (wrap 32 bits) <$> reg (v_avx x)) in
  SIMD16u_avx_ok y ∧ to_lanes_avx y = g bits <$> to_lanes_avx x.
Proof.
  intros Hx Hb Hg y. unfold y.
  rewrite (wrap_small 32 bits), decide_False by (unfold in_range; lia).
  split; [|done]. by apply (lanes_ok_fmap _ 16 16 16).
Qed.

Lemma broadcast_avx s :
  in_range 16 s →
  SIMD16u_avx_ok (SIMD16u_scalar_avx s) ∧
  to_lanes_avx (SIMD16u_scalar_avx s) = replicate 16 s.
Proof.
  intros Hs. unfold SIMD16u_scalar_avx, _mm256_set1_epi16. rewrite wrap_small by done.
  split; [by apply lanes_ok_replicate|done].
Qed.

Lemma load_avx_lanes buf :
  (16 ≤ length buf)%nat → Forall (in_range 16) buf →
  ∃ x, load_avx buf = Ok x ∧ SIMD16u_avx_ok x ∧ to_lanes_avx x = take 16 buf.
Proof.
  intros Hlen Hbuf. unfold load_avx, _mm256_loadu_si256. rewrite decide_True by done.
  eexists. split_and!; [done| |done].
  split; simpl; [rewrite length_take; lia|by apply Forall_take].
Qed.

Lemma set_avx_lanes x i s :
  SIMD16u_avx_ok x → 0 ≤ i → in_range 16 s →
  ∃ y, operator_index_assign_avx x i s = Ok y ∧ SIMD16u_avx_ok y ∧
       to_lanes_avx y = <[lane_index i := s]> (to_lanes_avx x).
Proof.
  intros Hx Hi Hs.
  destruct (lanes_ok_lookup_lt 16 16 _ (lane_index i) Hx) as (a & Ha & _);
    [by apply lane_index_lt|].
  unfold operator_index_assign_avx. rewrite (bind_eq_Ok _ _ a) by auto with simd.
  rewrite wrap_small by done. eexists. split_and!; [done| |done].
  by apply lanes_ok_insert.
Qed.

Lemma blend_avx_lanes x other mask :
  SIMD16u_avx_ok x → SIMD16u_avx_ok other → SIMD16u_avx_ok mask →
  mask16 (to_lanes_avx mask) →
  SIMD16u_avx_ok (blend_avx x other (reg (v_avx mask))) ∧
  to_lanes_avx (blend_avx x other (reg (v_avx mask))) =
  zip_with3 lane_select (to_lanes_avx mask) (to_lanes_avx x) (to_lanes_avx other).
Proof.
  intros Hx Ho Hm Hmask.
  assert (to_lanes_avx (blend_avx x other (reg (v_avx mask))) =
          zip_with3 lane_select (to_lanes_avx mask) (to_lanes_avx x)
            (to_lanes_avx other)) as Heq.
  { apply zip_with3_ext. intros i m a b Hmi _ _.
    apply lane_blendv_select. by eapply mask16_lookup. }
  split; [|done]. unfold SIMD16u_avx_ok. change (reg (v_avx ?y)) with (to_lanes_avx y).
  rewrite Heq. apply lanes_ok_zip_with3; auto using lane_select_range.
Qed.

(** ** The backend satisfies the interface *)

#[export] Instance avx16_laws : Simd16Laws avx16.
Proof.
  split.
  - done.
  - done.
  - done.
  - by intros [[?]].
  - apply broadcast_avx.
  - done.
  - apply load_avx_lanes.
  - intros buf Hlen. unfold load, avx16, load_avx, _mm256_loadu_si256.
    by rewrite decide_False by lia.
  - intros x buf [Hlen _] Hbuf. unfold store, avx16, store_avx, _mm256_storeu_si256.
    by rewrite decide_True by done.
  - intros x buf _ Hlen. unfold store, avx16, store_avx, _mm256_storeu_si256.
    by rewrite decide_False by lia.
  - done.
  - apply set_avx_lanes.
  - by apply avx_lanewise2; auto with simd.
  - by apply avx_lanewise2; auto with simd.
  - by apply avx_lanewise2; auto with simd.
  - by apply avx_lanewise2; auto with simd.
  - by apply avx_lanewise2; auto with simd.
  - intros bits Hb x Hx. apply (avx_shift lane_sll); auto with simd.
  - intros bits Hb x Hx. apply (avx_shift lane_srl); [done..|].
    intros. apply lane_srl_range; (done || lia).
  - by apply avx_lanewise2; auto with simd.
  - split; apply avx_lanewise2; auto with simd.
    intros x o. simpl. f_equal. apply (zip_with_compare Z.max), lane_eq_max.
  - split; apply avx_lanewise2; auto with simd.
    intros x o. simpl. f_equal. apply (zip_with_compare Z.min), lane_eq_min.
  - apply blend_avx_lanes.
Qed.
