(* ===== verification/Simd16Props.v ===== *)
(** * Properties of SIMD16u

    The laws of the specification and the algebra of the lane operations,
    proved once against the interface [Simd16Laws] and therefore for both
    backends: the round trip through memory, what [minmask] and [maxmask]
    return, how their mask and [blend] fit together, wrap-around addition
    and subtraction, and lane access modulo 16.  Programs over the
    interface are given as expressions with a reference semantics on lane
    lists; every lawful backend refines it, so the two backends compute the
    same lanes.  Where the contract ends (shift counts outside 0 to 15,
    masks that are not all-ones or all-zeros per lane) the backends differ,
    shown on concrete inputs. *)

From S2P Require Import Prelude Simd16 Simd16Neon Simd16Avx.

Local Open Scope Z_scope.
Local Open Scope result_scope.

(** ** Programs over the interface *)

Inductive expr : Type :=
  | EVar (n : nat)
  | EBroadcast (s : Z)
  | EAdd (a b : expr)
  | ESub (a b : expr)
  | EAnd (a b : expr)
  | EOr (a b : expr)
  | EXor (a b : expr)
  | ESll (a : expr) (bits : Z)
  | ESrl (a : expr) (bits : Z)
  | ECmpeq (a b : expr)
  | EMax (a b : expr)
  | EMaxMask (a b : expr)
  | EMin (a b : expr)
  | EMinMask (a b : expr)
  | EBlend (x other mask : expr).

(** The expressions whose value is a mask by construction. *)
Definition is_mask_expr (e : expr) : Prop :=
  match e with
  | ECmpeq _ _ | EMaxMask _ _ | EMinMask _ _ => True
  | _ => False
  end.

#[export] Instance is_mask_expr_dec e : Decision (is_mask_expr e).
Proof. destruct e; apply _. Defined.

(** Inside the contract: variables bound, scalars and shift counts in
    range, blend masks produced by a comparison. *)
Fixpoint wf_expr (n : nat) (e : expr) : Prop :=
  match e with
  | EVar i => (i < n)%nat
  | EBroadcast s => in_range 16 s
  | EAdd a b | ESub a b | EAnd a b | EOr a b | EXor a b | ECmpeq a b
  | EMax a b | EMaxMask a b | EMin a b | EMinMask a b => wf_expr n a ∧ wf_expr n b
  | ESll a bits | ESrl a bits => wf_expr n a ∧ 0 ≤ bits ≤ 15
  | EBlend x other mask =>
      wf_expr n x ∧ wf_expr n other ∧ wf_expr n mask ∧ is_mask_expr mask
  end.

#[export] Instance wf_expr_dec n e : Decision (wf_expr n e).
Proof. induction e; simpl; apply _. Defined.

(** The value of an expression on a backend ... *)
Fixpoint eval `{B : Simd16} (env : list simd16_t) (e : expr) : simd16_t :=
  match e with
  | EVar i => default (broadcast 0) (env !! i)
  | EBroadcast s => broadcast s
  | EAdd a b => add (eval env a) (eval env b)
  | ESub a b => sub (eval env a) (eval env b)
  | EAnd a b => and_ (eval env a) (eval env b)
  | EOr a b => or_ (eval env a) (eval env b)
  | EXor a b => xor (eval env a) (eval env b)
  | ESll a bits => sll (eval env a) bits
  | ESrl a bits => srl (eval env a) bits
  | ECmpeq a b => cmpeq (eval env a) (eval env b)
  | EMax a b => (maxmask (eval env a) (eval env b)).1
  | EMaxMask a b => (maxmask (eval env a) (eval env b)).2
  | EMin a b => (minmask (eval env a) (eval env b)).1
  | EMinMask a b => (minmask (eval env a) (eval env b)).2
  | EBlend x other mask => blend (eval env x) (eval env other) (eval env mask)
  end.

(** ... and its reference value on lane lists. *)
Fixpoint lanes_eval (env : list (list Z)) (e : expr) : list Z :=
  match e with
  | EVar i => default (replicate 16 0) (env !! i)
  | EBroadcast s => replicate 16 s
  | EAdd a b => zip_with lane_add (lanes_eval env a) (lanes_eval env b)
  | ESub a b => zip_with lane_sub (lanes_eval env a) (lanes_eval env b)
  | EAnd a b => zip_with Z.land (lanes_eval env a) (lanes_eval env b)
  | EOr a b => zip_with Z.lor (lanes_eval env a) (lanes_eval env b)
  | EXor a b => zip_with Z.lxor (lanes_eval env a) (lanes_eval env b)
  | ESll a bits => lane_sll bits <$> lanes_eval env a
  | ESrl a bits => lane_srl bits <$> lanes_eval env a
  | ECmpeq a b => zip_with lane_eq (lanes_eval env a) (lanes_eval env b)
  | EMax a b => zip_with Z.max (lanes_eval env a) (lanes_eval env b)
  | EMaxMask a b => zip_with lane_ge (lanes_eval env a) (lanes_eval env b)
  | EMin a b => zip_with Z.min (lanes_eval env a) (lanes_eval env b)
  | EMinMask a b => zip_with lane_le (lanes_eval env a) (lanes_eval env b)
  | EBlend x other mask =>
      zip_with3 lane_select (lanes_eval env mask) (lanes_eval env x)
        (lanes_eval env other)
  end.

(** Sample values on the two backends. *)
Definition ramp : list Z := [0; 1; 2; 3; 4; 5; 6; 7; 8; 9; 10; 11; 12; 13; 14; 65535].

Definition steps : list Z := [7; 7; 7; 7; 0; 0; 0; 0; 9; 9; 9; 9; 65535; 65535; 3; 3].

Definition ramp_neon : @simd16_t neon16 := of_lanes_neon ramp.

Definition steps_neon : @simd16_t neon16 := of_lanes_neon steps.

Definition ramp_avx : @simd16_t avx16 := of_lanes_avx ramp.

Definition steps_avx : @simd16_t avx16 := of_lanes_avx steps.

(** A buffer of eighteen elements. *)
Definition buffer18 : list Z := steps ++ [1; 2].

Definition env_neon : list (@simd16_t neon16) := [ramp_neon; steps_neon].

Definition env_avx : list (@simd16_t avx16) := [ramp_avx; steps_avx].

Definition sample : expr :=
  EBlend (EAdd (EVar 0) (EVar 1)) (ESll (EVar 1) 3) (EMinMask (EVar 0) (EVar 1)).

(** A value of the backend that is well-formed and has the lanes [l]. *)
Definition has_lanes {B : Simd16} (x : @simd16_t B) (l : list Z) : Prop :=
  simd16_ok x ∧ to_lanes x = l.

(** ** Consequences of the laws *)

Section laws.
Context {B : Simd16} {BL : Simd16Laws B}.
Implicit Types (x o : @simd16_t B).

Lemma to_lanes_inj x o :
  simd16_ok x → simd16_ok o → to_lanes x = to_lanes o → x = o.
Proof.
  intros Hx Ho Heq.
  by rewrite <- (of_lanes_to_lanes x), <- (of_lanes_to_lanes o), Heq.
Qed.

Lemma to_lanes_length x : simd16_ok x → length (to_lanes x) = 16%nat.
Proof. intros Hx. by destruct (to_lanes_ok x Hx). Qed.

(** Two lane vectors of a backend are equal when they agree lane by lane. *)
Lemma lanes_eq x (l : list Z) :
  simd16_ok x → length l = 16%nat →
  (∀ (i : nat) a b, to_lanes x !! i = Some a → l !! i = Some b → a = b) →
  to_lanes x = l.
Proof.
  intros Hx Hl Hall. lanes_ext 16%nat i; [done|by apply to_lanes_length|eauto].
Qed.

Lemma broadcast_mask m :
  is_mask 16 m → simd16_ok (broadcast m) ∧ mask16 (to_lanes (broadcast m)).
Proof.
  intros Hm. destruct (broadcast_lanes m) as [? ->]; [by apply is_mask_range|].
  split; [done|]. by apply Forall_replicate.
Qed.

Lemma select_replicate (m : Z) (lx lo : list Z) :
  length lx = 16%nat → length lo = 16%nat →
  zip_with3 lane_select (replicate 16 m) lx lo = if decide (m = 0) then lo else lx.
Proof.
  intros Hx Ho. unfold lane_select.
  lanes_ext 16%nat i;
    [by case_decide|apply zip_with3_length; by rewrite ?length_replicate|].
  rewrite zip_with3_lookup in Hx0.
  destruct (replicate 16 m !! i) as [m'|] eqn:Hm; [|done].
  apply lookup_replicate in Hm as [-> _].
  destruct (lx !! i) eqn:?, (lo !! i) eqn:?; simplify_eq/=. case_decide; congruence.
Qed.

(** [blend] under a mask that is the same in every lane. *)
Lemma blend_broadcast x o m :
  simd16_ok x → simd16_ok o → is_mask 16 m →
  simd16_ok (blend x o (broadcast m)) ∧
  to_lanes (blend x o (broadcast m)) = to_lanes (if decide (m = 0) then o else x).
Proof.
  intros Hx Ho Hm. destruct (broadcast_mask m Hm) as [Hok Hmask].
  destruct (blend_lanes x o (broadcast m)) as [? ->]; [done..|]. split; [done|].
  rewrite (proj2 (broadcast_lanes m (is_mask_range m Hm))).
  rewrite select_replicate by (by apply to_lanes_length). by case_decide.
Qed.

(** An operation undone lane by lane. *)
Lemma cancel_lanes (f g : Z → Z → Z) (lx lo : list Z) :
  length lx = 16%nat → length lo = 16%nat → Forall (in_range 16) lx →
  (∀ a b, in_range 16 a → g (f a b) b = a) →
  zip_with g (zip_with f lx lo) lo = lx.
Proof.
  intros Hx Ho Hr Hfg. lanes_ext 16%nat i; [done|by rewrite !length_zip_with; lia|].
  rewrite !lookup_zip_with in Hx0.
  destruct (lx !! i) as [a|] eqn:Ha, (lo !! i) as [b|]; simplify_eq/=.
  apply Hfg. exact (Forall_lookup_1 _ _ _ _ Hr Ha).
Qed.

Lemma minmask_to_lanes x o :
  simd16_ok x → simd16_ok o →
  simd16_ok (minmask x o).1 ∧ simd16_ok (minmask x o).2 ∧
  to_lanes (minmask x o).1 = zip_with Z.min (to_lanes x) (to_lanes o) ∧
  to_lanes (minmask x o).2 = zip_with lane_le (to_lanes x) (to_lanes o).
Proof.
  intros Hx Ho. destruct minmask_lanes as [H1 H2].
  destruct (H1 x o Hx Ho), (H2 x o Hx Ho). done.
Qed.

Lemma maxmask_to_lanes x o :
  simd16_ok x → simd16_ok o →
  simd16_ok (maxmask x o).1 ∧ simd16_ok (maxmask x o).2 ∧
  to_lanes (maxmask x o).1 = zip_with Z.max (to_lanes x) (to_lanes o) ∧
  to_lanes (maxmask x o).2 = zip_with lane_ge (to_lanes x) (to_lanes o).
Proof.
  intros Hx Ho. destruct maxmask_lanes as [H1 H2].
  destruct (H1 x o Hx Ho), (H2 x o Hx Ho). done.
Qed.

(** A mask applied with [blend], lane by lane. *)
Lemma blend_mask_lanes x o m (f : Z → Z → Z) :
  simd16_ok x → simd16_ok o → simd16_ok m →
  to_lanes m = zip_with f (to_lanes x) (to_lanes o) →
  (∀ a b, is_mask 16 (f a b)) →
  to_lanes (blend x o m) =
  zip_with (λ a b, lane_select (f a b) a b) (to_lanes x) (to_lanes o).
Proof.
  intros Hx Ho Hm Hl Hf.
  destruct (blend_lanes x o m) as [_ ->]; [done..|rewrite Hl; by apply mask16_zip_with|].
  rewrite Hl. apply list_eq. intros i. rewrite zip_with3_lookup, !lookup_zip_with.
  by destruct (to_lanes x !! i), (to_lanes o !! i).
Qed.

End laws.

(** ** Every lawful backend refines the reference semantics *)

Section refinement.
Context {B : Simd16} {BL : Simd16Laws B}.
Implicit Types (x o : @simd16_t B) (env : list (@simd16_t B)).

Lemma lanewise2_has_lanes op f x o lx lo :
  lanewise2 op f → has_lanes x lx → has_lanes o lo →
  has_lanes (op x o) (zip_with f lx lo).
Proof. intros Hop [Hx <-] [Ho <-]. by apply Hop. Qed.

Lemma lanewise1_has_lanes op f x lx :
  lanewise1 op f → has_lanes x lx → has_lanes (op x) (f <$> lx).
Proof. intros Hop [Hx <-]. by apply Hop. Qed.

Lemma blend_has_lanes x o m lx lo lm :
  has_lanes x lx → has_lanes o lo → has_lanes m lm → mask16 lm →
  has_lanes (blend x o m) (zip_with3 lane_select lm lx lo).
Proof. intros [Hx <-] [Ho <-] [Hm <-] Hmask. by apply blend_lanes. Qed.

Lemma eval_var env (i : nat) :
  Forall simd16_ok env → (i < length env)%nat →
  has_lanes (eval env (EVar i)) (lanes_eval (to_lanes <$> env) (EVar i)).
Proof.
  intros Henv Hi. destruct (lookup_lt_is_Some_2 env i Hi) as [x Hx]. simpl.
  rewrite list_lookup_fmap, Hx. simpl. split; [|done].
  exact (Forall_lookup_1 _ _ _ _ Henv Hx).
Qed.

Lemma eval_has_lanes env e :
  Forall simd16_ok env → wf_expr (length env) e →
  has_lanes (eval env e) (lanes_eval (to_lanes <$> env) e).
Proof.
  intros Henv. induction e; simpl; intros Hwf.
  - by apply eval_var.
  - by apply broadcast_lanes.
  - apply (lanewise2_has_lanes _ _ _ _ _ _ add_lanes); tauto.
  - apply (lanewise2_has_lanes _ _ _ _ _ _ sub_lanes); tauto.
  - apply (lanewise2_has_lanes _ _ _ _ _ _ and_lanes); tauto.
  - apply (lanewise2_has_lanes _ _ _ _ _ _ or_lanes); tauto.
  - apply (lanewise2_has_lanes _ _ _ _ _ _ xor_lanes); tauto.
  - apply (lanewise1_has_lanes _ _ _ _ (sll_lanes bits (proj2 Hwf))); tauto.
  - apply (lanewise1_has_lanes _ _ _ _ (srl_lanes bits (proj2 Hwf))); tauto.
  - apply (lanewise2_has_lanes _ _ _ _ _ _ cmpeq_lanes); tauto.
  - apply (lanewise2_has_lanes _ _ _ _ _ _ (proj1 maxmask_lanes)); tauto.
  - apply (lanewise2_has_lanes _ _ _ _ _ _ (proj2 maxmask_lanes)); tauto.
  - apply (lanewise2_has_lanes _ _ _ _ _ _ (proj1 minmask_lanes)); tauto.
  - apply (lanewise2_has_lanes _ _ _ _ _ _ (proj2 minmask_lanes)); tauto.
  - destruct Hwf as (Hx & Ho & Hm & Hmask). apply blend_has_lanes; [by auto..|].
    destruct e3; try done; simpl; apply mask16_zip_with;
      auto using lane_eq_mask, lane_ge_mask, lane_le_mask.
Qed.

End refinement.

(** ** The laws of the specification *)

Section properties.
Context {B : Simd16} {BL : Simd16Laws B}.
Implicit Types (x o : @simd16_t B) (env : list (@simd16_t B)).

(** C13: refinement: on every backend that satisfies the interface, an
    expression inside the contract evaluates to a well-formed value whose
    sixteen lanes are the value of the reference semantics on lane lists. *)
Theorem eval_refines env e :
  Forall simd16_ok env → wf_expr (length env) e →
  simd16_ok (eval env e) ∧
  to_lanes (eval env e) = lanes_eval (to_lanes <$> env) e ∧
  lanes_ok 16 16 (lanes_eval (to_lanes <$> env) e).
Proof.
  intros Henv Hwf. destruct (eval_has_lanes env e Henv Hwf) as [Hok Hl].
  split_and!; [done..|]. rewrite <- Hl. by apply to_lanes_ok.
Qed.

(** C16: the round trip through memory: storing a loaded vector over the
    buffer it was loaded from leaves the buffer unchanged, and loading what
    was stored gives the vector back; both fail on a buffer of fewer than
    sixteen elements. *)
Theorem store_load x buf :
  simd16_ok x → Forall (in_range 16) buf →
  if decide (16 ≤ length buf)%nat
  then (∃ y, load buf = Ok y ∧ store y buf = Ok buf) ∧
       (∃ m, store x buf = Ok m ∧ load m = Ok x)
  else load buf = Err OutOfBounds ∧ store x buf = Err OutOfBounds.
Proof.
  intros Hx Hbuf. case_decide as Hlen;
    [|split; [apply load_short|apply store_short]; (done || lia)].
  pose proof (to_lanes_ok x Hx) as [Hlx Hrx]. split.
  - destruct (load_lanes buf) as (y & Hy & Hoky & Hly); [done..|].
    exists y. split; [done|]. by rewrite store_lanes, Hly, take_drop.
  - eexists. split; [by apply store_lanes|].
    destruct (load_lanes (to_lanes x ++ drop 16 buf)) as (y & -> & Hoky & Hly).
    + rewrite length_app. lia.
    + apply Forall_app. split; [done|by apply Forall_drop].
    + f_equal. apply to_lanes_inj; [done..|]. by rewrite Hly, take_app_length'.
Qed.

(** C15: [minmask] and [maxmask] set every lane of the receiver to the
    minimum (maximum) of the receiver and the operand, and return a mask
    that is all-ones in exactly the lanes of the receiver the operation
    left unchanged and all-zeros in the others. *)
Theorem minmax_mask x o (i : nat) a b :
  simd16_ok x → simd16_ok o →
  to_lanes x !! i = Some a → to_lanes o !! i = Some b →
  to_lanes (minmask x o).1 !! i = Some (a `min` b) ∧
  to_lanes (minmask x o).2 !! i = Some (if decide (a `min` b = a) then ones 16 else 0) ∧
  to_lanes (maxmask x o).1 !! i = Some (a `max` b) ∧
  to_lanes (maxmask x o).2 !! i = Some (if decide (a `max` b = a) then ones 16 else 0).
Proof.
  intros Hx Ho Ha Hb.
  destruct (minmask_to_lanes x o) as (_ & _ & -> & ->); [done..|].
  destruct (maxmask_to_lanes x o) as (_ & _ & -> & ->); [done..|].
  rewrite !lookup_zip_with, Ha, Hb. simpl. unfold lane_le, lane_ge.
  split_and!; try done; f_equal; repeat case_decide; (done || lia).
Qed.

(** C23: the mask of [minmask] (of [maxmask]) is all-ones or all-zeros
    in every lane and selects the minimum (the maximum): blending the old receiver with the operand under that mask
    gives the new receiver. *)
Theorem blend_minmask x o :
  simd16_ok x → simd16_ok o →
  mask16 (to_lanes (minmask x o).2) ∧ mask16 (to_lanes (maxmask x o).2) ∧
  blend x o (minmask x o).2 = (minmask x o).1 ∧
  blend x o (maxmask x o).2 = (maxmask x o).1.
Proof.
  intros Hx Ho.
  destruct (minmask_to_lanes x o) as (? & ? & Hmin & Hle); [done..|].
  destruct (maxmask_to_lanes x o) as (? & ? & Hmax & Hge); [done..|].
  split; [rewrite Hle; apply mask16_zip_with; auto with simd|].
  split; [rewrite Hge; apply mask16_zip_with; auto with simd|].
  split; (apply to_lanes_inj; [by apply blend_lanes; rewrite ?Hle, ?Hge;
                                  try apply mask16_zip_with; auto with simd|done|]).
  - rewrite (blend_mask_lanes x o _ lane_le), Hmin by auto with simd.
    apply zip_with_ext; [|done..]. intros a b. unfold lane_select, lane_le.
    repeat case_decide; (done || lia).
  - rewrite (blend_mask_lanes x o _ lane_ge), Hmax by auto with simd.
    apply zip_with_ext; [|done..]. intros a b. unfold lane_select, lane_ge.
    repeat case_decide; (done || lia).
Qed.

(** C24: [blend] under an all-ones mask keeps the receiver and under an
    all-zeros mask takes the operand. *)
Theorem blend_ones_zeros x o :
  simd16_ok x → simd16_ok o →
  blend x o (broadcast (ones 16)) = x ∧ blend x o (broadcast 0) = o.
Proof.
  intros Hx Ho.
  destruct (blend_broadcast x o (ones 16)) as [? Hones]; [done|done|by right|].
  destruct (blend_broadcast x o 0) as [? Hzeros]; [done|done|by left|].
  split; by apply to_lanes_inj.
Qed.

(** C25: addition and subtraction wrap around modulo 2^16 and undo each
    other in every lane. *)
Theorem add_sub_cancel x o :
  simd16_ok x → simd16_ok o →
  sub (add x o) o = x ∧ add (sub x o) o = x ∧
  to_lanes (add x o) = zip_with (λ a b, wrap 16 (a + b)) (to_lanes x) (to_lanes o).
Proof.
  intros Hx Ho. destruct (add_lanes x o) as [? Hadd], (sub_lanes x o) as [? Hsub];
    try done.
  pose proof (to_lanes_ok x Hx) as Hlx.
  split_and!; [| |done]; (apply to_lanes_inj; [by (apply sub_lanes || apply add_lanes)|done|]).
  - destruct (sub_lanes (add x o) o) as [_ ->]; [done..|]. rewrite Hadd.
    apply cancel_lanes; [by apply to_lanes_length..|apply Hlx|]. intros a b Ha.
    unfold lane_sub, lane_add, wrap. rewrite Zminus_mod_idemp_l.
    replace (a + b - b) with a by lia. by apply wrap_small.
  - destruct (add_lanes (sub x o) o) as [_ ->]; [done..|]. rewrite Hsub.
    apply cancel_lanes; [by apply to_lanes_length..|apply Hlx|]. intros a b Ha.
    unfold lane_sub, lane_add, wrap. rewrite Zplus_mod_idemp_l.
    replace (a - b + b) with a by lia. by apply wrap_small.
Qed.

(** C26: [operator[]] addresses lane [i mod 16]: a value assigned through
    it is read back at every index congruent to [i] modulo 16, and every
    other lane is unchanged. *)
Theorem index_roundtrip x i j s :
  simd16_ok x → 0 ≤ i → 0 ≤ j → in_range 16 s →
  ∃ y, set x i s = Ok y ∧ simd16_ok y ∧
       get y j = if decide (i mod 16 = j mod 16) then Ok s else get x j.
Proof.
  intros Hx Hi Hj Hs. destruct (set_lanes x i s) as (y & Hset & Hy & Hl); [done..|].
  exists y. split_and!; [done..|]. rewrite !get_lanes, Hl by done.
  pose proof (lane_index_lt i Hi). rewrite !lane_index_mod by done.
  assert (0 ≤ i mod 16 ∧ 0 ≤ j mod 16) as [??] by (split; apply Z.mod_pos_bound; lia).
  unfold at_index. case_decide as Heq.
  - rewrite Heq, list_lookup_insert_eq; [done|].
    rewrite to_lanes_length by done. pose proof (lane_index_lt j Hj).
    by rewrite lane_index_mod in * by done.
  - rewrite list_lookup_insert_ne; [done|]. lia.
Qed.

End properties.

(** ** The two backends *)

Section agreement.
Context {B1 : Simd16} {BL1 : Simd16Laws B1} {B2 : Simd16} {BL2 : Simd16Laws B2}.

(** C14: backend independence: two backends that satisfy the interface
    compute the same sixteen lanes for every expression inside the
    contract, from inputs that have the same lanes. *)
Theorem backends_agree (env1 : list (@simd16_t B1)) (env2 : list (@simd16_t B2)) e :
  Forall simd16_ok env1 → Forall simd16_ok env2 →
  to_lanes <$> env1 = to_lanes <$> env2 →
  wf_expr (length env1) e →
  to_lanes (eval env1 e) = to_lanes (eval env2 e).
Proof.
  intros H1 H2 Henv Hwf.
  assert (length env2 = length env1) as Hlen
    by (by rewrite <- (length_fmap to_lanes env1), Henv, length_fmap).
  destruct (eval_has_lanes env1 e H1 Hwf) as [_ ->].
  destruct (eval_has_lanes env2 e H2) as [_ ->]; [by rewrite Hlen|]. by rewrite Henv.
Qed.

End agreement.

(** C39: outside the contract the backends differ.  A shift count of 255
    shifts right by one on NEON (the count is read as the signed byte -1)
    and clears every lane on AVX2; a right shift by -1 shifts left by one
    on NEON and clears on AVX2; under the mask 0x8000 in every lane NEON
    takes one bit of the receiver and AVX2 its whole high byte. *)
Theorem backends_diverge :
  to_lanes_neon (sll_neon ramp_neon 255) = lane_srl 1 <$> ramp ∧
  to_lanes_avx (sll_avx ramp_avx 255) = replicate 16 0 ∧
  to_lanes_neon (srl_neon ramp_neon (-1)) = lane_sll 1 <$> ramp ∧
  to_lanes_avx (srl_avx ramp_avx (-1)) = replicate 16 0 ∧
  to_lanes_neon (blend_neon ramp_neon steps_neon (SIMD16u_scalar_neon 0x8000)) ≠
  to_lanes_avx (blend_avx ramp_avx steps_avx (_mm256_set1_epi16 0x8000)).
Proof. split_and!; by vm_compute. Qed.

(** ** The theorems at concrete inputs *)

Lemma eval_refines_witness :
  simd16_ok (eval env_neon sample) ∧
  to_lanes (eval env_neon sample) = lanes_eval (to_lanes <$> env_neon) sample ∧
  lanes_ok 16 16 (lanes_eval (to_lanes <$> env_neon) sample).
Proof. apply (eval_refines (B := neon16)); by_compute. Defined.

Lemma store_load_witness :
  if decide (16 ≤ length buffer18)%nat
  then (∃ y, @load avx16 buffer18 = Ok y ∧
             store y buffer18 = Ok buffer18) ∧
       (∃ m, store ramp_avx buffer18 = Ok m ∧ load m = Ok ramp_avx)
  else @load avx16 buffer18 = Err OutOfBounds ∧
       store ramp_avx buffer18 = Err OutOfBounds.
Proof. apply (store_load (B := avx16) ramp_avx); by_compute. Defined.

Lemma minmax_mask_witness :
  to_lanes (minmask ramp_neon steps_neon).1 !! 4%nat = Some (4 `min` 0) ∧
  to_lanes (minmask ramp_neon steps_neon).2 !! 4%nat =
    Some (if decide (4 `min` 0 = 4) then ones 16 else 0) ∧
  to_lanes (maxmask ramp_neon steps_neon).1 !! 4%nat = Some (4 `max` 0) ∧
  to_lanes (maxmask ramp_neon steps_neon).2 !! 4%nat =
    Some (if decide (4 `max` 0 = 4) then ones 16 else 0).
Proof.
  apply (minmax_mask (B := neon16) ramp_neon steps_neon); (by_compute || done).
Defined.

Lemma blend_minmask_witness :
  mask16 (to_lanes (minmask ramp_avx steps_avx).2) ∧
  mask16 (to_lanes (maxmask ramp_avx steps_avx).2) ∧
  blend ramp_avx steps_avx (minmask ramp_avx steps_avx).2 = (minmask ramp_avx steps_avx).1 ∧
  blend ramp_avx steps_avx (maxmask ramp_avx steps_avx).2 = (maxmask ramp_avx steps_avx).1.
Proof. apply (blend_minmask (B := avx16)); by_compute. Defined.

Lemma blend_ones_zeros_witness :
  blend ramp_neon steps_neon (broadcast (ones 16)) = ramp_neon ∧
  blend ramp_neon steps_neon (broadcast 0) = steps_neon.
Proof. apply (blend_ones_zeros (B := neon16)); by_compute. Defined.

Lemma add_sub_cancel_witness :
  sub (add ramp_neon steps_neon) steps_neon = ramp_neon ∧
  add (sub ramp_neon steps_neon) steps_neon = ramp_neon ∧
  to_lanes (add ramp_neon steps_neon) =
    zip_with (λ a b, wrap 16 (a + b)) (to_lanes ramp_neon) (to_lanes steps_neon).
Proof. apply (add_sub_cancel (B := neon16)); by_compute. Defined.

Lemma index_roundtrip_witness :
  ∃ y, set ramp_neon 35 77 = Ok y ∧ simd16_ok y ∧
       get y 3 = if decide (35 mod 16 = 3 mod 16) then Ok 77 else get ramp_neon 3.
Proof. apply (index_roundtrip (B := neon16)); (by_compute || lia). Defined.

Lemma backends_agree_witness :
  to_lanes (eval env_neon sample) = to_lanes (eval env_avx sample).
Proof.
  apply (backends_agree (B1 := neon16) (B2 := avx16)); (by_compute || done).
Defined.
