(* ===== verification/Simd16Print.v ===== *)
(** * printSIMD

    Lines 403-409 of src/unnamed/part_000: the one function of the second
    header that is written once for both backends.  It writes the name,
    right-aligned in a field of ten characters, then the sixteen elements
    of the union's array in decimal between brackets, separated by a comma
    and a space, then a line feed.

    The stream [std::cout] is the string of the characters written so far,
    in its default state (decimal, right-aligned, padded with spaces); the
    two inserters the function uses are modelled from the C++ standard.
    The function reads [x.v.arr] directly, which is [to_lanes] of the
    interface.  A parser of the bracketed list shows that the text printed
    determines the lanes. *)

From Stdlib Require Import Ascii String.
From stdpp Require Import strings pretty.
From S2P Require Import Prelude Simd16 Simd16Neon Simd16Avx Simd16Props.

Local Open Scope Z_scope.
Local Open Scope result_scope.

(** ** The stream *)

Definition ostream : Type := string.

Fixpoint spaces (n : nat) : string :=
  match n with
  | O => ""
  | S n => String " " (spaces n)
  end.

(** [out << std::setw(width) << s] for a C string: [s] padded on the left
    to [width] characters.  A width of 0 is a plain [out << s]. *)
Definition put_string (out : ostream) (width : nat) (s : string) : ostream :=
  out +:+ spaces (width - String.length s) +:+ s.

(** The character of a decimal digit. *)
Definition digit_char (d : Z) : ascii := pretty_N_char (Z.to_N d).

(** The decimal digits of [n] in front of [acc], lowest digit last; at most
    [fuel] digits. *)
Fixpoint put_digits (fuel : nat) (n : Z) (acc : string) : string :=
  match fuel with
  | O => acc
  | S fuel =>
      let acc' := String (digit_char (n mod 10)) acc in
      if decide (n / 10 = 0) then acc' else put_digits fuel (n / 10) acc'
  end.

(** [out << a] for a [std::uint16_t]: at most five digits. *)
Definition put_uint16 (out : ostream) (a : Z) : ostream :=
  out +:+ put_digits 5 a "".

(** The line feed. *)
Definition LF : ascii := "010"%char.

(** ** The function *)

(** The [for]: [std::cout << x.v.arr[i] << (i < 15 ? ", " : "")]. *)
Fixpoint printSIMD_loop (fuel : nat) (arr : list Z) (i : Z) (out : ostream) :
  result ostream :=
  match fuel with
  | O => Err OutOfBounds
  | S fuel =>
      if bool_decide (i < 16)
      then do a <- index arr i;
           let out := put_uint16 out a in
           let out := put_string out 0 (if bool_decide (i < 15) then ", " else "") in
           printSIMD_loop fuel arr (i + 1) out
      else Ok out
  end.

Definition printSIMD `{Simd16} (name : string) (x : simd16_t) (out : ostream) :
  result ostream :=
  let out := put_string out 10 name in
  let out := put_string out 0 ": [" in
  do out <- printSIMD_loop 17 (to_lanes x) 0 out;
  Ok (put_string out 0 (String "]" (String LF ""))).

(** ** The format, and a reader for it *)

Definition decimal (a : Z) : string := put_digits 5 a "".

(** The elements separated by a comma and a space. *)
Fixpoint show_elements (l : list Z) : string :=
  match l with
  | [] => ""
  | [a] => decimal a
  | a :: l => decimal a +:+ ", " +:+ show_elements l
  end.

Definition show_lanes (l : list Z) : string :=
  "[" +:+ show_elements l +:+ String "]" (String LF "").

Definition digit_of (c : ascii) : option Z := Z.of_nat <$> Ascii.is_nat c.

(** The longest prefix of digits, read as a number on top of [acc]. *)
Fixpoint read_digits (s : string) (acc : Z) : Z * string :=
  match s with
  | String c s' =>
      match digit_of c with
      | Some d => read_digits s' (10 * acc + d)
      | None => (acc, s)
      end
  | EmptyString => (acc, s)
  end.

(** A number: at least one digit. *)
Definition read_number (s : string) : option (Z * string) :=
  match s with
  | String c _ =>
      match digit_of c with
      | Some _ => Some (read_digits s 0)
      | None => None
      end
  | EmptyString => None
  end.

(** The string after the prefix [p], when it starts with [p]. *)
Fixpoint strip (p s : string) : option string :=
  match p, s with
  | EmptyString, _ => Some s
  | String a p, String b s => if decide (a = b) then strip p s else None
  | _, _ => None
  end.

(** [n] numbers separated by a comma and a space. *)
Fixpoint read_elements (n : nat) (s : string) : option (list Z * string) :=
  match n with
  | O => Some ([], s)
  | S n =>
      '(a, s) ← read_number s;
      match n with
      | O => Some ([a], s)
      | S _ =>
          s ← strip ", " s;
          '(l, s) ← read_elements n s;
          Some (a :: l, s)
      end
  end.

Definition parse_lanes (s : string) : option (list Z) :=
  s ← strip "[" s;
  '(l, s) ← read_elements 16 s;
  if decide (s = String "]" (String LF "")) then Some l else None.

(** A string no number continues into. *)
Definition stops_number (s : string) : Prop :=
  match s with
  | String c _ => digit_of c = None
  | EmptyString => True
  end.

#[global] Arguments digit_char : simpl never.
#[global] Arguments digit_of : simpl never.

(** ** Strings *)

Lemma append_cons c (a b : string) : String c a +:+ b = String c (a +:+ b).
Proof. done. Qed.

Lemma append_assoc (a b c : string) : (a +:+ b) +:+ c = a +:+ b +:+ c.
Proof. induction a as [|x a IH]; [done|by rewrite !append_cons, IH]. Qed.

Lemma append_nil_r (a : string) : a +:+ "" = a.
Proof. induction a as [|x a IH]; [done|by rewrite append_cons, IH]. Qed.

Lemma put_string_0 out s : put_string out 0 s = out +:+ s.
Proof. done. Qed.

Lemma strip_append p s : strip p (p +:+ s) = Some s.
Proof.
  induction p as [|a p IH]; [done|]. rewrite append_cons. simpl. by rewrite decide_True.
Qed.

Lemma read_digits_stop s acc : stops_number s → read_digits s acc = (acc, s).
Proof. destruct s as [|c s]; simpl; [done|by intros ->]. Qed.

(** ** Digits *)

Lemma digit_of_char d : 0 ≤ d ≤ 9 → digit_of (digit_char d) = Some d.
Proof.
  intros Hd. apply (forall_range (λ d, digit_of (digit_char d) = Some d) 0 10); [|lia].
  by vm_compute.
Qed.

Lemma put_digits_append fuel n acc :
  put_digits fuel n acc = put_digits fuel n "" +:+ acc.
Proof.
  revert n acc. induction fuel as [|fuel IH]; intros n acc; simpl; [done|].
  case_decide; [done|]. rewrite IH, (IH _ (String _ "")). by rewrite append_assoc.
Qed.

(** Reading back the digits of [n] multiplies the accumulator by a power of
    ten and adds [n]; [fuel] digits are enough below [10 ^ fuel]. *)
Lemma read_put_digits fuel n :
  0 ≤ n < 10 ^ Z.of_nat fuel →
  ∃ m, 0 ≤ m ∧ ∀ tail a,
    read_digits (put_digits fuel n tail) a = read_digits tail (a * 10 ^ m + n).
Proof.
  revert n. induction fuel as [|fuel IH]; intros n Hn.
  - exists 0. split; [done|]. intros tail a. simpl. f_equal. simpl in Hn. lia.
  - assert (0 ≤ n mod 10 ≤ 9) as Hd by (pose proof (Z.mod_pos_bound n 10); lia).
    rewrite Nat2Z.inj_succ, Z.pow_succ_r in Hn by lia. simpl. case_decide as Hq.
    + exists 1. split; [done|]. intros tail a. simpl.
      rewrite digit_of_char by done. f_equal. rewrite (Z.div_mod n 10) at 2 by lia. lia.
    + destruct (IH (n / 10)) as (m & Hm & Hread).
      { split; [apply Z.div_pos; lia|apply Z.div_lt_upper_bound; lia]. }
      exists (Z.succ m). split; [lia|]. intros tail a.
      rewrite Hread. simpl. rewrite digit_of_char by done. f_equal.
      rewrite Z.pow_succ_r by done. rewrite (Z.div_mod n 10) at 3 by lia. lia.
Qed.

Lemma put_digits_head fuel n tail :
  0 ≤ n → ∃ c s, put_digits (S fuel) n tail = String c s ∧ is_Some (digit_of c).
Proof.
  revert n tail. induction fuel as [|fuel IH]; intros n tail Hn.
  - assert (0 ≤ n mod 10 ≤ 9) as Hd by (pose proof (Z.mod_pos_bound n 10); lia).
    simpl. case_decide; eexists _, _; (split; [done|]); by rewrite digit_of_char.
  - assert (0 ≤ n mod 10 ≤ 9) as Hd by (pose proof (Z.mod_pos_bound n 10); lia).
    change (put_digits (S (S fuel)) n tail) with
      (let acc' := String (digit_char (n mod 10)) tail in
       if decide (n / 10 = 0) then acc' else put_digits (S fuel) (n / 10) acc').
    simpl. case_decide.
    + eexists _, _. split; [done|]. by rewrite digit_of_char.
    + apply IH. apply Z.div_pos; lia.
Qed.

Lemma read_number_decimal a rest :
  in_range 16 a → stops_number rest →
  read_number (decimal a +:+ rest) = Some (a, rest).
Proof.
  intros Ha Hrest. unfold decimal. rewrite <- put_digits_append.
  destruct (put_digits_head 4 a rest) as (c & s & Hs & [d Hc]); [by destruct Ha|].
  unfold read_number. rewrite Hs, Hc, <- Hs.
  destruct (read_put_digits 5 a) as (m & _ & ->).
  { unfold in_range in Ha. simpl. lia. }
  by rewrite read_digits_stop.
Qed.

(** ** The list of elements *)

Lemma show_elements_cons a l :
  show_elements (a :: l) =
  decimal a +:+ (if decide (l = []) then "" else ", " +:+ show_elements l).
Proof. destruct l; simpl; [by rewrite append_nil_r|done]. Qed.

Lemma read_elements_S n s :
  read_elements (S (S n)) s =
  '(a, s) ← read_number s; s ← strip ", " s;
  '(l, s) ← read_elements (S n) s; Some (a :: l, s).
Proof. done. Qed.

Lemma read_elements_show l rest :
  l ≠ [] → Forall (in_range 16) l → stops_number rest →
  read_elements (length l) (show_elements l +:+ rest) = Some (l, rest).
Proof.
  intros Hl Hr Hrest. induction Hr as [|a l Ha Hr IH]; [done|].
  rewrite show_elements_cons. destruct l as [|b l].
  - simpl. rewrite append_nil_r, read_number_decimal by done. done.
  - rewrite decide_False, !append_assoc by done.
    change (length (a :: b :: l)) with (S (S (length l))).
    rewrite read_elements_S, read_number_decimal by done. cbn [mbind option_bind].
    rewrite strip_append. cbn [mbind option_bind].
    change (S (length l)) with (length (b :: l)). by rewrite IH.
Qed.

Lemma parse_show l :
  lanes_ok 16 16 l → parse_lanes (show_lanes l) = Some l.
Proof.
  intros [Hlen Hr]. unfold parse_lanes, show_lanes.
  rewrite strip_append. cbn [mbind option_bind].
  replace 16%nat with (length l) by done.
  rewrite read_elements_show; [|by destruct l|done..].
  cbn [mbind option_bind]. by rewrite decide_True.
Qed.

(** The loop from [i] on appends the elements from [i] on; seventeen
    evaluations of its condition are enough. *)
Lemma printSIMD_loop_run fuel arr i out :
  length arr = 16%nat → 0 ≤ i ≤ 16 → 16 - i < Z.of_nat fuel →
  printSIMD_loop fuel arr i out = Ok (out +:+ show_elements (drop (Z.to_nat i) arr)).
Proof.
  intros Hlen. revert i out.
  induction fuel as [|fuel IH]; intros i out Hi Hf; [lia|]. simpl.
  case_bool_decide as Hlt.
  - destruct (lookup_lt_is_Some_2 arr (Z.to_nat i)) as [a Ha]; [lia|].
    rewrite (proj2 (index_Ok arr i a)) by (split; [lia|done]). simpl.
    rewrite IH by lia. rewrite (drop_S _ _ _ Ha), show_elements_cons.
    replace (Z.to_nat (i + 1)) with (S (Z.to_nat i)) by lia.
    rewrite put_string_0. unfold put_uint16. fold (decimal a). f_equal.
    destruct (decide (i < 15)).
    + rewrite bool_decide_eq_true_2, decide_False, !append_assoc; try done.
      intros Hd%(f_equal length). rewrite length_drop in Hd. simpl in Hd. lia.
    + assert (drop (S (Z.to_nat i)) arr = []) as Hd by (apply drop_ge; lia).
      by rewrite bool_decide_eq_false_2, decide_True, !append_assoc, Hd.
  - replace i with 16 by lia. rewrite drop_ge by (simpl; lia). by rewrite append_nil_r.
Qed.

(** ** The function on a lawful backend *)

Section print.
Context {B : Simd16} {BL : Simd16Laws B}.
Implicit Types (x : @simd16_t B).

Lemma printSIMD_run name x out :
  simd16_ok x →
  printSIMD name x out =
  Ok (put_string out 10 name +:+ ": " +:+ show_lanes (to_lanes x)).
Proof.
  intros [Hlen _]%to_lanes_ok. unfold printSIMD.
  rewrite printSIMD_loop_run by (done || lia). simpl.
  rewrite !put_string_0. unfold show_lanes. by rewrite !append_assoc.
Qed.

(** C34: on a well-formed value [printSIMD] succeeds and appends to the
    stream the name, padded on the left with spaces to ten characters and
    never truncated, a colon and a space, and the sixteen lanes in decimal
    between brackets, separated by a comma and a space, ended by a line
    feed. *)
Theorem printSIMD_format name x out :
  simd16_ok x →
  printSIMD name x out =
  Ok (out +:+ spaces (10 - String.length name) +:+ name +:+ ": [" +:+
      show_elements (to_lanes x) +:+ String "]" (String LF "")).
Proof.
  intros Hx. rewrite printSIMD_run by done.
  unfold put_string, show_lanes. by rewrite !append_assoc.
Qed.

(** C35: the text [printSIMD] writes after the name determines the value:
    reading the bracketed list back gives the sixteen lanes printed. *)
Theorem printSIMD_roundtrip name x out :
  simd16_ok x →
  ∃ text, printSIMD name x out = Ok (put_string out 10 name +:+ ": " +:+ text) ∧
          parse_lanes text = Some (to_lanes x).
Proof.
  intros Hx. exists (show_lanes (to_lanes x)).
  split; [by apply printSIMD_run|by apply parse_show, to_lanes_ok].
Qed.

End print.

Lemma printSIMD_format_witness :
  printSIMD "ramp" ramp_neon "" =
  Ok ("" +:+ spaces (10 - String.length "ramp") +:+ "ramp" +:+ ": [" +:+
      show_elements (to_lanes ramp_neon) +:+ String "]" (String LF "")).
Proof. apply (printSIMD_format (B := neon16)). by_compute. Defined.

Lemma printSIMD_roundtrip_witness :
  ∃ text, printSIMD "steps" steps_avx "" =
            Ok (put_string "" 10 "steps" +:+ ": " +:+ text) ∧
          parse_lanes text = Some (to_lanes steps_avx).
Proof. apply (printSIMD_roundtrip (B := avx16)). by_compute. Defined.
